(** * CPU profile model, bottom-up graph and flame columns

    A shallow embedding of the computational core of the profile
    visualizer: [buildModel] (cpu/model.ts), [createBottomUpGraph]
    (the bottom-up aggregator) and [buildColumns] / [LocationAccessor]
    (the flame column builder), followed by the properties the
    specification states about them.

    Conventions of the embedding.
    - A JavaScript [number] that the profile format defines as an integer
      (ids, line numbers, microsecond deltas, ticks) is a [Z].
    - An array is a [list]; [a[i]] is a lookup that yields [None] for
      [undefined].  Dereferencing [undefined] raises a TypeError in the
      source; every function that can raise returns [option] and the
      raise is [None].  Arithmetic on [undefined] gives NaN in the source;
      a run that would compute with it has no value among the integers
      and is [None] too (noted where it happens).
    - Unbounded recursion and parent-chain loops take a [fuel] argument;
      running out of fuel is [None] as well.
    - Objects that the source mutates through an alias are threaded
      explicitly (state passing), with the owner of the alias recorded. *)

From Stdlib Require Import ZArith String List Lia DecimalString.
From Stdlib Require DecimalZ DecimalPos.
From stdpp Require Import base option list strings gmap.

Local Open Scope string_scope.
Local Open Scope list_scope.
Local Open Scope Z_scope.

(** ** Array access with a JavaScript number as index *)

Definition lookupZ {A} (l : list A) (i : Z) : option A :=
  if decide (0 ≤ i) then l !! Z.to_nat i else None.

Definition alterZ {A} (f : A → A) (i : Z) (l : list A) : list A :=
  if decide (0 ≤ i) then alter f (Z.to_nat i) l else l.

(** A [for] loop whose body may throw: the state is threaded through the
    elements in order and the first failure aborts the loop. *)
Fixpoint forM {S A} (body : S → A → option S) (l : list A) (s : S) : option S :=
  match l with
  | [] => Some s
  | a :: rest => s' ← body s a; forM body rest s'
  end.

Definition sumZ (l : list Z) : Z := foldr Z.add 0 l.

(** ** Data model of cpu/model.ts *)

Inductive Category := System | User | Module.

Module CallFrame.
Record t := mk {
  functionName : string;
  scriptId : string;
  url : string;
  lineNumber : Z;
  columnNumber : Z }.
Definition withFunctionName (f : string) (c : t) : t :=
  mk f (scriptId c) (url c) (lineNumber c) (columnNumber c).
Definition withPosition (line col : Z) (c : t) : t :=
  mk (functionName c) (scriptId c) (url c) line col.
End CallFrame.

(** The debug-adapter source descriptor; only the fields the model
    builder reads. *)
Module Source.
Record t := mk {
  name : option string;
  path : option string;
  sourceReference : option Z }.
End Source.

Module ISourceLocation.
Record t := mk {
  lineNumber : Z;
  columnNumber : Z;
  source : Source.t }.
End ISourceLocation.

Module IAnnotationLocation.
Record t := mk {
  callFrame : CallFrame.t;
  locations : list ISourceLocation.t }.
End IAnnotationLocation.

Module PositionTick.
Record t := mk {
  line : Z;
  ticks : Z;
  startLocationId : option Z;
  endLocationId : option Z }.
End PositionTick.

(** A node of the raw profile (1-based [id]). *)
Module RawNode.
Record t := mk {
  id : Z;
  callFrame : CallFrame.t;
  children : option (list Z);
  positionTicks : option (list PositionTick.t);
  locationId : option Z }.
End RawNode.

(** The [$vscode] annotation of a raw profile. *)
Module Vscode.
Record t := mk {
  rootPath : option string;
  locations : list IAnnotationLocation.t }.
End Vscode.

Module ICpuProfileRaw.
Record t := mk {
  nodes : list RawNode.t;
  samples : option (list Z);
  timeDeltas : option (list Z);
  startTime : Z;
  endTime : Z;
  vscode : option Vscode.t }.
End ICpuProfileRaw.

Module IComputedNode.
Record t := mk {
  id : Z;
  selfTime : Z;
  aggregateTime : Z;
  children : list Z;
  parent : option Z;
  locationId : Z }.
Definition setAggregateTime (v : Z) (n : t) : t :=
  mk (id n) (selfTime n) v (children n) (parent n) (locationId n).
Definition addSelfTime (d : Z) (n : t) : t :=
  mk (id n) (selfTime n + d) (aggregateTime n) (children n) (parent n) (locationId n).
Definition setParent (p : Z) (n : t) : t :=
  mk (id n) (selfTime n) (aggregateTime n) (children n) (Some p) (locationId n).
End IComputedNode.

(** [ISourceLocation & { relativePath?: string }] *)
Module Src.
Record t := mk {
  location : ISourceLocation.t;
  relativePath : option string }.
End Src.

Module ILocation.
Record t := mk {
  id : Z;
  selfTime : Z;
  aggregateTime : Z;
  ticks : Z;
  category : Category;
  callFrame : CallFrame.t;
  src : option Src.t }.
Definition addTicks (d : Z) (l : t) : t :=
  mk (id l) (selfTime l) (aggregateTime l) (ticks l + d) (category l) (callFrame l) (src l).
Definition addTimes (self agg : Z) (l : t) : t :=
  mk (id l) (selfTime l + self) (aggregateTime l + agg) (ticks l) (category l)
     (callFrame l) (src l).
End ILocation.

Module IProfileModel.
Record t := mk {
  nodes : list IComputedNode.t;
  locations : list ILocation.t;
  samples : list Z;
  timeDeltas : list Z;
  rootPath : option string;
  duration : Z }.
End IProfileModel.

(** The two pure string functions of common/pathUtils the builder calls. *)
Class PathUtils := {
  properRelative : string → string → string;
  maybeFileUrlToPath : string → string }.

(** ** computeAggregateTime *)

(** The [for (const child of row.children)] loop of [computeAggregateTime],
    with the recursive call abstracted as [rec]. *)
Fixpoint sumChildren (rec : Z → list IComputedNode.t → option (Z * list IComputedNode.t))
    (children : list Z) (total : Z) (nodes : list IComputedNode.t)
    : option (Z * list IComputedNode.t) :=
  match children with
  | [] => Some (total, nodes)
  | child :: rest =>
      '(v, nodes') ← rec child nodes;
      sumChildren rec rest (total + v) nodes'
  end.

Fixpoint computeAggregateTime (fuel : nat) (index : Z) (nodes : list IComputedNode.t)
    : option (Z * list IComputedNode.t) :=
  match fuel with
  | O => None
  | S fuel' =>
      row ← lookupZ nodes index;
      if decide (IComputedNode.aggregateTime row ≠ 0)
      then Some (IComputedNode.aggregateTime row, nodes)
      else
        '(total, nodes') ← sumChildren (computeAggregateTime fuel')
                             (IComputedNode.children row)
                             (IComputedNode.selfTime row) nodes;
        Some (total, alterZ (IComputedNode.setAggregateTime total) index nodes')
  end.

(** ** getBestLocation *)

(** Truthiness of an optional string: defined and non-empty. *)
Definition truthyString (s : option string) : bool :=
  match s with
  | Some s => negb (String.eqb s "")
  | None => false
  end.

Definition isOnDisk (c : ISourceLocation.t) : bool :=
  truthyString (Source.path (ISourceLocation.source c))
  && bool_decide (Source.sourceReference (ISourceLocation.source c) = Some 0).

Definition getBestLocation `{PathUtils} (profile : ICpuProfileRaw.t)
    (candidates : option (list ISourceLocation.t)) : option Src.t :=
  match candidates ≫= List.find isOnDisk with
  | None => c ← candidates ≫= head; Some (Src.mk c None)
  | Some onDisk =>
      let relativePath :=
        match ICpuProfileRaw.vscode profile ≫= Vscode.rootPath with
        | Some root =>
            if truthyString (Some root)
            then Some (properRelative root
                         (default "" (Source.path (ISourceLocation.source onDisk))))
            else None
        | None => None
        end in
      Some (Src.mk onDisk relativePath)
  end.

(** ** categorize *)

(** [hay.includes(needle)] *)
Fixpoint includes (hay needle : string) : bool :=
  String.prefix needle hay
  || match hay with
     | EmptyString => false
     | String _ rest => includes rest needle
     end.

(** [categorize] assigns [callFrame.functionName] before it classifies, so
    it returns the call frame as it is afterwards together with the
    category. *)
Definition categorize (callFrame : CallFrame.t) (src : option Src.t)
    : CallFrame.t * Category :=
  let callFrame' :=
    CallFrame.withFunctionName
      (if String.eqb (CallFrame.functionName callFrame) ""
       then "(anonymous)" else CallFrame.functionName callFrame) callFrame in
  if decide (CallFrame.lineNumber callFrame' < 0) then (callFrame', System)
  else if includes (CallFrame.url callFrame') "node_modules" || negb (bool_decide (is_Some src))
  then (callFrame', Module)
  else (callFrame', User).

(** ** ensureSourceLocations *)

(** The call frame a location holds is an object reference.  It is either
    the [callFrame] of the i-th [$vscode] annotation, the [callFrame] of
    the k-th raw node, or a fresh object made by a spread.  A raw profile
    is parsed JSON, so no two of its fields share an object. *)
Inductive FrameOwner :=
  | OwnedByAnnotation (i : nat)
  | OwnedByNode (k : nat)
  | Detached.

Module LocationEntry.
Record t := mk {
  id : Z;
  callFrame : CallFrame.t;
  owner : FrameOwner;
  location : ISourceLocation.t }.
End LocationEntry.

(** The closure state of [ensureSourceLocations]: the counter and the
    [Map], kept in insertion order. *)
Module LocationTable.
Record t := mk {
  locationIdCounter : Z;
  locationsByRef : list (string * LocationEntry.t) }.
Definition empty : t := mk 0 [].
End LocationTable.

Definition stringOfNumber (z : Z) : string := NilZero.string_of_int (Z.to_int z).

(** [[functionName, url, scriptId, lineNumber, columnNumber].join(':')] *)
Definition refKey (callFrame : CallFrame.t) : string :=
  (CallFrame.functionName callFrame ++ ":" ++ CallFrame.url callFrame ++ ":"
   ++ CallFrame.scriptId callFrame ++ ":"
   ++ stringOfNumber (CallFrame.lineNumber callFrame) ++ ":"
   ++ stringOfNumber (CallFrame.columnNumber callFrame))%string.

Definition mapGet {V} (key : string) (m : list (string * V)) : option V :=
  snd <$> List.find (λ kv, String.eqb (fst kv) key) m.

Definition getLocationIdFor `{PathUtils} (callFrame : CallFrame.t) (owner : FrameOwner)
    (tbl : LocationTable.t) : Z * LocationTable.t :=
  let ref := refKey callFrame in
  match mapGet ref (LocationTable.locationsByRef tbl) with
  | Some existing => (LocationEntry.id existing, tbl)
  | None =>
      let id := LocationTable.locationIdCounter tbl in
      let entry :=
        LocationEntry.mk id callFrame owner
          (ISourceLocation.mk (CallFrame.lineNumber callFrame)
             (CallFrame.columnNumber callFrame)
             (Source.mk (Some (maybeFileUrlToPath (CallFrame.url callFrame)))
                (Some (maybeFileUrlToPath (CallFrame.url callFrame)))
                (Some 0))) in
      (id, LocationTable.mk (id + 1) (LocationTable.locationsByRef tbl ++ [(ref, entry)]))
  end.

(** The callback of [node.positionTicks?.map]. *)
Definition annotateTick `{PathUtils} (callFrame : CallFrame.t) (tick : PositionTick.t)
    (tbl : LocationTable.t) : PositionTick.t * LocationTable.t :=
  let '(startId, tbl1) :=
    getLocationIdFor (CallFrame.withPosition (PositionTick.line tick - 1) 0 callFrame)
      Detached tbl in
  let '(endId, tbl2) :=
    getLocationIdFor (CallFrame.withPosition (PositionTick.line tick) 0 callFrame)
      Detached tbl1 in
  (PositionTick.mk (PositionTick.line tick) (PositionTick.ticks tick)
     (Some startId) (Some endId), tbl2).

Fixpoint annotateTicks `{PathUtils} (callFrame : CallFrame.t) (ticks : list PositionTick.t)
    (tbl : LocationTable.t) : list PositionTick.t * LocationTable.t :=
  match ticks with
  | [] => ([], tbl)
  | tick :: rest =>
      let '(tick', tbl1) := annotateTick callFrame tick tbl in
      let '(rest', tbl2) := annotateTicks callFrame rest tbl1 in
      (tick' :: rest', tbl2)
  end.

(** The body of [for (const node of profile.nodes)], for the k-th node. *)
Definition annotateNode `{PathUtils} (k : nat) (node : RawNode.t) (tbl : LocationTable.t)
    : RawNode.t * LocationTable.t :=
  let '(locId, tbl1) := getLocationIdFor (RawNode.callFrame node) (OwnedByNode k) tbl in
  let '(ticks', tbl2) :=
    match RawNode.positionTicks node with
    | Some ticks =>
        let '(ticks', tbl2) := annotateTicks (RawNode.callFrame node) ticks tbl1 in
        (Some ticks', tbl2)
    | None => (None, tbl1)
    end in
  (RawNode.mk (RawNode.id node) (RawNode.callFrame node) (RawNode.children node)
     ticks' (Some locId), tbl2).

Fixpoint annotateNodes `{PathUtils} (k : nat) (nodes : list RawNode.t) (tbl : LocationTable.t)
    : list RawNode.t * LocationTable.t :=
  match nodes with
  | [] => ([], tbl)
  | node :: rest =>
      let '(node', tbl1) := annotateNode k node tbl in
      let '(rest', tbl2) := annotateNodes (S k) rest tbl1 in
      (node' :: rest', tbl2)
  end.

(** [.sort((a, b) => a.id - b.id)]: a stable sort by id. *)
Fixpoint insertById (e : LocationEntry.t) (sorted : list LocationEntry.t)
    : list LocationEntry.t :=
  match sorted with
  | [] => [e]
  | e' :: rest =>
      if decide (LocationEntry.id e < LocationEntry.id e')
      then e :: sorted
      else e' :: insertById e rest
  end.

Definition sortById (l : list LocationEntry.t) : list LocationEntry.t :=
  foldl (λ acc e, insertById e acc) [] l.

Definition withNodes (nodes : list RawNode.t) (p : ICpuProfileRaw.t) : ICpuProfileRaw.t :=
  ICpuProfileRaw.mk nodes (ICpuProfileRaw.samples p) (ICpuProfileRaw.timeDeltas p)
    (ICpuProfileRaw.startTime p) (ICpuProfileRaw.endTime p) (ICpuProfileRaw.vscode p).

Definition withVscode (v : option Vscode.t) (p : ICpuProfileRaw.t) : ICpuProfileRaw.t :=
  ICpuProfileRaw.mk (ICpuProfileRaw.nodes p) (ICpuProfileRaw.samples p)
    (ICpuProfileRaw.timeDeltas p) (ICpuProfileRaw.startTime p) (ICpuProfileRaw.endTime p) v.

(** Returns the annotation list, each entry with the owner of its call
    frame, and the profile as the function leaves it. *)
Definition ensureSourceLocations `{PathUtils} (profile : ICpuProfileRaw.t)
    : list (IAnnotationLocation.t * FrameOwner) * ICpuProfileRaw.t :=
  match ICpuProfileRaw.vscode profile with
  | Some v => (imap (λ i l, (l, OwnedByAnnotation i)) (Vscode.locations v), profile)
  | None =>
      let '(nodes', tbl) :=
        annotateNodes 0 (ICpuProfileRaw.nodes profile) LocationTable.empty in
      ((λ l, (IAnnotationLocation.mk (LocationEntry.callFrame l) [LocationEntry.location l],
              LocationEntry.owner l))
         <$> sortById (snd <$> LocationTable.locationsByRef tbl),
       withNodes nodes' profile)
  end.

(** ** buildModel *)

Definition setNodeCallFrame (c : CallFrame.t) (n : RawNode.t) : RawNode.t :=
  RawNode.mk (RawNode.id n) c (RawNode.children n) (RawNode.positionTicks n)
    (RawNode.locationId n).

Definition setAnnotationCallFrame (c : CallFrame.t) (l : IAnnotationLocation.t)
    : IAnnotationLocation.t :=
  IAnnotationLocation.mk c (IAnnotationLocation.locations l).

(** The assignment [callFrame.functionName = ...] of [categorize], seen
    through the alias: it lands in the object that owns the call frame. *)
Definition writeBackFrame (owner : FrameOwner) (c : CallFrame.t) (p : ICpuProfileRaw.t)
    : ICpuProfileRaw.t :=
  match owner with
  | OwnedByAnnotation i =>
      withVscode
        ((λ v, Vscode.mk (Vscode.rootPath v)
                 (alter (setAnnotationCallFrame c) i (Vscode.locations v)))
           <$> ICpuProfileRaw.vscode p) p
  | OwnedByNode k => withNodes (alter (setNodeCallFrame c) k (ICpuProfileRaw.nodes p)) p
  | Detached => p
  end.

(** [sourceLocations.map((l, id) => ...)], from index [id] on. *)
Fixpoint buildLocations `{PathUtils} (id : Z)
    (sourceLocations : list (IAnnotationLocation.t * FrameOwner))
    (profile : ICpuProfileRaw.t) : list ILocation.t * ICpuProfileRaw.t :=
  match sourceLocations with
  | [] => ([], profile)
  | (l, owner) :: rest =>
      let src := getBestLocation profile (Some (IAnnotationLocation.locations l)) in
      let '(callFrame, category) := categorize (IAnnotationLocation.callFrame l) src in
      let profile1 := writeBackFrame owner callFrame profile in
      let '(locations, profile2) := buildLocations (id + 1) rest profile1 in
      (ILocation.mk id 0 0 0 category callFrame src :: locations, profile2)
  end.

(** Truthiness of an optional number: defined and not zero. *)
Definition truthyNumber (n : option Z) : bool :=
  match n with
  | Some z => negb (Z.eqb z 0)
  | None => false
  end.

(** [for (const child of node.positionTicks || [])] *)
Definition addPositionTicks (locations : list ILocation.t) (child : PositionTick.t)
    : option (list ILocation.t) :=
  if truthyNumber (PositionTick.startLocationId child)
  then
    let startLocationId := default 0 (PositionTick.startLocationId child) in
    _ ← lookupZ locations startLocationId;
    Some (alterZ (ILocation.addTicks (PositionTick.ticks child)) startLocationId locations)
  else Some locations.

(** Step 1, the body for one raw node.  [nodes] is the array made by
    [new Array(n)]: [None] is a slot not yet assigned.  A node whose
    [id - 1] is no index of that array leaves a slot unassigned for good
    (n assignments, n slots), and the loop over [nodes] that follows
    throws on it; a node without [locationId] throws in step 3.  Both are
    reported here. *)
Definition placeNode (st : list (option IComputedNode.t) * list ILocation.t)
    (node : RawNode.t) : option (list (option IComputedNode.t) * list ILocation.t) :=
  let nodes := fst st in
  let locations := snd st in
  let index := RawNode.id node - 1 in
  _ ← lookupZ nodes index;
  locationId ← RawNode.locationId node;
  let computed :=
    IComputedNode.mk index 0 0
      (default [] (List.map (λ n, n - 1) <$> RawNode.children node))
      None locationId in
  locations' ← forM addPositionTicks (default [] (RawNode.positionTicks node)) locations;
  Some (alterZ (λ _, Some computed) index nodes, locations').

(** [nodes[child].parent = node.id] *)
Definition linkChild (parentId : Z) (nodes : list IComputedNode.t) (child : Z)
    : option (list IComputedNode.t) :=
  _ ← lookupZ nodes child;
  Some (alterZ (IComputedNode.setParent parentId) child nodes).

Definition linkChildren (nodes : list IComputedNode.t) (i : nat)
    : option (list IComputedNode.t) :=
  node ← nodes !! i;
  forM (linkChild (IComputedNode.id node)) (IComputedNode.children node) nodes.

(** Step 2, the body for one [i]. *)
Definition addSample (samples timeDeltas : list Z) (nodes : list IComputedNode.t) (i : nat)
    : option (list IComputedNode.t) :=
  sample ← samples !! i;
  delta ← timeDeltas !! (i - 1)%nat;
  _ ← lookupZ nodes (sample - 1);
  Some (alterZ (IComputedNode.addSelfTime delta) (sample - 1) nodes).

(** Step 3, the body for one [i]. *)
Definition rollUp (fuel : nat) (st : list IComputedNode.t * list ILocation.t) (i : nat)
    : option (list IComputedNode.t * list ILocation.t) :=
  let nodes := fst st in
  let locations := snd st in
  node ← nodes !! i;
  _ ← lookupZ locations (IComputedNode.locationId node);
  '(aggregate, nodes') ← computeAggregateTime fuel (Z.of_nat i) nodes;
  Some (nodes',
        alterZ (ILocation.addTimes (IComputedNode.selfTime node) aggregate)
          (IComputedNode.locationId node) locations).

(** [buildModel] returns the model and the raw profile as the call leaves
    it (the profile is an argument the function writes to). *)
Definition buildModel `{PathUtils} (fuel : nat) (profile : ICpuProfileRaw.t)
    : option (IProfileModel.t * ICpuProfileRaw.t) :=
  let rootPath := ICpuProfileRaw.vscode profile ≫= Vscode.rootPath in
  let duration := ICpuProfileRaw.endTime profile - ICpuProfileRaw.startTime profile in
  match ICpuProfileRaw.timeDeltas profile, ICpuProfileRaw.samples profile with
  | Some timeDeltas, Some samples =>
      let '(sourceLocations, profile1) := ensureSourceLocations profile in
      let '(locations, profile2) := buildLocations 0 sourceLocations profile1 in
      let n := length (ICpuProfileRaw.nodes profile2) in
      '(slots, locations1) ←
        forM placeNode (ICpuProfileRaw.nodes profile2) (replicate n None, locations);
      nodes ← mapM id slots;
      nodes1 ← forM linkChildren (seq 0 (length nodes)) nodes;
      nodes2 ← forM (addSample samples timeDeltas) (seq 1 (length timeDeltas - 1)) nodes1;
      '(nodes3, locations2) ←
        forM (rollUp fuel) (seq 0 (length nodes2)) (nodes2, locations1);
      Some (IProfileModel.mk nodes3 locations2 ((λ id, id - 1) <$> samples) timeDeltas
              rootPath duration,
            profile2)
  | _, _ =>
      Some (IProfileModel.mk [] [] (default [] (ICpuProfileRaw.samples profile))
              (default [] (ICpuProfileRaw.timeDeltas profile)) rootPath duration,
            profile)
  end.

(** ** The bottom-up graph *)

(** [BottomUpNode] objects point at their parent, and [addNode] walks
    those pointers, so the nodes live in a store (a list indexed by
    address) and [parent] and [children] hold addresses.  The root that
    [createBottomUpGraph] returns is the node at address 0. *)
Module BottomUpNode.
Record t := mk {
  location : option ILocation.t;
  parent : option nat;
  children : gmap Z nat;
  aggregateTime : Z;
  selfTime : Z;
  ticks : Z }.
Definition addTimes (self agg : Z) (b : t) : t :=
  mk (location b) (parent b) (children b) (aggregateTime b + agg) (selfTime b + self)
     (ticks b).
Definition setChild (key : Z) (child : nat) (b : t) : t :=
  mk (location b) (parent b) (<[key := child]> (children b)) (aggregateTime b)
     (selfTime b) (ticks b).
End BottomUpNode.

(** [addNode] on the node at address [this]. *)
Fixpoint addNode (fuel : nat) (this : nat) (node : IComputedNode.t)
    (store : list BottomUpNode.t) : option (list BottomUpNode.t) :=
  match fuel with
  | O => None
  | S fuel' =>
      self ← store !! this;
      let store' :=
        alter (BottomUpNode.addTimes (IComputedNode.selfTime node)
                 (IComputedNode.aggregateTime node)) this store in
      match BottomUpNode.parent self with
      | Some parent => addNode fuel' parent node store'
      | None => Some store'
      end
  end.

(** [aggregate.children.get(node.locationId)], and the [new BottomUpNode]
    when there is none: the address of the child and the store. *)
Definition childFor (aggregate : nat) (self : BottomUpNode.t) (node : IComputedNode.t)
    (model : IProfileModel.t) (store : list BottomUpNode.t) : nat * list BottomUpNode.t :=
  match BottomUpNode.children self !! IComputedNode.locationId node with
  | Some child => (child, store)
  | None =>
      let child := length store in
      (child,
       alter (BottomUpNode.setChild (IComputedNode.locationId node) child) aggregate
         (store ++ [BottomUpNode.mk
                      (lookupZ (IProfileModel.locations model)
                         (IComputedNode.locationId node))
                      (Some aggregate) ∅ 0 0 0]))
  end.

(** [processNode]; [fuel] bounds the walk up the computed nodes' parents.
    The parents in the store are at ever smaller addresses, so [addNode]
    is given the size of the store, which it never uses up
    ([addNode_returns]). *)
Fixpoint processNode (fuel : nat) (aggregate : nat) (node : IComputedNode.t)
    (model : IProfileModel.t) (store : list BottomUpNode.t)
    : option (list BottomUpNode.t) :=
  match fuel with
  | O => None
  | S fuel' =>
      self ← store !! aggregate;
      let child := fst (childFor aggregate self node model store) in
      let store1 := snd (childFor aggregate self node model store) in
      store2 ← addNode (length store1) child node store1;
      if truthyNumber (IComputedNode.parent node)
      then
        parentNode ← lookupZ (IProfileModel.nodes model)
                       (default 0 (IComputedNode.parent node));
        processNode fuel' child parentNode model store2
      else Some store2
  end.

(** [byLocation[node.locationId].push(node)]: every slot of [byLocation]
    is the one array passed to [fill]. *)
Definition pushByLocation (model : IProfileModel.t) (shared : list IComputedNode.t)
    (node : IComputedNode.t) : option (list IComputedNode.t) :=
  if decide (0 ≤ IComputedNode.locationId node
             < Z.of_nat (length (IProfileModel.locations model)))
  then Some (shared ++ [node])
  else None.

Definition rootLocation : ILocation.t :=
  ILocation.mk (-1) 0 0 0 System (CallFrame.mk "(root)" "0" "" (-1) (-1)) None.

Definition createBottomUpGraph (fuel : nat) (model : IProfileModel.t)
    : option (list BottomUpNode.t) :=
  _ ← forM (pushByLocation model) (IProfileModel.nodes model) [];
  forM (λ store node,
          if decide (length (IComputedNode.children node) = 0%nat)
          then processNode fuel 0%nat node model store
          else Some store)
    (IProfileModel.nodes model)
    [BottomUpNode.mk (Some rootLocation) None ∅ 0 0 0].

(** The computed nodes one call of [processNode] adds: the node, then its
    parents for as long as the parent id is truthy. *)
Fixpoint visited (fuel : nat) (nodes : list IComputedNode.t) (node : IComputedNode.t)
    : list IComputedNode.t :=
  match fuel with
  | O => []
  | S fuel' =>
      node ::
      (if truthyNumber (IComputedNode.parent node)
       then match lookupZ nodes (default 0 (IComputedNode.parent node)) with
            | Some parentNode => visited fuel' nodes parentNode
            | None => []
            end
       else [])
  end.

Definition leaves (nodes : list IComputedNode.t) : list IComputedNode.t :=
  List.filter (λ node, bool_decide (length (IComputedNode.children node) = 0%nat)) nodes.

(** ** Flame columns *)

(** A full cell, [{...location, graphId, selfTime, aggregateTime}]: the
    location's own fields (absent when the spread was of [undefined]),
    with the two times overridden. *)
Module FlameCell.
Record t := mk {
  location : option ILocation.t;
  graphId : Z;
  selfTime : Z;
  aggregateTime : Z }.
Definition id (c : t) : option Z := ILocation.id <$> location c.
Definition addTimes (current prev : t) : t :=
  mk (location prev) (graphId prev) (selfTime prev + selfTime current)
     (aggregateTime prev + aggregateTime current).
End FlameCell.

(** An element of [rows]: a full cell or the index of the column that
    holds the merged cell. *)
Inductive Row :=
  | Cell (c : FlameCell.t)
  | Merged (x : Z).

(** [x1] and [x2] are quotients of two times; they are kept unevaluated. *)
Module Fraction.
Record t := mk {
  numerator : Z;
  denominator : Z }.
End Fraction.

Module IColumn.
Record t := mk {
  x1 : Fraction.t;
  x2 : Fraction.t;
  rows : list Row }.
Definition setRow (y : nat) (r : Row) (c : t) : t :=
  mk (x1 c) (x2 c) (<[y := r]> (rows c)).
End IColumn.

Definition rowAt (columns : list IColumn.t) (x y : nat) : option Row :=
  col ← columns !! x; IColumn.rows col !! y.

(** [(r as ILocation).id]: [undefined] on a number. *)
Definition rowId (r : Row) : option Z :=
  match r with
  | Cell c => FlameCell.id c
  | Merged _ => None
  end.

(** The loop [for (let id = root.parent; id; id = model.nodes[id].parent)]
    with its [rows.unshift]. *)
Fixpoint ancestorRows (fuel : nat) (model : IProfileModel.t) (selfTime : Z)
    (id : option Z) (graphIdCounter : Z) (rows : list Row) : option (list Row * Z) :=
  match fuel with
  | O => None
  | S fuel' =>
      if truthyNumber id
      then
        node ← lookupZ (IProfileModel.nodes model) (default 0 id);
        ancestorRows fuel' model selfTime (IComputedNode.parent node) (graphIdCounter + 1)
          (Cell (FlameCell.mk
                   (lookupZ (IProfileModel.locations model) (IComputedNode.locationId node))
                   graphIdCounter 0 selfTime) :: rows)
      else Some (rows, graphIdCounter)
  end.

(** The state of phase 1: [columns], [graphIdCounter], [timeOffset]. *)
Module Synthesis.
Record t := mk {
  columns : list IColumn.t;
  graphIdCounter : Z;
  timeOffset : Z }.
End Synthesis.

(** Phase 1, the body for one [i].  A [timeDeltas[i - 1]] that is
    [undefined] makes the source compute with NaN; such a run has no value
    in the integer model. *)
Definition synthesizeColumn (fuel : nat) (model : IProfileModel.t) (st : Synthesis.t)
    (i : nat) : option Synthesis.t :=
  sample ← IProfileModel.samples model !! i;
  root ← lookupZ (IProfileModel.nodes model) sample;
  selfTime ← IProfileModel.timeDeltas model !! (i - 1)%nat;
  let leaf :=
    Cell (FlameCell.mk
            (lookupZ (IProfileModel.locations model) (IComputedNode.locationId root))
            (Synthesis.graphIdCounter st) selfTime 0) in
  '(rows, counter) ←
    ancestorRows fuel model selfTime (IComputedNode.parent root)
      (Synthesis.graphIdCounter st + 1) [leaf];
  Some (Synthesis.mk
          (Synthesis.columns st
           ++ [IColumn.mk
                 (Fraction.mk (Synthesis.timeOffset st) (IProfileModel.duration model))
                 (Fraction.mk (selfTime + Synthesis.timeOffset st)
                    (IProfileModel.duration model))
                 rows])
          counter
          (Synthesis.timeOffset st + selfTime)).

Definition initialColumns (fuel : nat) (model : IProfileModel.t) : option (list IColumn.t) :=
  Synthesis.columns <$>
    forM (synthesizeColumn fuel model)
      (seq 1 (length (IProfileModel.samples model) - 2))
      (Synthesis.mk [] 0 0).

(** What one turn of the inner merge loop does. *)
Inductive Outcome :=
  | Throw
  | Break
  | Continue (columns : list IColumn.t).

Definition setRowAt (x y : nat) (r : Row) (columns : list IColumn.t) : list IColumn.t :=
  alter (IColumn.setRow y r) x columns.

(** [prev.selfTime += current.selfTime; prev.aggregateTime += ...] where
    [prev] is the row at [(px, y)] of [columns].  [prev] must be an object
    (the module is strict, assigning a property of a number throws) and
    [current] a cell (the times of a number are [undefined]). *)
Definition accumulate (px y : nat) (current : Row) (columns : list IColumn.t) : Outcome :=
  match rowAt columns px y, current with
  | Some (Cell prev), Cell c =>
      Continue (setRowAt px y (Cell (FlameCell.addTimes c prev)) columns)
  | _, _ => Throw
  end.

(** The body of [for (let y = 0; y < col.rows.length; y++)] in phase 2. *)
Definition mergeRow (x y : nat) (columns : list IColumn.t) : Outcome :=
  match rowAt columns x y with
  | None => Throw
  | Some current =>
      match rowAt columns (x - 1) y with
      | Some (Merged p) =>
          match lookupZ columns p ≫= (λ col, IColumn.rows col !! y) with
          | None => Throw
          | Some target =>
              if decide (rowId current ≠ rowId target) then Break
              else accumulate (Z.to_nat p) y current (setRowAt x y (Merged p) columns)
          end
      | Some (Cell prev) =>
          if decide (FlameCell.id prev = rowId current)
          then accumulate (x - 1) y current
                 (setRowAt x y (Merged (Z.of_nat x - 1)) columns)
          else Break
      | None =>
          if decide (rowId current = None) then Throw else Break
      end
  end.

Fixpoint mergeRows (x : nat) (ys : list nat) (columns : list IColumn.t)
    : option (list IColumn.t) :=
  match ys with
  | [] => Some columns
  | y :: rest =>
      match mergeRow x y columns with
      | Throw => None
      | Break => Some columns
      | Continue columns' => mergeRows x rest columns'
      end
  end.

Definition mergeColumn (columns : list IColumn.t) (x : nat) : option (list IColumn.t) :=
  col ← columns !! x;
  mergeRows x (seq 0 (length (IColumn.rows col))) columns.

(** Phase 2 of [buildColumns], the horizontal merge. *)
Definition mergeColumns (columns : list IColumn.t) : option (list IColumn.t) :=
  forM mergeColumn (seq 1 (length columns - 1)) columns.

Definition buildColumns (fuel : nat) (model : IProfileModel.t) : option (list IColumn.t) :=
  columns ← initialColumns fuel model;
  mergeColumns columns.

(** ** LocationAccessor *)

Module LocationAccessor.
Record t := mk {
  model : list IColumn.t;
  x : nat;
  y : nat;
  location : option ILocation.t;
  selfTime : Z;
  aggregateTime : Z }.
End LocationAccessor.

(** The constructor: throws on a merged cell, and on a cell that is
    [undefined]. *)
Definition newLocationAccessor (model : list IColumn.t) (x y : nat)
    : option LocationAccessor.t :=
  match rowAt model x y with
  | Some (Cell cell) =>
      Some (LocationAccessor.mk model x y (FlameCell.location cell)
              (FlameCell.selfTime cell) (FlameCell.aggregateTime cell))
  | _ => None
  end.

(** Truthiness of [rows[y]]: an object is truthy, a number unless it is 0. *)
Definition truthyRow (r : option Row) : bool :=
  match r with
  | Some (Cell _) => true
  | Some (Merged p) => negb (Z.eqb p 0)
  | None => false
  end.

(** [rows[y] === x] for a column index [x]: the row is that number. *)
Definition isMergedInto (r : option Row) (x : nat) : bool :=
  match r with
  | Some (Merged p) => Z.eqb p (Z.of_nat x)
  | _ => false
  end.

(** The [do ... while] of the [children] getter from column [dx] on.  The
    first component lists the indices [i] of every [this.model[i]] the
    getter evaluates, in order; the second is the result ([None] when the
    getter throws).  Each turn increments [dx] and a read past the last
    column throws, so [fuel] above the number of columns is never used up. *)
Fixpoint childrenFrom (fuel : nat) (this : LocationAccessor.t) (dx : nat)
    (children : list LocationAccessor.t) (reads : list nat)
    : list nat * option (list LocationAccessor.t) :=
  match fuel with
  | O => (reads, None)
  | S fuel' =>
      match LocationAccessor.model this !! dx with
      | None => (reads ++ [dx], None)
      | Some col =>
          let pushed :=
            if truthyRow (IColumn.rows col !! S (LocationAccessor.y this))
            then
              child ← newLocationAccessor (LocationAccessor.model this) dx
                        (S (LocationAccessor.y this));
              Some (children ++ [child])
            else Some children in
          match pushed with
          | None => (reads ++ [dx], None)
          | Some children' =>
              match LocationAccessor.model this !! S dx with
              | None => (reads ++ [dx; S dx], None)
              | Some next =>
                  if isMergedInto (IColumn.rows next !! LocationAccessor.y this)
                       (LocationAccessor.x this)
                  then childrenFrom fuel' this (S dx) children' (reads ++ [dx; S dx])
                  else (reads ++ [dx; S dx], Some children')
              end
          end
      end
  end.

Definition children (this : LocationAccessor.t)
    : list nat * option (list LocationAccessor.t) :=
  childrenFrom (S (length (LocationAccessor.model this))) this (LocationAccessor.x this)
    [] [].

(** [typeof columns[x].rows[0] === 'object'] *)
Definition isObject (r : option Row) : bool :=
  match r with
  | Some (Cell _) => true
  | _ => false
  end.

Definition rootAccessors (columns : list IColumn.t) : option (list LocationAccessor.t) :=
  forM (λ accessors x,
          if isObject (rowAt columns x 0)
          then accessor ← newLocationAccessor columns x 0; Some (accessors ++ [accessor])
          else Some accessors)
    (seq 0 (length columns)) [].

(** The inner [for] of [getFilteredColumns] from column [x] on; [rest] is
    [columns] from index [x], so an empty [rest] is [x < columns.length]
    failing. *)
Fixpoint markSpan (accessor : LocationAccessor.t) (x : nat) (rest : list IColumn.t)
    (validX : list bool) : list bool :=
  match rest with
  | [] => validX
  | col :: rest' =>
      if isMergedInto (IColumn.rows col !! LocationAccessor.y accessor)
           (LocationAccessor.x accessor)
      then markSpan accessor (S x) rest' (<[x := true]> validX)
      else validX
  end.

(** [validX] is only ever read below [columns.length], so it is a list of
    that length ([false] for [undefined]) and a write past its end, which
    stdpp's insert ignores, is not observable. *)
Definition markAccessor (columns : list IColumn.t) (validX : list bool)
    (accessor : LocationAccessor.t) : list bool :=
  markSpan accessor (S (LocationAccessor.x accessor))
    (drop (S (LocationAccessor.x accessor)) columns)
    (<[LocationAccessor.x accessor := true]> validX).

Definition shiftRow (offsetX : Z) (r : Row) : Row :=
  match r with
  | Merged p => Merged (p - offsetX)
  | Cell c => Cell c
  end.

(** The second loop of [getFilteredColumns], the body for column [x]; the
    state is [offsetX] and [adjusted]. *)
Definition adjustColumn (columns : list IColumn.t) (validX : list bool)
    (st : Z * list IColumn.t) (x : nat) : Z * list IColumn.t :=
  match columns !! x with
  | None => st
  | Some column =>
      if default false (validX !! x)
      then
        (fst st,
         snd st ++ [if decide (fst st ≠ 0)
                    then IColumn.mk (IColumn.x1 column) (IColumn.x2 column)
                           (shiftRow (fst st) <$> IColumn.rows column)
                    else column])
      else (fst st + 1, snd st)
  end.

Definition getFilteredColumns (columns : list IColumn.t)
    (accessors : list LocationAccessor.t) : list IColumn.t :=
  let validX := foldl (markAccessor columns) (replicate (length columns) false) accessors in
  snd (foldl (adjustColumn columns validX) (0, []) (seq 0 (length columns))).

(** ** What a merged cell stands for *)

(** Column [x'] is represented at row [y] by the cell of column [x]: it
    is that column, or its row [y] is the number [x]. *)
Definition represents (columns : list IColumn.t) (x y x' : nat) : bool :=
  bool_decide (x' = x) || isMergedInto (rowAt columns x' y) x.

(** A time of the cell that phase 1 put at [(x, y)]. *)
Definition initialTime (f : FlameCell.t → Z) (columns0 : list IColumn.t) (x y : nat) : Z :=
  match rowAt columns0 x y with
  | Some (Cell c) => f c
  | _ => 0
  end.

(** The sum, over the columns that [(x, y)] represents in [columns], of
    the time [f] of their row [y] in the unmerged [columns0]. *)
Definition representedTime (f : FlameCell.t → Z) (columns0 columns : list IColumn.t)
    (x y : nat) : Z :=
  sumZ ((λ x', if represents columns x y x' then initialTime f columns0 x' y else 0)
        <$> seq 0 (length columns0)).

(** ** What buildModel leaves alone in the raw profile *)

(** A call frame without its [functionName]. *)
Definition frameSite (c : CallFrame.t) : string * string * Z * Z :=
  (CallFrame.scriptId c, CallFrame.url c, CallFrame.lineNumber c, CallFrame.columnNumber c).

(** A raw node without [locationId], [positionTicks] and the function
    name. *)
Definition nodeView (n : RawNode.t) : Z * option (list Z) * (string * string * Z * Z) :=
  (RawNode.id n, RawNode.children n, frameSite (RawNode.callFrame n)).

Definition annotationView (l : IAnnotationLocation.t)
    : (string * string * Z * Z) * list ISourceLocation.t :=
  (frameSite (IAnnotationLocation.callFrame l), IAnnotationLocation.locations l).

Definition vscodeView (v : Vscode.t)
    : option string * list ((string * string * Z * Z) * list ISourceLocation.t) :=
  (Vscode.rootPath v, annotationView <$> Vscode.locations v).

(** The raw profile without the node fields and function names that
    [buildModel] writes. *)
Definition profileView (p : ICpuProfileRaw.t) :=
  (ICpuProfileRaw.samples p, ICpuProfileRaw.timeDeltas p,
   ICpuProfileRaw.startTime p, ICpuProfileRaw.endTime p,
   nodeView <$> ICpuProfileRaw.nodes p,
   vscodeView <$> ICpuProfileRaw.vscode p).

(** The owner recorded with a call frame holds a call frame of the same
    site. *)
Definition ownerAgrees (p : ICpuProfileRaw.t) (c : CallFrame.t) (owner : FrameOwner) : Prop :=
  match owner with
  | OwnedByNode k =>
      ∀ n, ICpuProfileRaw.nodes p !! k = Some n →
           frameSite (RawNode.callFrame n) = frameSite c
  | OwnedByAnnotation i =>
      ∀ v l, ICpuProfileRaw.vscode p = Some v → Vscode.locations v !! i = Some l →
             frameSite (IAnnotationLocation.callFrame l) = frameSite c
  | Detached => True
  end.

(** ** Vocabulary of the properties *)

(** Step 1 creates every node with zero times and no parent. *)
Definition fresh (node : IComputedNode.t) : Prop :=
  IComputedNode.selfTime node = 0 ∧ IComputedNode.aggregateTime node = 0.

(** What the iterations [i] of step 2 taken from [l] add to the node at
    index [j]: the delta before the sample, [timeDeltas[i - 1]], for each
    [i] whose sample names the node, [samples[i] - 1 = j]. *)
Definition creditedOver (samples timeDeltas : list Z) (l : list nat) (j : Z) : Z :=
  sumZ ((λ i, if bool_decide (samples !! i = Some (j + 1))
              then default 0 (timeDeltas !! (i - 1)%nat) else 0) <$> l).

(** The same over all of step 2, [1 <= i < timeDeltas.length]. *)
Definition creditedTime (samples timeDeltas : list Z) (j : Z) : Z :=
  creditedOver samples timeDeltas (seq 1 (length timeDeltas - 1)) j.

(** Every entry of the table was registered with the call frame of the
    node it names as owner. *)
Definition entryAgrees (all : list RawNode.t) (e : LocationEntry.t) : Prop :=
  match LocationEntry.owner e with
  | OwnedByNode k =>
      ∃ n, all !! k = Some n ∧ RawNode.callFrame n = LocationEntry.callFrame e
  | OwnedByAnnotation _ => False
  | Detached => True
  end.

Definition tableAgrees (all : list RawNode.t) (tbl : LocationTable.t) : Prop :=
  Forall (λ kv, entryAgrees all (snd kv)) (LocationTable.locationsByRef tbl).

(** The aggregate time stored for node [c] (0 when there is no such
    node). *)
Definition aggregateOf (nodes : list IComputedNode.t) (c : Z) : Z :=
  default 0 (IComputedNode.aggregateTime <$> lookupZ nodes c).

(** Node [i] and everything below it satisfy the aggregate equation. *)
Inductive settled (nodes : list IComputedNode.t) : Z → Prop :=
  | settled_node i row :
      lookupZ nodes i = Some row →
      IComputedNode.aggregateTime row
        = IComputedNode.selfTime row
          + sumZ (aggregateOf nodes <$> IComputedNode.children row) →
      (∀ c, c ∈ IComputedNode.children row → settled nodes c) →
      settled nodes i.

(** [computeAggregateTime] answers for node [i] within recursion depth
    [h]: it descends only through nodes whose stored time is 0. *)
Fixpoint quick (h : nat) (nodes : list IComputedNode.t) (i : Z) : Prop :=
  match h with
  | O => False
  | S h' =>
      ∃ row, lookupZ nodes i = Some row ∧
             (IComputedNode.aggregateTime row ≠ 0
              ∨ Forall (quick h' nodes) (IComputedNode.children row))
  end.

(** Whatever is cached (a non-zero stored time) is settled. *)
Definition cachedSettled (nodes : list IComputedNode.t) : Prop :=
  ∀ j row, lookupZ nodes j = Some row → IComputedNode.aggregateTime row ≠ 0 →
           settled nodes j.

(** [nodes'] has the nodes of [nodes] with the same self time and
    children, and the same stored time where that was not 0. *)
Definition extends (nodes nodes' : list IComputedNode.t) : Prop :=
  ∀ j row, lookupZ nodes j = Some row →
    ∃ row', lookupZ nodes' j = Some row' ∧
            IComputedNode.selfTime row' = IComputedNode.selfTime row ∧
            IComputedNode.children row' = IComputedNode.children row ∧
            (IComputedNode.aggregateTime row ≠ 0 → row' = row).

(** What a successful [computeAggregateTime] establishes. *)
Definition computed (fuel : nat) (index v : Z) (nodes nodes' : list IComputedNode.t) : Prop :=
  (∀ j, settled nodes j → lookupZ nodes' j = lookupZ nodes j) ∧
  settled nodes' index ∧
  aggregateOf nodes' index = v ∧
  cachedSettled nodes' ∧
  extends nodes nodes' ∧
  quick fuel nodes' index.

(** The store is a tree rooted at address 0: the root has no parent and
    every other node points at a smaller address. *)
Definition wellRooted (store : list BottomUpNode.t) : Prop :=
  (∃ root, store !! 0%nat = Some root ∧ BottomUpNode.parent root = None) ∧
  ∀ a b, (0 < a)%nat → store !! a = Some b →
         ∃ p, BottomUpNode.parent b = Some p ∧ (p < a)%nat.

Definition rootAggregateTime (store : list BottomUpNode.t) : Z :=
  default 0 (BottomUpNode.aggregateTime <$> store !! 0%nat).

Definition rootSelfTime (store : list BottomUpNode.t) : Z :=
  default 0 (BottomUpNode.selfTime <$> store !! 0%nat).

(** Every child a node of the store lists is in the store. *)
Definition childrenStored (store : list BottomUpNode.t) : Prop :=
  ∀ a b key child,
    store !! a = Some b → BottomUpNode.children b !! key = Some child →
    (child < length store)%nat.

(** The walk of [processNode] up the parents of [node] ends within
    [fuel] calls, on nodes of the model. *)
Fixpoint chainEnds (fuel : nat) (nodes : list IComputedNode.t) (node : IComputedNode.t)
    : Prop :=
  match fuel with
  | O => False
  | S fuel' =>
      if truthyNumber (IComputedNode.parent node)
      then match lookupZ nodes (default 0 (IComputedNode.parent node)) with
           | Some parentNode => chainEnds fuel' nodes parentNode
           | None => False
           end
      else True
  end.

(** The loop of [ancestorRows] from parent id [id] ends within [fuel]
    turns, on nodes of the model. *)
Fixpoint ancestorsEnd (fuel : nat) (nodes : list IComputedNode.t) (id : option Z) : Prop :=
  match fuel with
  | O => False
  | S fuel' =>
      if truthyNumber id
      then match lookupZ nodes (default 0 id) with
           | Some node => ancestorsEnd fuel' nodes (IComputedNode.parent node)
           | None => False
           end
      else True
  end.

(** Sample [i] of the model can be made into a column: it is a node, the
    delta before it exists, and its ancestors end within the fuel. *)
Definition sampleReady (fuel : nat) (model : IProfileModel.t) (i : nat) : Prop :=
  ∃ sample root selfTime,
    IProfileModel.samples model !! i = Some sample ∧
    lookupZ (IProfileModel.nodes model) sample = Some root ∧
    IProfileModel.timeDeltas model !! (i - 1)%nat = Some selfTime ∧
    ancestorsEnd fuel (IProfileModel.nodes model) (IComputedNode.parent root).

(** The id that the merge compares the current row with: the id of the
    row to the left, through its number if it is one.  [None] when the
    look-up through the number throws. *)
Definition comparedId (columns : list IColumn.t) (x y : nat) : option (option Z) :=
  match rowAt columns (x - 1) y with
  | Some (Merged p) => rowId <$> (lookupZ columns p ≫= λ col, IColumn.rows col !! y)
  | Some (Cell prev) => Some (FlameCell.id prev)
  | None => Some None
  end.

(** The effect of a turn of the merge loop that goes on: the cell [c] at
    [(k, y)] is replaced by the number [p] and its times are added to the
    cell [t] at [(p, y)]. *)
Definition mergedInto (columns columns' : list IColumn.t) (k y p : nat)
    (c t : FlameCell.t) : Prop :=
  rowAt columns k y = Some (Cell c) ∧
  rowAt columns p y = Some (Cell t) ∧
  FlameCell.id t = FlameCell.id c ∧
  p ≠ k ∧
  (rowAt columns (k - 1) y = Some (Merged (Z.of_nat p)) ∨ p = (k - 1)%nat) ∧
  columns' = setRowAt p y (Cell (FlameCell.addTimes c t))
               (setRowAt k y (Merged (Z.of_nat p)) columns).

(** Position [(x', y')] has been passed by the merge when it stands at
    row [y] of column [k]. *)
Definition touched (k y x' y' : nat) : Prop :=
  (x' < k)%nat ∨ (x' = k ∧ (y' < y)%nat).

Definition allCells (columns0 : list IColumn.t) : Prop :=
  ∀ x y r, rowAt columns0 x y = Some r → ∃ c, r = Cell c.

(** The state of the merge of [columns0] when it stands at row [y] of
    column [k]. *)
Record merging (columns0 : list IColumn.t) (k y : nat) (columns : list IColumn.t)
    : Prop := {
  merging_length : length columns = length columns0;
  merging_shape : ∀ x' y',
    is_Some (rowAt columns x' y') ↔ is_Some (rowAt columns0 x' y');
  merging_untouched : ∀ x' y',
    ¬ touched k y x' y' → rowAt columns x' y' = rowAt columns0 x' y';
  merging_current : ∀ y', (y' < y)%nat → ∃ p, rowAt columns k y' = Some (Merged p);
  merging_merged : ∀ x' y' p,
    rowAt columns x' y' = Some (Merged p) →
    ∃ p' : nat,
      p = Z.of_nat p' ∧ (p' < x')%nat ∧
      (∃ c, rowAt columns p' y' = Some (Cell c)) ∧
      ∀ x'', (p' < x'' ≤ x')%nat → rowAt columns x'' y' = Some (Merged p);
  merging_cell : ∀ x' y' c,
    rowAt columns x' y' = Some (Cell c) →
    ∃ c0,
      rowAt columns0 x' y' = Some (Cell c0) ∧
      FlameCell.location c = FlameCell.location c0 ∧
      FlameCell.graphId c = FlameCell.graphId c0 ∧
      FlameCell.selfTime c = representedTime FlameCell.selfTime columns0 columns x' y' ∧
      FlameCell.aggregateTime c
        = representedTime FlameCell.aggregateTime columns0 columns x' y';
  merging_blocked : ∀ x' c,
    (1 ≤ x' < k)%nat → rowAt columns x' 0%nat = Some (Cell c) →
    ∃ i, comparedId columns x' 0%nat = Some i ∧ i ≠ FlameCell.id c }.

(** Every node of the model has a location. *)
Definition validLocations (model : IProfileModel.t) : Prop :=
  ∀ i node, lookupZ (IProfileModel.nodes model) i = Some node →
            is_Some (lookupZ (IProfileModel.locations model) (IComputedNode.locationId node)).

(** A row made by phase 1: a cell, of a location of the model. *)
Definition initialRow (model : IProfileModel.t) (r : Row) : Prop :=
  ∃ c, r = Cell c ∧ (validLocations model → is_Some (FlameCell.id c)).

Definition initialColumn (model : IProfileModel.t) (col : IColumn.t) : Prop :=
  IColumn.rows col ≠ [] ∧ Forall (initialRow model) (IColumn.rows col).

(** ** Vocabulary of the model's shape *)

(** The nodes of a model whose location is [id]. *)
Definition nodesAt (nodes : list IComputedNode.t) (id : Z) : list IComputedNode.t :=
  List.filter (λ node, bool_decide (IComputedNode.locationId node = id)) nodes.

(** All position ticks of the raw nodes, in order. *)
Definition allPositionTicks (nodes : list RawNode.t) : list PositionTick.t :=
  concat ((λ node, default [] (RawNode.positionTicks node)) <$> nodes).

(** The ticks of the position ticks that start at location [id]. *)
Definition ticksAt (nodes : list RawNode.t) (id : Z) : Z :=
  sumZ (PositionTick.ticks
        <$> List.filter (λ tick, bool_decide (PositionTick.startLocationId tick = Some id))
              (allPositionTicks nodes)).

(** The computed node that step 1 makes of a raw node. *)
Definition computedOf (node : RawNode.t) (locationId : Z) : IComputedNode.t :=
  IComputedNode.mk (RawNode.id node - 1) 0 0
    (default [] (List.map (λ n, n - 1) <$> RawNode.children node)) None locationId.

(** Node [p] lists node [c] among its children. *)
Definition listedBy (nodes : list IComputedNode.t) (c p : Z) : Prop :=
  ∃ parentNode, lookupZ nodes p = Some parentNode ∧ c ∈ IComputedNode.children parentNode.

(** Node [c] has its [parent] field set. *)
Definition hasParent (nodes : list IComputedNode.t) (c : Z) : Prop :=
  ∃ node p, lookupZ nodes c = Some node ∧ IComputedNode.parent node = Some p.

(** Every [parent] field names a node that lists the node as a child. *)
Definition parentsListed (nodes : list IComputedNode.t) : Prop :=
  ∀ c node p, lookupZ nodes c = Some node → IComputedNode.parent node = Some p →
              listedBy nodes c p.

(** What step 1 adds to the [ticks] of location [id] for one position
    tick: its ticks when it starts at [id] and [id] is truthy. *)
Definition countedTicks (id : Z) (tick : PositionTick.t) : Z :=
  if bool_decide (PositionTick.startLocationId tick = Some id) && negb (Z.eqb id 0)
  then PositionTick.ticks tick else 0.

(** ** Vocabulary of the location table *)

(** The table is consistent: the counter is the number of entries, the
    entry made [j]-th has id [j] and is filed under the key of its call
    frame, and no key is filed twice. *)
Definition tableOk (tbl : LocationTable.t) : Prop :=
  LocationTable.locationIdCounter tbl
    = Z.of_nat (length (LocationTable.locationsByRef tbl)) ∧
  (∀ j kv, LocationTable.locationsByRef tbl !! j = Some kv →
           LocationEntry.id (snd kv) = Z.of_nat j ∧
           fst kv = refKey (LocationEntry.callFrame (snd kv))) ∧
  NoDup (fst <$> LocationTable.locationsByRef tbl).

(** The entry with id [id] is the one filed under [key]. *)
Definition filedAt (tbl : LocationTable.t) (key : string) (id : Z) : Prop :=
  ∃ e, lookupZ (LocationTable.locationsByRef tbl) id = Some (key, e).

(** [tbl'] has the entries of [tbl], and maybe more after them. *)
Definition tableGrows (tbl tbl' : LocationTable.t) : Prop :=
  ∃ more, LocationTable.locationsByRef tbl'
          = LocationTable.locationsByRef tbl ++ more.

(** [id] is the index of a source location whose call frame has the key
    of [callFrame]. *)
Definition locatedAt (sourceLocations : list (IAnnotationLocation.t * FrameOwner))
    (callFrame : CallFrame.t) (id : option Z) : Prop :=
  ∃ i l, id = Some i ∧ lookupZ sourceLocations i = Some l ∧
         refKey (IAnnotationLocation.callFrame (fst l)) = refKey callFrame.

(** A raw node and its position ticks carry the ids of their source
    locations: the node that of its call frame, a tick that of the call
    frame at line [tick.line - 1], column 0, and at line [tick.line]. *)
Definition nodeLocated (sourceLocations : list (IAnnotationLocation.t * FrameOwner))
    (node : RawNode.t) : Prop :=
  locatedAt sourceLocations (RawNode.callFrame node) (RawNode.locationId node) ∧
  Forall (λ tick,
            locatedAt sourceLocations
              (CallFrame.withPosition (PositionTick.line tick - 1) 0 (RawNode.callFrame node))
              (PositionTick.startLocationId tick) ∧
            locatedAt sourceLocations
              (CallFrame.withPosition (PositionTick.line tick) 0 (RawNode.callFrame node))
              (PositionTick.endLocationId tick))
    (default [] (RawNode.positionTicks node)).

(** The same for the table the annotation pass is building. *)
Definition nodeFiled (tbl : LocationTable.t) (node : RawNode.t) : Prop :=
  (∃ id, RawNode.locationId node = Some id ∧
         filedAt tbl (refKey (RawNode.callFrame node)) id) ∧
  Forall (λ tick,
            (∃ id, PositionTick.startLocationId tick = Some id ∧
                   filedAt tbl
                     (refKey (CallFrame.withPosition (PositionTick.line tick - 1) 0
                                (RawNode.callFrame node))) id) ∧
            (∃ id, PositionTick.endLocationId tick = Some id ∧
                   filedAt tbl
                     (refKey (CallFrame.withPosition (PositionTick.line tick) 0
                                (RawNode.callFrame node))) id))
    (default [] (RawNode.positionTicks node)).

(** ** Vocabulary of the bottom-up tree *)

(** Parent pointers and child maps of the store agree: a node with a
    parent is filed in the parent's map under the id of its location, and
    what a map files under a location id is a node for that location whose
    parent is the owner of the map. *)
Definition linkedStore (model : IProfileModel.t) (store : list BottomUpNode.t) : Prop :=
  (∀ a b p, store !! a = Some b → BottomUpNode.parent b = Some p →
     ∃ parentNode key,
       store !! p = Some parentNode ∧
       BottomUpNode.children parentNode !! key = Some a ∧
       BottomUpNode.location b = lookupZ (IProfileModel.locations model) key) ∧
  (∀ p parentNode key a,
     store !! p = Some parentNode → BottomUpNode.children parentNode !! key = Some a →
     ∃ b, store !! a = Some b ∧ BottomUpNode.parent b = Some p ∧
          BottomUpNode.location b = lookupZ (IProfileModel.locations model) key).

(** The children lists below node [i] nest less than [h] deep. *)
Fixpoint shallow (h : nat) (nodes : list IComputedNode.t) (i : Z) : Prop :=
  match h with
  | O => False
  | S h' =>
      ∃ row, lookupZ nodes i = Some row ∧
             Forall (shallow h' nodes) (IComputedNode.children row)
  end.

(** ** Vocabulary of the flame columns *)

(** The rows that phase 1 makes for a sample of delta [delta]: cells, the
    last with the delta as self time and no aggregate time, the ones
    before it with no self time and the delta as aggregate time. *)
Definition stackTimes (delta : Z) (rows : list Row) : Prop :=
  ∃ front leaf,
    rows = front ++ [Cell leaf] ∧
    FlameCell.selfTime leaf = delta ∧ FlameCell.aggregateTime leaf = 0 ∧
    Forall (λ r, ∃ c, r = Cell c ∧ FlameCell.selfTime c = 0 ∧
                      FlameCell.aggregateTime c = delta) front.

(** Column [x] as phase 1 makes it: it spans the delta at index [x],
    from the sum of the deltas before it. *)
Definition phase1Column (model : IProfileModel.t) (x : nat) (col : IColumn.t) : Prop :=
  ∃ delta,
    IProfileModel.timeDeltas model !! x = Some delta ∧
    IColumn.x1 col
      = Fraction.mk (sumZ (take x (IProfileModel.timeDeltas model)))
          (IProfileModel.duration model) ∧
    IColumn.x2 col
      = Fraction.mk (delta + sumZ (take x (IProfileModel.timeDeltas model)))
          (IProfileModel.duration model) ∧
    stackTimes delta (IColumn.rows col).

(** The number of rows of column [x]. *)
Definition depthAt (columns : list IColumn.t) (x : nat) : nat :=
  length (default [] (IColumn.rows <$> columns !! x)).

(** The sum of the time [f] over the cells of row [y]. *)
Definition rowTotal (f : FlameCell.t → Z) (columns : list IColumn.t) (y : nat) : Z :=
  sumZ ((λ x, initialTime f columns x y) <$> seq 0 (length columns)).

(** The extent and the depth of every column. *)
Definition columnFrames (columns : list IColumn.t) : list (Fraction.t * Fraction.t * nat) :=
  (λ col, (IColumn.x1 col, IColumn.x2 col, length (IColumn.rows col))) <$> columns.

(** ** Vocabulary of the column filter *)

(** The marks that the first loop of [getFilteredColumns] leaves. *)
Definition keptColumns (columns : list IColumn.t) (accessors : list LocationAccessor.t)
    : list bool :=
  foldl (markAccessor columns) (replicate (length columns) false) accessors.

(** The number of columns before [x] that are not marked. *)
Definition droppedBefore (kept : list bool) (x : nat) : nat :=
  length (List.filter negb (take x kept)).

(** A column with its numbers reduced by [offsetX], as the second loop of
    [getFilteredColumns] pushes it. *)
Definition shiftColumn (offsetX : Z) (column : IColumn.t) : IColumn.t :=
  if decide (offsetX ≠ 0)
  then IColumn.mk (IColumn.x1 column) (IColumn.x2 column)
         (shiftRow offsetX <$> IColumn.rows column)
  else column.

(** ** Example inputs *)

(** A stand-in for the path utilities, for evaluating examples. *)
Definition plainPaths : PathUtils :=
  {| properRelative := λ _ path, path; maybeFileUrlToPath := λ url, url |}.

Definition frame (name : string) (line : Z) : CallFrame.t :=
  CallFrame.mk name "0" "file.js" line 0.

(** The scenario of the specification: root id1 → child id2 → grandchild
    id3, samples [1,2,3,3], timeDeltas [5,5,5]. *)
Definition scenarioProfile : ICpuProfileRaw.t :=
  ICpuProfileRaw.mk
    [ RawNode.mk 1 (frame "(root)" (-1)) (Some [2]) None None;
      RawNode.mk 2 (frame "child" 1) (Some [3]) None None;
      RawNode.mk 3 (frame "grandchild" 2) None None None ]
    (Some [1; 2; 3; 3]) (Some [5; 5; 5]) 0 15 None.

(** One anonymous function with a position tick, and no [$vscode]
    annotation. *)
Definition anonymousProfile : ICpuProfileRaw.t :=
  ICpuProfileRaw.mk
    [RawNode.mk 1 (frame "" 7) None (Some [PositionTick.mk 9 2 None None]) None]
    (Some [1; 1]) (Some [4; 4]) 0 8 None.

(** A capture that was aborted before any sample was taken. *)
Definition abortedProfile : ICpuProfileRaw.t :=
  ICpuProfileRaw.mk [RawNode.mk 1 (frame "(root)" (-1)) None None None]
    None None 100 160 (Some (Vscode.mk (Some "/work") [])).

(** The three nodes of the scenario sampled as
    root, grandchild, grandchild, child, grandchild, root. *)
Definition flameProfile : ICpuProfileRaw.t :=
  ICpuProfileRaw.mk
    [ RawNode.mk 1 (frame "(root)" (-1)) (Some [2]) None None;
      RawNode.mk 2 (frame "child" 1) (Some [3]) None None;
      RawNode.mk 3 (frame "grandchild" 2) None None None ]
    (Some [1; 3; 3; 2; 3; 1]) (Some [5; 5; 5; 7; 1]) 0 23 None.

(** A root and two children, the second with a child of its own, sampled
    as grandchild, first child, grandchild, grandchild. *)
Definition forkProfile : ICpuProfileRaw.t :=
  ICpuProfileRaw.mk
    [ RawNode.mk 1 (frame "(root)" (-1)) (Some [2; 3]) None None;
      RawNode.mk 2 (frame "a" 1) None None None;
      RawNode.mk 3 (frame "b" 2) (Some [4]) None None;
      RawNode.mk 4 (frame "c" 3) None None None ]
    (Some [1; 4; 2; 4; 4; 1]) (Some [1; 2; 3; 4; 5]) 0 15 None.

(** A function sampled on two of its lines. *)
Definition linesProfile : ICpuProfileRaw.t :=
  ICpuProfileRaw.mk
    [ RawNode.mk 1 (frame "(root)" (-1)) (Some [2; 3]) None None;
      RawNode.mk 2 (frame "work" 10) None None None;
      RawNode.mk 3 (frame "work" 11) None None None ]
    (Some [1; 2; 3; 1]) (Some [1; 1; 1]) 0 3 None.

(** A model whose only node has a location id beyond its locations. *)
Definition strayModel : IProfileModel.t :=
  IProfileModel.mk [IComputedNode.mk 0 0 0 [] None 5] [] [] [] None 0.

(** ** Properties *)

(** *** The helpers on small inputs *)

Example stringOfNumber_negative : stringOfNumber (-1) = "-1".
Proof. reflexivity. Qed.

Example refKey_frame : refKey (frame "child" 1) = "child:file.js:0:1:0".
Proof. reflexivity. Qed.

Example includes_node_modules : includes "/app/node_modules/x/index.js" "node_modules" = true.
Proof. reflexivity. Qed.

Example includes_user_code : includes "/app/src/index.js" "node_modules" = false.
Proof. reflexivity. Qed.

Example categorize_anonymous :
  categorize (frame "" 3) None = (frame "(anonymous)" 3, Module).
Proof. reflexivity. Qed.

Example categorize_system :
  categorize (frame "(root)" (-1)) None = (frame "(root)" (-1), System).
Proof. reflexivity. Qed.

Example lookupZ_negative : lookupZ [1; 2; 3] (-1) = None.
Proof. reflexivity. Qed.

Example truthyNumber_zero : truthyNumber (Some 0) = false.
Proof. reflexivity. Qed.

(** *** Loops and array access *)

Lemma forM_cons {S A} (body : S → A → option S) (a : A) (l : list A) (s : S) :
  forM body (a :: l) s = body s a ≫= forM body l.
Proof. reflexivity. Qed.

Lemma forM_app {S A} (body : S → A → option S) (l1 l2 : list A) (s : S) :
  forM body (l1 ++ l2) s = forM body l1 s ≫= forM body l2.
Proof.
  revert s. induction l1 as [|a l1 IH]; intros s; simpl; [done|].
  destruct (body s a) as [s1|]; simpl; [apply IH|done].
Qed.

(** An invariant of the state, with a fact about every element the loop
    went through. *)
Lemma forM_Forall {S A} (I : S → Prop) (Q : A → Prop) (body : S → A → option S)
    (l : list A) (s s' : S) :
  (∀ s a s', I s → body s a = Some s' → I s' ∧ Q a) →
  I s → forM body l s = Some s' → I s' ∧ Forall Q l.
Proof.
  intros Hbody. revert s. induction l as [|a l IH]; intros s HI Hrun; simpl in Hrun.
  - injection Hrun as <-. by split.
  - destruct (body s a) as [s1|] eqn:Hstep; simpl in Hrun; [|done].
    destruct (Hbody _ _ _ HI Hstep) as [HI1 HQ].
    destruct (IH _ HI1 Hrun) as [HI' HQs]. split; [done|by constructor].
Qed.

Lemma forM_inv {S A} (I : S → Prop) (body : S → A → option S) (l : list A) (s s' : S) :
  (∀ s a s', I s → body s a = Some s' → I s') →
  I s → forM body l s = Some s' → I s'.
Proof.
  intros Hbody HI Hrun.
  apply (forM_Forall I (λ _, True) body l s s'); [|done|done].
  intros s0 a s1 H0 H1. split; [by eapply Hbody|done].
Qed.

Lemma lookupZ_Some {A} (l : list A) (i : Z) (a : A) :
  lookupZ l i = Some a ↔ 0 ≤ i ∧ l !! Z.to_nat i = Some a.
Proof. unfold lookupZ. case_decide; [tauto|]. split; [done|]. intros [? _]. lia. Qed.

Lemma lookupZ_lt {A} (l : list A) (i : Z) (a : A) :
  lookupZ l i = Some a → 0 ≤ i < Z.of_nat (length l).
Proof.
  intros Hl. apply lookupZ_Some in Hl as [Hpos Hl]. apply lookup_lt_Some in Hl. lia.
Qed.

Lemma lookupZ_of_nat {A} (l : list A) (i : nat) : lookupZ l (Z.of_nat i) = l !! i.
Proof. unfold lookupZ. case_decide; [by rewrite Nat2Z.id|lia]. Qed.

Lemma lookupZ_is_Some {A} (l : list A) (i : Z) :
  is_Some (lookupZ l i) ↔ 0 ≤ i < Z.of_nat (length l).
Proof.
  split.
  - intros [a Ha]. by eapply lookupZ_lt.
  - intros [H0 Hlt]. unfold lookupZ. case_decide; [|lia].
    apply lookup_lt_is_Some. lia.
Qed.

Lemma length_alterZ {A} (f : A → A) (i : Z) (l : list A) : length (alterZ f i l) = length l.
Proof. unfold alterZ. case_decide; [apply length_alter|done]. Qed.

Lemma map_alterZ_id {A B} (g : A → B) (f : A → A) (i : Z) (l : list A) :
  (∀ a, g (f a) = g a) → g <$> alterZ f i l = g <$> l.
Proof.
  intros Hgf. unfold alterZ. case_decide; [|done].
  rewrite (list_fmap_alter g f id); [by apply list_alter_id|].
  apply Forall_forall. intros a _. apply Hgf.
Qed.

Lemma lookupZ_alterZ {A} (f : A → A) (i j : Z) (l : list A) :
  lookupZ (alterZ f i l) j = if decide (i = j) then f <$> lookupZ l j else lookupZ l j.
Proof.
  unfold lookupZ, alterZ. destruct (decide (0 ≤ j)) as [Hj|Hj].
  - destruct (decide (0 ≤ i)) as [Hi|Hi].
    + case_decide as Hij.
      * subst. apply list_lookup_alter_eq.
      * apply list_lookup_alter_ne. lia.
    + case_decide; [lia|done].
  - by case_decide.
Qed.

(** Lists with the same projection have, at every index, elements with
    the same projection. *)
Lemma lookup_fmap_eq {A B} (g : A → B) (l l' : list A) i a :
  g <$> l' = g <$> l → l !! i = Some a → ∃ a', l' !! i = Some a' ∧ g a' = g a.
Proof.
  intros Heq Ha.
  assert (Hg : (g <$> l') !! i = Some (g a)) by (by rewrite Heq, list_lookup_fmap, Ha).
  rewrite list_lookup_fmap in Hg. destruct (l' !! i) as [a'|]; [|done].
  injection Hg as Hg. by exists a'.
Qed.

Lemma lookupZ_fmap_eq {A B} (g : A → B) (l l' : list A) i a :
  g <$> l' = g <$> l → lookupZ l i = Some a → ∃ a', lookupZ l' i = Some a' ∧ g a' = g a.
Proof.
  intros Heq [Hi Ha]%lookupZ_Some.
  destruct (lookup_fmap_eq g l l' _ _ Heq Ha) as (a' & Ha' & Hg).
  exists a'. split; [by apply lookupZ_Some|done].
Qed.

Lemma sumZ_cons (a : Z) (l : list Z) : sumZ (a :: l) = a + sumZ l.
Proof. reflexivity. Qed.

Lemma sumZ_app (l1 l2 : list Z) : sumZ (l1 ++ l2) = sumZ l1 + sumZ l2.
Proof. induction l1 as [|a l1 IH]; simpl; rewrite ?sumZ_cons; [done|lia]. Qed.

(** Adding [d] to one element adds [d] to the sum. *)
Lemma sumZ_alter {A} (g : A → Z) (f : A → A) (d : Z) (i : nat) (l : list A) :
  (∀ a, g (f a) = g a + d) → (i < length l)%nat →
  sumZ (g <$> alter f i l) = sumZ (g <$> l) + d.
Proof.
  intros Hgf. revert i. induction l as [|a l IH]; intros i Hi; simpl in Hi; [lia|].
  destruct i as [|i].
  - change (alter f 0%nat (a :: l)) with (f a :: l).
    rewrite !fmap_cons, !sumZ_cons, Hgf. lia.
  - change (alter f (S i) (a :: l)) with (a :: alter f i l).
    rewrite !fmap_cons, !sumZ_cons, IH; lia.
Qed.

(** *** The steps of buildModel *)

Section BuildModel.
Context `{PathUtils}.

(** A successful run on a profile with samples and deltas went through
    every step. *)
Lemma buildModel_steps fuel profile samples timeDeltas model profile' :
  ICpuProfileRaw.samples profile = Some samples →
  ICpuProfileRaw.timeDeltas profile = Some timeDeltas →
  buildModel fuel profile = Some (model, profile') →
  ∃ locations slots locations1 nodes nodes1 nodes2,
    buildLocations 0 (fst (ensureSourceLocations profile))
      (snd (ensureSourceLocations profile)) = (locations, profile') ∧
    forM placeNode (ICpuProfileRaw.nodes profile')
      (replicate (length (ICpuProfileRaw.nodes profile')) None, locations)
      = Some (slots, locations1) ∧
    mapM id slots = Some nodes ∧
    forM linkChildren (seq 0 (length nodes)) nodes = Some nodes1 ∧
    forM (addSample samples timeDeltas) (seq 1 (length timeDeltas - 1)) nodes1
      = Some nodes2 ∧
    forM (rollUp fuel) (seq 0 (length nodes2)) (nodes2, locations1)
      = Some (IProfileModel.nodes model, IProfileModel.locations model) ∧
    IProfileModel.samples model = (λ id, id - 1) <$> samples ∧
    IProfileModel.timeDeltas model = timeDeltas ∧
    IProfileModel.rootPath model = ICpuProfileRaw.vscode profile ≫= Vscode.rootPath ∧
    IProfileModel.duration model
      = ICpuProfileRaw.endTime profile - ICpuProfileRaw.startTime profile.
Proof.
  intros Hs Htd Hrun. unfold buildModel in Hrun. rewrite Hs, Htd in Hrun.
  destruct (ensureSourceLocations profile) as [sourceLocations profile1]; simpl.
  destruct (buildLocations 0 sourceLocations profile1) as [locations profile2].
  destruct (forM placeNode _ _) as [[slots locations1]|] eqn:Hplace; simpl in Hrun; [|done].
  destruct (mapM id slots) as [nodes|] eqn:Hslots; simpl in Hrun; [|done].
  destruct (forM linkChildren _ _) as [nodes1|] eqn:Hlink; simpl in Hrun; [|done].
  destruct (forM (addSample _ _) _ _) as [nodes2|] eqn:Hsamples; simpl in Hrun; [|done].
  destruct (forM (rollUp fuel) _ _) as [[nodes3 locations2]|] eqn:Hroll; simpl in Hrun;
    [|done].
  injection Hrun as <- <-. simpl.
  exists locations, slots, locations1, nodes, nodes1, nodes2. by repeat split.
Qed.

Lemma placeNode_fresh st node st' :
  Forall (λ slot, ∀ n, slot = Some n → fresh n) (fst st) →
  placeNode st node = Some st' →
  Forall (λ slot, ∀ n, slot = Some n → fresh n) (fst st').
Proof.
  intros Hst Hplace. unfold placeNode in Hplace.
  destruct (lookupZ (fst st) _) as [slot|]; simpl in Hplace; [|done].
  destruct (RawNode.locationId node) as [locationId|]; simpl in Hplace; [|done].
  destruct (forM addPositionTicks _ _) as [locations'|]; simpl in Hplace; [|done].
  injection Hplace as <-. simpl. unfold alterZ. case_decide; [|done].
  apply Forall_alter; [done|]. intros slot0 _ _ n [= <-]. by split.
Qed.

Lemma placed_fresh nodes slots locations slots' locations' :
  Forall (λ slot : option IComputedNode.t, ∀ n, slot = Some n → fresh n) slots →
  forM placeNode nodes (slots, locations) = Some (slots', locations') →
  Forall (λ slot, ∀ n, slot = Some n → fresh n) slots'.
Proof.
  intros Hslots Hrun.
  apply (forM_inv (λ st, Forall (λ slot, ∀ n, slot = Some n → fresh n) (fst st))
           placeNode nodes (slots, locations) (slots', locations')); [|done|done].
  intros st a st' Hst Hstep. by eapply placeNode_fresh.
Qed.

Lemma mapM_id_Forall {A} (P : A → Prop) (slots : list (option A)) (l : list A) :
  Forall (λ slot, ∀ a, slot = Some a → P a) slots →
  mapM id slots = Some l → Forall P l.
Proof.
  intros Hslots Hl. apply mapM_Some in Hl.
  induction Hl as [|slot a slots l Hslot _ IH]; [done|].
  apply Forall_cons in Hslots as [Ha Hslots]. constructor; [by apply Ha|by apply IH].
Qed.

(** Linking children to parents touches the [parent] field only. *)
Lemma linkChildren_frame nodes i nodes' :
  linkChildren nodes i = Some nodes' →
  (IComputedNode.selfTime <$> nodes') = (IComputedNode.selfTime <$> nodes) ∧
  IComputedNode.aggregateTime <$> nodes' = IComputedNode.aggregateTime <$> nodes ∧
  IComputedNode.children <$> nodes' = IComputedNode.children <$> nodes.
Proof.
  unfold linkChildren. destruct (nodes !! i) as [node|]; simpl; [|done].
  generalize (IComputedNode.id node). intros parentId.
  generalize (IComputedNode.children node). intros cs.
  revert nodes. induction cs as [|c cs IH]; intros nodes Hrun.
  - injection Hrun as <-. done.
  - rewrite forM_cons in Hrun.
    destruct (linkChild parentId nodes c) as [nodes1|] eqn:Hstep; simpl in Hrun; [|done].
    unfold linkChild in Hstep.
    destruct (lookupZ nodes c) as [row|]; simpl in Hstep; [|done].
    injection Hstep as <-.
    apply IH in Hrun as (-> & -> & ->).
    rewrite !map_alterZ_id; done.
Qed.

Lemma linked_frame l nodes nodes' :
  forM linkChildren l nodes = Some nodes' →
  (IComputedNode.selfTime <$> nodes') = (IComputedNode.selfTime <$> nodes) ∧
  IComputedNode.aggregateTime <$> nodes' = IComputedNode.aggregateTime <$> nodes ∧
  IComputedNode.children <$> nodes' = IComputedNode.children <$> nodes.
Proof.
  revert nodes. induction l as [|i l IH]; intros nodes Hrun; simpl in Hrun.
  - by injection Hrun as <-.
  - destruct (linkChildren nodes i) as [nodes1|] eqn:Hstep; simpl in Hrun; [|done].
    apply linkChildren_frame in Hstep as (<- & <- & <-). by apply IH.
Qed.

(** Step 2, one sample: the node's self time grows by the delta before
    the sample. *)
Lemma addSample_spec samples timeDeltas nodes i nodes' :
  addSample samples timeDeltas nodes i = Some nodes' →
  ∃ sample delta,
    samples !! i = Some sample ∧ timeDeltas !! (i - 1)%nat = Some delta ∧
    is_Some (lookupZ nodes (sample - 1)) ∧
    nodes' = alterZ (IComputedNode.addSelfTime delta) (sample - 1) nodes.
Proof.
  unfold addSample. intros Hrun.
  destruct (samples !! i) as [sample|]; simpl in Hrun; [|done].
  destruct (timeDeltas !! (i - 1)%nat) as [delta|]; simpl in Hrun; [|done].
  destruct (lookupZ nodes (sample - 1)) as [row|] eqn:Hrow; simpl in Hrun; [|done].
  injection Hrun as <-. exists sample, delta. rewrite Hrow. eauto.
Qed.

Lemma addSample_sum samples timeDeltas nodes i nodes' :
  addSample samples timeDeltas nodes i = Some nodes' →
  ∃ delta, timeDeltas !! (i - 1)%nat = Some delta ∧
    sumZ (IComputedNode.selfTime <$> nodes')
    = sumZ (IComputedNode.selfTime <$> nodes) + delta ∧
    IComputedNode.aggregateTime <$> nodes' = IComputedNode.aggregateTime <$> nodes ∧
    IComputedNode.children <$> nodes' = IComputedNode.children <$> nodes.
Proof.
  intros (sample & delta & _ & Hdelta & Hrow & ->)%addSample_spec.
  exists delta. split; [done|]. split; [|by rewrite !map_alterZ_id].
  apply lookupZ_is_Some in Hrow. unfold alterZ. case_decide; [|lia].
  apply sumZ_alter; [done|lia].
Qed.

Lemma addSamples_sum samples timeDeltas k : ∀ a nodes nodes',
  (1 ≤ a)%nat →
  forM (addSample samples timeDeltas) (seq a k) nodes = Some nodes' →
  sumZ (IComputedNode.selfTime <$> nodes')
  = sumZ (IComputedNode.selfTime <$> nodes) + sumZ (take k (drop (a - 1) timeDeltas)) ∧
  IComputedNode.aggregateTime <$> nodes' = IComputedNode.aggregateTime <$> nodes ∧
  IComputedNode.children <$> nodes' = IComputedNode.children <$> nodes.
Proof.
  induction k as [|k IH]; intros a nodes nodes' Ha Hrun; simpl in Hrun.
  - injection Hrun as <-. rewrite take_0. unfold sumZ at 3. simpl. split; [lia|done].
  - destruct (addSample samples timeDeltas nodes a) as [nodes1|] eqn:Hstep;
      simpl in Hrun; [|done].
    apply addSample_sum in Hstep as (delta & Hdelta & Hsum & Hagg & Hchildren).
    apply IH in Hrun as (Hsum' & -> & ->); [|lia].
    split; [|done]. rewrite Hsum', Hsum.
    rewrite (drop_S _ _ _ Hdelta). replace (S (a - 1)) with (S a - 1)%nat by lia.
    rewrite firstn_cons, sumZ_cons. lia.
Qed.

(** Step 2, node by node: the self time of the node at index [j] grows by
    the deltas of the samples that name it, and by nothing else. *)
Lemma addSamples_credit samples timeDeltas l : ∀ nodes nodes' j node',
  forM (addSample samples timeDeltas) l nodes = Some nodes' →
  lookupZ nodes' j = Some node' →
  ∃ node, lookupZ nodes j = Some node ∧
    IComputedNode.selfTime node'
    = IComputedNode.selfTime node + creditedOver samples timeDeltas l j.
Proof.
  unfold creditedOver.
  induction l as [|i l IH]; intros nodes nodes' j node' Hrun Hnode'; simpl in Hrun.
  - injection Hrun as <-. exists node'. split; [done|]. unfold sumZ. simpl. lia.
  - destruct (addSample samples timeDeltas nodes i) as [nodes1|] eqn:Hstep;
      simpl in Hrun; [|done].
    apply addSample_spec in Hstep as (sample & delta & Hsample & Hdelta & _ & ->).
    destruct (IH _ _ _ _ Hrun Hnode') as (node1 & Hnode1 & Hself).
    rewrite lookupZ_alterZ in Hnode1. rewrite fmap_cons, sumZ_cons, Hsample, Hdelta.
    simpl. destruct (decide (sample - 1 = j)) as [Hj|Hj].
    + destruct (lookupZ nodes j) as [node|]; simpl in Hnode1; [|done].
      injection Hnode1 as <-. exists node. split; [done|].
      rewrite bool_decide_eq_true_2 by (f_equal; lia).
      rewrite Hself. destruct node. simpl. lia.
    + exists node1. split; [done|].
      rewrite bool_decide_eq_false_2; [lia|]. intros [= ->]. lia.
Qed.

(** [computeAggregateTime] writes [aggregateTime] fields only. *)
Lemma computeAggregateTime_frame fuel : ∀ index nodes v nodes',
  computeAggregateTime fuel index nodes = Some (v, nodes') →
  (IComputedNode.selfTime <$> nodes') = (IComputedNode.selfTime <$> nodes) ∧
  IComputedNode.children <$> nodes' = IComputedNode.children <$> nodes.
Proof.
  induction fuel as [|fuel IH]; intros index nodes v nodes' Hrun; simpl in Hrun; [done|].
  destruct (lookupZ nodes index) as [row|]; simpl in Hrun; [|done].
  case_decide.
  { by injection Hrun as <- <-. }
  destruct (sumChildren _ _ _ _) as [[total nodes1]|] eqn:Hsum; simpl in Hrun; [|done].
  injection Hrun as <- <-.
  rewrite !map_alterZ_id by done.
  clear -IH Hsum. revert Hsum.
  generalize (IComputedNode.selfTime row). generalize (IComputedNode.children row).
  intros cs. revert nodes. induction cs as [|c cs IHcs]; intros nodes acc Hsum;
    simpl in Hsum.
  - by injection Hsum as <- <-.
  - destruct (computeAggregateTime fuel c nodes) as [[v nodes2]|] eqn:Hc; simpl in Hsum;
      [|done].
    apply IH in Hc as [<- <-]. by eapply IHcs.
Qed.

Lemma rollUp_frame fuel st i st' :
  rollUp fuel st i = Some st' →
  IComputedNode.selfTime <$> fst st' = IComputedNode.selfTime <$> fst st ∧
  IComputedNode.children <$> fst st' = IComputedNode.children <$> fst st ∧
  length (snd st') = length (snd st).
Proof.
  unfold rollUp. intros Hrun.
  destruct (fst st !! i) as [node|]; simpl in Hrun; [|done].
  destruct (lookupZ (snd st) _) as [location|]; simpl in Hrun; [|done].
  destruct (computeAggregateTime fuel _ _) as [[aggregate nodes']|] eqn:Hc; simpl in Hrun;
    [|done].
  injection Hrun as <-. simpl. apply computeAggregateTime_frame in Hc as [-> ->].
  by rewrite length_alterZ.
Qed.

Lemma rolledUp_frame fuel l st st' :
  forM (rollUp fuel) l st = Some st' →
  IComputedNode.selfTime <$> fst st' = IComputedNode.selfTime <$> fst st ∧
  IComputedNode.children <$> fst st' = IComputedNode.children <$> fst st.
Proof.
  intros Hrun.
  apply (forM_inv (λ s, IComputedNode.selfTime <$> fst s = IComputedNode.selfTime <$> fst st ∧
                        IComputedNode.children <$> fst s = IComputedNode.children <$> fst st)
           (rollUp fuel) l st st'); [|done|done].
  intros s a s' [Hs Hc] Hstep. apply rollUp_frame in Hstep as (-> & -> & _). done.
Qed.

Lemma sumZ_zero (l : list Z) : Forall (λ z, z = 0) l → sumZ l = 0.
Proof. induction 1 as [|z l -> _ IH]; [done|]. rewrite sumZ_cons. lia. Qed.

(** After steps 1 and 1b every self time and every aggregate time is 0. *)
Lemma linked_nodes_fresh profile' locations slots locations1 nodes nodes1 :
  forM placeNode (ICpuProfileRaw.nodes profile')
    (replicate (length (ICpuProfileRaw.nodes profile')) None, locations)
    = Some (slots, locations1) →
  mapM id slots = Some nodes →
  forM linkChildren (seq 0 (length nodes)) nodes = Some nodes1 →
  Forall (λ z, z = 0) (IComputedNode.selfTime <$> nodes1) ∧
  Forall (λ z, z = 0) (IComputedNode.aggregateTime <$> nodes1).
Proof.
  intros Hplace Hslots Hlink.
  apply placed_fresh in Hplace; [|by apply Forall_replicate].
  apply (mapM_id_Forall fresh) in Hslots; [|done].
  apply linked_frame in Hlink as (-> & -> & _).
  split; apply Forall_fmap; eapply Forall_impl; try exact Hslots; by intros n [? ?].
Qed.

End BuildModel.

(** *** The model builder *)

Section BuildModelProperties.
Context `{PathUtils}.

(** C5. When [samples] or [timeDeltas] is absent, [buildModel] returns
    (it does not fail) a model with no nodes and no locations, whose
    duration is [endTime - startTime] and whose root path is the one
    configured in the profile. *)
Theorem buildModel_soft_fail fuel profile :
  ICpuProfileRaw.samples profile = None ∨ ICpuProfileRaw.timeDeltas profile = None →
  ∃ model,
    buildModel fuel profile = Some (model, profile) ∧
    IProfileModel.nodes model = [] ∧
    IProfileModel.locations model = [] ∧
    IProfileModel.duration model
      = ICpuProfileRaw.endTime profile - ICpuProfileRaw.startTime profile ∧
    IProfileModel.rootPath model = ICpuProfileRaw.vscode profile ≫= Vscode.rootPath.
Proof.
  intros Habsent. unfold buildModel.
  destruct (ICpuProfileRaw.timeDeltas profile) as [timeDeltas|] eqn:Htd;
    destruct (ICpuProfileRaw.samples profile) as [samples|] eqn:Hs;
    try (eexists; split; [reflexivity|by repeat split]).
  by destruct Habsent.
Qed.

(** The number of nodes does not change after step 1. *)
Lemma buildModel_node_count nodes1 samples timeDeltas nodes2 fuel locations1 st :
  forM (addSample samples timeDeltas) (seq 1 (length timeDeltas - 1)) nodes1 = Some nodes2 →
  forM (rollUp fuel) (seq 0 (length nodes2)) (nodes2, locations1) = Some st →
  length (fst st) = length nodes1.
Proof.
  intros Hsamples Hroll.
  apply addSamples_sum in Hsamples as (_ & _ & Hc); [|lia].
  apply rolledUp_frame in Hroll as [_ Hc']. simpl in Hc'.
  rewrite <- (length_fmap IComputedNode.children (fst st)), Hc', Hc.
  apply length_fmap.
Qed.

(** C1 (amended). For a raw profile with samples and timeDeltas, the sum
    of [selfTime] over the nodes of the built model equals the sum of all
    entries of [timeDeltas] but the last: the loop of step 2 runs for
    [1 <= i < timeDeltas.length] and adds [timeDeltas[i - 1]] to the node
    at [samples[i]], so the final delta is attributed to no node.  Node by
    node: the [selfTime] of the node at index [j] is the sum of the
    [timeDeltas[i - 1]] over exactly the [i] of that range whose sample
    names it, [samples[i] - 1 = j]. *)
Theorem buildModel_selfTime_total fuel profile samples timeDeltas model profile' :
  ICpuProfileRaw.samples profile = Some samples →
  ICpuProfileRaw.timeDeltas profile = Some timeDeltas →
  buildModel fuel profile = Some (model, profile') →
  sumZ (IComputedNode.selfTime <$> IProfileModel.nodes model)
  = sumZ (take (length timeDeltas - 1) timeDeltas) ∧
  ∀ j node, lookupZ (IProfileModel.nodes model) j = Some node →
    IComputedNode.selfTime node = creditedTime samples timeDeltas j.
Proof.
  intros Hs Htd Hrun.
  destruct (buildModel_steps _ _ _ _ _ _ Hs Htd Hrun)
    as (locations & slots & locations1 & nodes & nodes1 & nodes2
        & _ & Hplace & Hslots & Hlink & Hsamples & Hroll & _).
  destruct (linked_nodes_fresh _ _ _ _ _ _ Hplace Hslots Hlink) as [Hself _].
  apply rolledUp_frame in Hroll as [Hroll _]. simpl in Hroll. split.
  - apply addSamples_sum in Hsamples as (Hsum & _); [|lia].
    rewrite Hroll, Hsum, (sumZ_zero _ Hself).
    change (1 - 1)%nat with 0%nat. rewrite drop_0. lia.
  - intros j node Hnode.
    destruct (lookupZ_fmap_eq IComputedNode.selfTime _ nodes2 _ _ (eq_sym Hroll) Hnode)
      as (node2 & Hnode2 & Heq).
    destruct (addSamples_credit _ _ _ _ _ _ _ Hsamples Hnode2) as (node1 & Hnode1 & Hcredit).
    apply lookupZ_Some in Hnode1 as [_ Hnode1].
    rewrite Forall_forall in Hself.
    assert (IComputedNode.selfTime node1 = 0) as Hzero.
    { apply Hself, list_elem_of_fmap. exists node1. split; [done|].
      by apply list_elem_of_lookup_2 in Hnode1. }
    unfold creditedTime. lia.
Qed.

(** C4 (amended). [buildModel] copies the sample and delta sequences
    without checking them: the model has as many samples as the raw
    profile and exactly its timeDeltas (none when the field is absent).
    When both fields are present, every [samples[i]] with
    [1 <= i < timeDeltas.length] is a valid 0-based index into [nodes]. *)
Theorem buildModel_samples_shape fuel profile model profile' :
  buildModel fuel profile = Some (model, profile') →
  length (IProfileModel.samples model)
    = length (default [] (ICpuProfileRaw.samples profile)) ∧
  IProfileModel.timeDeltas model = default [] (ICpuProfileRaw.timeDeltas profile) ∧
  (is_Some (ICpuProfileRaw.samples profile) →
   is_Some (ICpuProfileRaw.timeDeltas profile) →
   ∀ i, (1 ≤ i < length (IProfileModel.timeDeltas model))%nat →
     ∃ sample, IProfileModel.samples model !! i = Some sample ∧
               is_Some (lookupZ (IProfileModel.nodes model) sample)).
Proof.
  intros Hrun.
  destruct (ICpuProfileRaw.samples profile) as [samples|] eqn:Hs;
    destruct (ICpuProfileRaw.timeDeltas profile) as [timeDeltas|] eqn:Htd.
  2-4: unfold buildModel in Hrun; rewrite Hs, Htd in Hrun;
       injection Hrun as <- <-; simpl;
       (split; [done|]); (split; [done|]); intros [? ?] [? ?]; done.
  destruct (buildModel_steps _ _ _ _ _ _ Hs Htd Hrun)
    as (locations & slots & locations1 & nodes & nodes1 & nodes2
        & _ & _ & _ & _ & Hsamples & Hroll & -> & -> & _).
  simpl. split; [by rewrite length_fmap|]. split; [done|].
  intros _ _ i Hi.
  pose proof (buildModel_node_count _ _ _ _ _ _ _ Hsamples Hroll) as Hcount.
  simpl in Hcount.
  apply (forM_Forall (λ ns, length ns = length nodes1)
           (λ i, ∃ sample, samples !! i = Some sample ∧
                           0 ≤ sample - 1 < Z.of_nat (length nodes1)))
    in Hsamples as [_ Hall]; [| |done].
  - rewrite Forall_forall in Hall.
    destruct (Hall i) as (sample & Hsample & Hrange).
    { apply elem_of_seq. lia. }
    exists (sample - 1). rewrite list_lookup_fmap, Hsample. split; [done|].
    apply lookupZ_is_Some. lia.
  - intros ns a ns' Hlen (sample & delta & Hsample & _ & Hrow & ->)%addSample_spec.
    rewrite length_alterZ. split; [done|].
    exists sample. split; [done|]. apply lookupZ_is_Some in Hrow. lia.
Qed.

End BuildModelProperties.

(** C5, at the aborted capture. *)
Lemma buildModel_soft_fail_witness :
  ICpuProfileRaw.samples abortedProfile = None ∧
  ∃ model,
    @buildModel plainPaths 0 abortedProfile = Some (model, abortedProfile) ∧
    IProfileModel.nodes model = [] ∧
    IProfileModel.locations model = [] ∧
    IProfileModel.duration model = 60 ∧
    IProfileModel.rootPath model = Some "/work".
Proof.
  split; [reflexivity|].
  apply (@buildModel_soft_fail plainPaths 0 abortedProfile). left. reflexivity.
Defined.

(** C1 as stated fails on the scenario of the specification: the three
    deltas sum to 15, the self times to 10, and the node with raw id 3 ends
    with self time 5, because [deltas[2]] is never added. *)
Lemma buildModel_selfTime_sum_counterexample :
  ∃ model profile',
    @buildModel plainPaths 10 scenarioProfile = Some (model, profile') ∧
    sumZ (IComputedNode.selfTime <$> IProfileModel.nodes model) ≠ sumZ [5; 5; 5] ∧
    IComputedNode.selfTime <$> lookupZ (IProfileModel.nodes model) 2 = Some 5 ∧
    IComputedNode.selfTime <$> lookupZ (IProfileModel.nodes model) 2 ≠ Some 10.
Proof.
  eexists _, _. split; [vm_compute; reflexivity|].
  split; [by vm_compute|]. split; [reflexivity|by vm_compute].
Qed.

(** C1 (amended), at the scenario: [deltas[0]] goes to the node at
    [samples[1]] and [deltas[1]] to the node at [samples[2]], so the node
    with raw id 3, at index 2, ends with self time 5. *)
Lemma buildModel_selfTime_total_witness :
  ∃ model profile' node,
    ICpuProfileRaw.samples scenarioProfile = Some [1; 2; 3; 3] ∧
    ICpuProfileRaw.timeDeltas scenarioProfile = Some [5; 5; 5] ∧
    @buildModel plainPaths 10 scenarioProfile = Some (model, profile') ∧
    (sumZ (IComputedNode.selfTime <$> IProfileModel.nodes model) = sumZ [5; 5] ∧
     ∀ j node, lookupZ (IProfileModel.nodes model) j = Some node →
       IComputedNode.selfTime node = creditedTime [1; 2; 3; 3] [5; 5; 5] j) ∧
    creditedTime [1; 2; 3; 3] [5; 5; 5] 0 = 0 ∧
    creditedTime [1; 2; 3; 3] [5; 5; 5] 1 = 5 ∧
    creditedTime [1; 2; 3; 3] [5; 5; 5] 2 = 5 ∧
    lookupZ (IProfileModel.nodes model) 2 = Some node ∧
    IComputedNode.id node = 2 ∧
    IComputedNode.selfTime node = 5.
Proof.
  eexists _, _, _. split; [reflexivity|]. split; [reflexivity|].
  split; [vm_compute; reflexivity|]. split.
  - eapply (@buildModel_selfTime_total plainPaths 10 scenarioProfile [1; 2; 3; 3] [5; 5; 5]);
      [reflexivity|reflexivity|].
    vm_compute. reflexivity.
  - repeat (split; [vm_compute; reflexivity|]). vm_compute. reflexivity.
Defined.

(** C4 as stated fails on the soft-fail branch: the aborted capture
    yields a model with no samples and no deltas, and 0 is not 0 + 1. *)
Lemma buildModel_samples_invariant_counterexample :
  ∃ model profile',
    @buildModel plainPaths 0 abortedProfile = Some (model, profile') ∧
    length (IProfileModel.samples model)
      ≠ (length (IProfileModel.timeDeltas model) + 1)%nat.
Proof. eexists _, _. split; [reflexivity|]. by vm_compute. Qed.

(** C4 (amended), at the scenario. *)
Lemma buildModel_samples_shape_witness :
  ∃ model profile',
    @buildModel plainPaths 10 scenarioProfile = Some (model, profile') ∧
    (length (IProfileModel.samples model)
       = length (default [] (ICpuProfileRaw.samples scenarioProfile)) ∧
     IProfileModel.timeDeltas model
       = default [] (ICpuProfileRaw.timeDeltas scenarioProfile) ∧
     (is_Some (ICpuProfileRaw.samples scenarioProfile) →
      is_Some (ICpuProfileRaw.timeDeltas scenarioProfile) →
      ∀ i, (1 ≤ i < length (IProfileModel.timeDeltas model))%nat →
        ∃ sample, IProfileModel.samples model !! i = Some sample ∧
                  is_Some (lookupZ (IProfileModel.nodes model) sample))).
Proof.
  eexists _, _. split; [vm_compute; reflexivity|].
  eapply (@buildModel_samples_shape plainPaths 10 scenarioProfile).
  vm_compute. reflexivity.
Defined.

(** *** The raw profile after buildModel *)

Section ProfileFrame.
Context `{PathUtils}.

Lemma nodeView_site n n' :
  nodeView n' = nodeView n →
  frameSite (RawNode.callFrame n') = frameSite (RawNode.callFrame n).
Proof. intros Heq. exact (f_equal snd Heq). Qed.

Lemma annotationView_site l l' :
  annotationView l' = annotationView l →
  frameSite (IAnnotationLocation.callFrame l') = frameSite (IAnnotationLocation.callFrame l).
Proof. intros Heq. exact (f_equal fst Heq). Qed.

Lemma annotateNode_view k node tbl :
  nodeView (fst (annotateNode k node tbl)) = nodeView node.
Proof.
  unfold annotateNode.
  destruct (getLocationIdFor _ _ tbl) as [locId tbl1].
  destruct (RawNode.positionTicks node) as [ticks|]; [|done].
  by destruct (annotateTicks _ ticks tbl1).
Qed.

Lemma annotateNodes_view nodes : ∀ k tbl,
  nodeView <$> fst (annotateNodes k nodes tbl) = nodeView <$> nodes.
Proof.
  induction nodes as [|node nodes IH]; intros k tbl; [done|].
  cbn [annotateNodes].
  pose proof (annotateNode_view k node tbl) as Hnode.
  destruct (annotateNode k node tbl) as [node' tbl1].
  specialize (IH (S k) tbl1).
  destruct (annotateNodes (S k) nodes tbl1) as [rest' tbl2].
  cbn [fst snd] in *. by rewrite !fmap_cons, Hnode, IH.
Qed.

Lemma getLocationIdFor_agrees all callFrame owner tbl :
  tableAgrees all tbl →
  match owner with
  | OwnedByNode k => ∃ n, all !! k = Some n ∧ RawNode.callFrame n = callFrame
  | OwnedByAnnotation _ => False
  | Detached => True
  end →
  tableAgrees all (snd (getLocationIdFor callFrame owner tbl)).
Proof.
  intros Htbl Howner. unfold getLocationIdFor.
  destruct (mapGet _ _); [done|]. simpl.
  apply Forall_app. split; [done|]. by constructor.
Qed.

Lemma annotateTicks_agrees all callFrame ticks : ∀ tbl,
  tableAgrees all tbl → tableAgrees all (snd (annotateTicks callFrame ticks tbl)).
Proof.
  induction ticks as [|tick ticks IH]; intros tbl Htbl; simpl; [done|].
  unfold annotateTick.
  pose proof (getLocationIdFor_agrees all
                (CallFrame.withPosition (PositionTick.line tick - 1) 0 callFrame)
                Detached tbl Htbl I) as H1.
  destruct (getLocationIdFor _ Detached tbl) as [startId tbl1].
  pose proof (getLocationIdFor_agrees all
                (CallFrame.withPosition (PositionTick.line tick) 0 callFrame)
                Detached tbl1 H1 I) as H2.
  destruct (getLocationIdFor _ Detached tbl1) as [endId tbl2].
  specialize (IH tbl2 H2). by destruct (annotateTicks callFrame ticks tbl2).
Qed.

Lemma annotateNodes_agrees all nodes : ∀ k tbl,
  (∀ j n, nodes !! j = Some n → all !! (k + j)%nat = Some n) →
  tableAgrees all tbl → tableAgrees all (snd (annotateNodes k nodes tbl)).
Proof.
  induction nodes as [|node nodes IH]; intros k tbl Hall Htbl; simpl; [done|].
  unfold annotateNode.
  pose proof (getLocationIdFor_agrees all (RawNode.callFrame node) (OwnedByNode k) tbl Htbl)
    as H1.
  destruct (getLocationIdFor _ (OwnedByNode k) tbl) as [locId tbl1]. simpl in H1.
  assert (Htbl1 : tableAgrees all tbl1).
  { apply H1. exists node. split; [|done]. rewrite <- (Hall 0%nat node); [|done].
    f_equal. lia. }
  assert (Htbl2 : tableAgrees all
            (snd (match RawNode.positionTicks node with
                  | Some ticks =>
                      let '(ticks', tbl2) :=
                        annotateTicks (RawNode.callFrame node) ticks tbl1 in
                      (Some ticks', tbl2)
                  | None => (None, tbl1)
                  end))).
  { destruct (RawNode.positionTicks node) as [ticks|]; [|done].
    pose proof (annotateTicks_agrees all (RawNode.callFrame node) ticks tbl1 Htbl1).
    by destruct (annotateTicks _ ticks tbl1). }
  destruct (match RawNode.positionTicks node with Some _ => _ | None => _ end)
    as [ticks' tbl2].
  simpl in Htbl2.
  specialize (IH (S k) tbl2).
  destruct (annotateNodes (S k) nodes tbl2) as [rest' tbl3]. simpl in *.
  apply IH; [|done]. intros j n Hj. rewrite <- (Hall (S j) n Hj). f_equal. lia.
Qed.

Lemma insertById_Forall (P : LocationEntry.t → Prop) e sorted :
  P e → Forall P sorted → Forall P (insertById e sorted).
Proof.
  intros He. induction 1 as [|e' sorted He' Hsorted IH]; simpl.
  - by constructor.
  - case_decide; repeat constructor; done.
Qed.

Lemma sortById_Forall (P : LocationEntry.t → Prop) l : Forall P l → Forall P (sortById l).
Proof.
  unfold sortById. assert (Hnil : Forall P []) by constructor. revert Hnil.
  generalize (@nil LocationEntry.t).
  induction l as [|e l IH]; intros acc Hacc Hl; simpl; [done|].
  apply Forall_cons in Hl as [He Hl]. apply IH; [|done]. by apply insertById_Forall.
Qed.

(** After [ensureSourceLocations] the profile has the same view, and the
    owner recorded with each call frame agrees with it. *)
Lemma ensureSourceLocations_frame profile :
  profileView (snd (ensureSourceLocations profile)) = profileView profile ∧
  Forall (λ lo, ownerAgrees (snd (ensureSourceLocations profile))
                  (IAnnotationLocation.callFrame (fst lo)) (snd lo))
    (fst (ensureSourceLocations profile)).
Proof.
  unfold ensureSourceLocations.
  destruct (ICpuProfileRaw.vscode profile) as [v|] eqn:Hv; simpl.
  - split; [done|]. apply Forall_lookup. intros i [l owner] Hi.
    rewrite list_lookup_imap in Hi.
    destruct (Vscode.locations v !! i) as [l0|] eqn:Hl0; simpl in Hi; [|done].
    injection Hi as <- <-. simpl. intros v' l' Hv' Hl'.
    rewrite Hv in Hv'. injection Hv' as <-. rewrite Hl0 in Hl'. by injection Hl' as <-.
  - pose proof (annotateNodes_view (ICpuProfileRaw.nodes profile) 0 LocationTable.empty)
      as Hview.
    pose proof (annotateNodes_agrees (ICpuProfileRaw.nodes profile)
                  (ICpuProfileRaw.nodes profile) 0 LocationTable.empty) as Hagree.
    destruct (annotateNodes 0 _ LocationTable.empty) as [nodes' tbl]. simpl in *.
    split.
    { unfold profileView. simpl. by rewrite Hview, Hv. }
    apply Forall_fmap. apply sortById_Forall. apply Forall_fmap.
    eapply Forall_impl; [apply Hagree; [done|by constructor]|].
    intros [key e] He. simpl in *. unfold entryAgrees in He.
    destruct (LocationEntry.owner e) as [i|k|]; simpl; [done| |done].
    destruct He as (n & Hn & Hframe). intros n' Hn'.
    assert (Hsame : nodeView <$> nodes' !! k = nodeView <$> ICpuProfileRaw.nodes profile !! k)
      by (by rewrite <- !list_lookup_fmap, Hview).
    rewrite Hn, Hn' in Hsame. apply (inj Some) in Hsame.
    by rewrite (nodeView_site _ _ Hsame), Hframe.
Qed.

Lemma categorize_site callFrame src :
  frameSite (fst (categorize callFrame src)) = frameSite callFrame.
Proof.
  unfold categorize. case_decide; [done|].
  by destruct (_ || _).
Qed.

Lemma writeBackFrame_view owner c profile :
  ownerAgrees profile c owner →
  profileView (writeBackFrame owner c profile) = profileView profile.
Proof.
  intros Hagree. destruct owner as [i|k|]; simpl in *; [| |done].
  - destruct (ICpuProfileRaw.vscode profile) as [v|] eqn:Hv;
      [|by (unfold profileView; simpl; rewrite Hv)].
    unfold profileView. simpl. rewrite Hv. simpl. do 2 f_equal. unfold vscodeView. simpl.
    f_equal. apply list_eq. intros j. rewrite !list_lookup_fmap.
    destruct (decide (i = j)) as [<-|Hne].
    + rewrite list_lookup_alter_eq.
      destruct (Vscode.locations v !! i) as [l|] eqn:Hl; simpl; [|done].
      unfold annotationView. simpl. by rewrite (Hagree v l).
    + by rewrite list_lookup_alter_ne.
  - unfold profileView. simpl. do 2 f_equal.
    apply list_eq. intros j. rewrite !list_lookup_fmap.
    destruct (decide (k = j)) as [<-|Hne].
    + rewrite list_lookup_alter_eq.
      destruct (ICpuProfileRaw.nodes profile !! k) as [n|] eqn:Hn; simpl; [|done].
      unfold nodeView. simpl. by rewrite (Hagree n).
    + by rewrite list_lookup_alter_ne.
Qed.

(** [ownerAgrees] only looks at the view of the profile. *)
Lemma ownerAgrees_view p p' c owner :
  profileView p' = profileView p → ownerAgrees p c owner → ownerAgrees p' c owner.
Proof.
  intros Hview Hagree. unfold profileView in Hview.
  injection Hview as _ _ _ _ Hnodes Hvscode.
  destruct owner as [i|k|]; simpl in *; [| |done].
  - intros v' l' Hv' Hl'. rewrite Hv' in Hvscode.
    destruct (ICpuProfileRaw.vscode p) as [v|]; [|done]. simpl in Hvscode.
    injection Hvscode as _ Hlocs.
    assert (Hl : annotationView <$> Vscode.locations v !! i = Some (annotationView l'))
      by (by rewrite <- list_lookup_fmap, <- Hlocs, list_lookup_fmap, Hl').
    destruct (Vscode.locations v !! i) as [l|] eqn:Hli; [|done].
    apply (inj Some) in Hl. rewrite <- (annotationView_site _ _ Hl). by eapply Hagree.
  - intros n' Hn'.
    assert (Hn : nodeView <$> ICpuProfileRaw.nodes p !! k = Some (nodeView n'))
      by (by rewrite <- list_lookup_fmap, <- Hnodes, list_lookup_fmap, Hn').
    destruct (ICpuProfileRaw.nodes p !! k) as [n|] eqn:Hnk; [|done].
    apply (inj Some) in Hn. rewrite <- (nodeView_site _ _ Hn). by eapply Hagree.
Qed.

Lemma buildLocations_view sourceLocations : ∀ id profile,
  Forall (λ lo, ownerAgrees profile (IAnnotationLocation.callFrame (fst lo)) (snd lo))
    sourceLocations →
  profileView (snd (buildLocations id sourceLocations profile)) = profileView profile.
Proof.
  induction sourceLocations as [|[l owner] rest IH]; intros id profile Hall; simpl; [done|].
  apply Forall_cons in Hall as [Hhead Hrest]. simpl in Hhead.
  pose proof (categorize_site (IAnnotationLocation.callFrame l)
                (getBestLocation profile (Some (IAnnotationLocation.locations l)))) as Hsite.
  destruct (categorize _ _) as [callFrame category]. simpl in Hsite.
  assert (Hview : profileView (writeBackFrame owner callFrame profile) = profileView profile).
  { apply writeBackFrame_view. destruct owner; simpl in *; [| |done].
    - intros v l' Hv Hl'. rewrite Hsite. by eapply Hhead.
    - intros n Hn. rewrite Hsite. by eapply Hhead. }
  specialize (IH (id + 1) (writeBackFrame owner callFrame profile)).
  destruct (buildLocations (id + 1) rest _) as [locations profile2]. simpl in *.
  rewrite IH; [done|].
  eapply Forall_impl; [exact Hrest|]. intros [l' owner'] Hl'. simpl in *.
  by eapply ownerAgrees_view.
Qed.


End ProfileFrame.



(** *** Aggregate times *)

Lemma extends_refl nodes : extends nodes nodes.
Proof. intros j row Hj. by exists row. Qed.

Lemma extends_trans nodes1 nodes2 nodes3 :
  extends nodes1 nodes2 → extends nodes2 nodes3 → extends nodes1 nodes3.
Proof.
  intros H12 H23 j row Hj.
  destruct (H12 j row Hj) as (row2 & Hj2 & Hs2 & Hc2 & Ha2).
  destruct (H23 j row2 Hj2) as (row3 & Hj3 & Hs3 & Hc3 & Ha3).
  exists row3. repeat split; [done|congruence|congruence|].
  intros Hne. specialize (Ha2 Hne). subst row2. by apply Ha3.
Qed.

Lemma sumZ_ext {A} (f g : A → Z) (l : list A) :
  (∀ a, a ∈ l → f a = g a) → sumZ (f <$> l) = sumZ (g <$> l).
Proof.
  induction l as [|a l IH]; intros Hfg; [done|].
  rewrite !fmap_cons, !sumZ_cons, IH, (Hfg a); [done|by left|].
  intros b Hb. apply Hfg. by right.
Qed.

Lemma alterZ_id_at {A} (f : A → A) (i : Z) (l : list A) :
  (∀ a, lookupZ l i = Some a → f a = a) → alterZ f i l = l.
Proof.
  intros Hf. unfold alterZ. case_decide as Hi; [|done].
  apply list_eq. intros j. destruct (decide (Z.to_nat i = j)) as [<-|Hne].
  - rewrite list_lookup_alter_eq. destruct (l !! Z.to_nat i) as [a|] eqn:Ha; [|done].
    simpl. f_equal. apply Hf. by apply lookupZ_Some.
  - by apply list_lookup_alter_ne.
Qed.

Lemma settled_transfer nodes nodes' :
  (∀ k, settled nodes k → lookupZ nodes' k = lookupZ nodes k) →
  ∀ j, settled nodes j → settled nodes' j.
Proof.
  intros Hsame j Hj. induction Hj as [i row Hrow Heq Hchildren IH].
  apply (settled_node nodes' i row).
  - rewrite Hsame; [done|]. by apply (settled_node nodes i row).
  - rewrite Heq. f_equal. apply sumZ_ext. intros c Hc.
    unfold aggregateOf. by rewrite Hsame; [|apply Hchildren].
  - done.
Qed.

(** The assignment [row.aggregateTime = total] once the children are
    done. *)
Lemma setAggregateTime_settled nodes i row total :
  lookupZ nodes i = Some row →
  total = IComputedNode.selfTime row
          + sumZ (aggregateOf nodes <$> IComputedNode.children row) →
  (∀ c, c ∈ IComputedNode.children row → settled nodes c) →
  (∀ j, settled nodes j →
        lookupZ (alterZ (IComputedNode.setAggregateTime total) i nodes) j = lookupZ nodes j) ∧
  settled (alterZ (IComputedNode.setAggregateTime total) i nodes) i.
Proof.
  intros Hrow Htotal Hchildren.
  destruct (decide (IComputedNode.aggregateTime row = total)) as [Hsame|Hdiff].
  - rewrite alterZ_id_at.
    + split; [done|]. apply (settled_node nodes i row); [done|congruence|done].
    + intros a Ha. rewrite Hrow in Ha. injection Ha as <-.
      destruct row. simpl in *. by subst.
  - assert (Hnot : ¬ settled nodes i).
    { intros Hi. inversion Hi as [i' row' Hrow' Heq _]. subst i'.
      rewrite Hrow in Hrow'. injection Hrow' as <-. congruence. }
    assert (Hother : ∀ j, settled nodes j →
              lookupZ (alterZ (IComputedNode.setAggregateTime total) i nodes) j
              = lookupZ nodes j).
    { intros j Hj. rewrite lookupZ_alterZ. case_decide; [|done]. by subst. }
    split; [done|].
    apply (settled_node _ i (IComputedNode.setAggregateTime total row)).
    + rewrite lookupZ_alterZ. case_decide; [|done]. by rewrite Hrow.
    + simpl. etrans; [exact Htotal|]. f_equal. apply sumZ_ext. intros c Hc.
      unfold aggregateOf. by rewrite Hother; [|apply Hchildren].
    + intros c Hc. apply (settled_transfer nodes); [done|]. by apply Hchildren.
Qed.

Lemma frame_lookup nodes nodes' j row :
  IComputedNode.selfTime <$> nodes' = IComputedNode.selfTime <$> nodes →
  IComputedNode.children <$> nodes' = IComputedNode.children <$> nodes →
  lookupZ nodes j = Some row →
  ∃ row', lookupZ nodes' j = Some row' ∧
          IComputedNode.selfTime row' = IComputedNode.selfTime row ∧
          IComputedNode.children row' = IComputedNode.children row.
Proof.
  intros Hself Hchildren Hj. apply lookupZ_Some in Hj as [Hpos Hj].
  assert (Hs : (IComputedNode.selfTime <$> nodes') !! Z.to_nat j
               = Some (IComputedNode.selfTime row))
    by (by rewrite Hself, list_lookup_fmap, Hj).
  assert (Hc : (IComputedNode.children <$> nodes') !! Z.to_nat j
               = Some (IComputedNode.children row))
    by (by rewrite Hchildren, list_lookup_fmap, Hj).
  rewrite list_lookup_fmap in Hs. rewrite list_lookup_fmap in Hc.
  destruct (nodes' !! Z.to_nat j) as [row'|] eqn:Hj'; [|done].
  exists row'. split; [by apply lookupZ_Some|]. simpl in *. split; congruence.
Qed.

Lemma quick_transfer h : ∀ nodes nodes' j,
  extends nodes nodes' → quick h nodes j → quick h nodes' j.
Proof.
  induction h as [|h IH]; intros nodes nodes' j Hext Hj; [done|].
  destruct Hj as (row & Hrow & Hcase).
  destruct (Hext j row Hrow) as (row' & Hrow' & _ & Hchildren & Hcached).
  exists row'. split; [done|]. destruct Hcase as [Hne|Hall].
  - left. by rewrite (Hcached Hne).
  - right. rewrite Hchildren. eapply Forall_impl; [exact Hall|].
    intros c Hc. by eapply IH.
Qed.

Lemma quick_mono h h' nodes j : (h ≤ h')%nat → quick h nodes j → quick h' nodes j.
Proof.
  revert h' j. induction h as [|h IH]; intros h' j Hle Hj; [done|].
  destruct h' as [|h']; [lia|].
  destruct Hj as (row & Hrow & Hcase). exists row. split; [done|].
  destruct Hcase as [Hne|Hall]; [by left|right].
  eapply Forall_impl; [exact Hall|]. intros c Hc. apply IH; [lia|done].
Qed.

Lemma sumChildren_computed fuel children :
  (∀ index nodes v nodes',
     cachedSettled nodes → computeAggregateTime fuel index nodes = Some (v, nodes') →
     computed fuel index v nodes nodes') →
  ∀ total nodes total' nodes',
    cachedSettled nodes →
    sumChildren (computeAggregateTime fuel) children total nodes = Some (total', nodes') →
    (∀ j, settled nodes j → lookupZ nodes' j = lookupZ nodes j) ∧
    (∀ c, c ∈ children → settled nodes' c) ∧
    total' = total + sumZ (aggregateOf nodes' <$> children) ∧
    cachedSettled nodes' ∧
    extends nodes nodes' ∧
    Forall (quick fuel nodes') children.
Proof.
  intros Hrec. induction children as [|c cs IH]; intros total nodes total' nodes' Hinv Hrun;
    simpl in Hrun.
  - injection Hrun as <- <-. repeat split; try done.
    + intros c Hc. by apply elem_of_nil in Hc.
    + rewrite fmap_nil. unfold sumZ. simpl. lia.
    + apply extends_refl.
  - destruct (computeAggregateTime fuel c nodes) as [[v nodes1]|] eqn:Hc; simpl in Hrun;
      [|done].
    destruct (Hrec _ _ _ _ Hinv Hc) as (Hsame1 & Hsettled1 & Hv & Hinv1 & Hext1 & Hquick1).
    destruct (IH _ _ _ _ Hinv1 Hrun) as (Hsame2 & Hsettled2 & Htotal & Hinv2 & Hext2 & Hquick2).
    assert (Htransfer : ∀ j, settled nodes1 j → settled nodes' j)
      by (by apply settled_transfer).
    repeat split.
    + intros j Hj. rewrite Hsame2; [by apply Hsame1|].
      by apply (settled_transfer nodes).
    + intros c' [->|Hc']%elem_of_cons; [by apply Htransfer|by apply Hsettled2].
    + rewrite Htotal, fmap_cons, sumZ_cons.
      assert (aggregateOf nodes' c = v) as ->; [|lia].
      unfold aggregateOf in *. by rewrite Hsame2.
    + done.
    + by eapply extends_trans.
    + constructor; [|done]. by eapply quick_transfer.
Qed.

Lemma computeAggregateTime_computed fuel : ∀ index nodes v nodes',
  cachedSettled nodes → computeAggregateTime fuel index nodes = Some (v, nodes') →
  computed fuel index v nodes nodes'.
Proof.
  induction fuel as [|fuel IH]; intros index nodes v nodes' Hinv Hrun; [done|].
  pose proof (computeAggregateTime_frame _ _ _ _ _ Hrun) as [Hself Hchildren].
  simpl in Hrun.
  destruct (lookupZ nodes index) as [row|] eqn:Hrow; simpl in Hrun; [|done].
  case_decide as Hcached.
  { injection Hrun as <- <-. repeat split; try done.
    - by eapply Hinv.
    - unfold aggregateOf. by rewrite Hrow.
    - apply extends_refl.
    - exists row. split; [done|by left]. }
  destruct (sumChildren _ _ _ _) as [[total nodes1]|] eqn:Hsum; simpl in Hrun; [|done].
  injection Hrun as <- <-.
  destruct (sumChildren_computed fuel _ IH _ _ _ _ Hinv Hsum)
    as (Hsame1 & Hsettled1 & Htotal & Hinv1 & Hext1 & Hquick1).
  destruct (Hext1 index row Hrow) as (row1 & Hrow1 & Hself1 & Hchildren1 & _).
  destruct (setAggregateTime_settled nodes1 index row1 total Hrow1) as [Hsame2 Hsettled2].
  { by rewrite Hself1, Hchildren1. }
  { by rewrite Hchildren1. }
  assert (Hlook : lookupZ (alterZ (IComputedNode.setAggregateTime total) index nodes1) index
                  = Some (IComputedNode.setAggregateTime total row1)).
  { rewrite lookupZ_alterZ. case_decide; [|done]. by rewrite Hrow1. }
  assert (Hinv2 : cachedSettled (alterZ (IComputedNode.setAggregateTime total) index nodes1)).
  { intros j rowj Hj Hne. destruct (decide (index = j)) as [<-|Hij]; [done|].
    rewrite lookupZ_alterZ in Hj. case_decide; [done|].
    apply (settled_transfer nodes1); [done|]. by eapply Hinv1. }
  assert (Hext2 : extends nodes1 (alterZ (IComputedNode.setAggregateTime total) index nodes1)).
  { intros j rowj Hj. destruct (decide (index = j)) as [<-|Hij].
    - rewrite Hrow1 in Hj. injection Hj as <-.
      exists (IComputedNode.setAggregateTime total row1). repeat split; [done|].
      intros Hne. pose proof (Hsame2 index (Hinv1 _ _ Hrow1 Hne)) as Heq.
      rewrite Hlook, Hrow1 in Heq. by apply (inj Some).
    - exists rowj. rewrite lookupZ_alterZ. case_decide; done. }
  repeat split.
  - intros j Hj. rewrite Hsame2; [by apply Hsame1|]. by apply (settled_transfer nodes).
  - done.
  - unfold aggregateOf. by rewrite Hlook.
  - done.
  - by eapply extends_trans.
  - exists (IComputedNode.setAggregateTime total row1). split; [done|]. right. simpl.
    rewrite Hchildren1. eapply Forall_impl; [exact Hquick1|].
    intros c Hc. by eapply quick_transfer.
Qed.

(** Calling [computeAggregateTime] again on a settled node returns the
    stored time and leaves the nodes as they are. *)
Lemma computeAggregateTime_again fuel : ∀ index nodes,
  settled nodes index → quick fuel nodes index →
  computeAggregateTime fuel index nodes = Some (aggregateOf nodes index, nodes).
Proof.
  induction fuel as [|fuel IH]; intros index nodes Hsettled Hquick; [done|].
  destruct Hquick as (row & Hrow & Hcase). simpl. rewrite Hrow. simpl.
  unfold aggregateOf at 1. rewrite Hrow. simpl.
  case_decide as Hcached; [done|].
  destruct Hcase as [Hne|Hall]; [done|].
  inversion Hsettled as [i' row' Hrow' Heq Hchildren]. subst i'.
  rewrite Hrow in Hrow'. injection Hrow' as <-.
  assert (Hsum : ∀ cs total,
            (∀ c, c ∈ cs → settled nodes c) → Forall (quick fuel nodes) cs →
            sumChildren (computeAggregateTime fuel) cs total nodes
            = Some (total + sumZ (aggregateOf nodes <$> cs), nodes)).
  { induction cs as [|c cs IHcs]; intros total Hcs Hqs.
    - cbn [sumChildren]. rewrite fmap_nil. unfold sumZ. simpl. do 2 f_equal. lia.
    - apply Forall_cons in Hqs as [Hq Hqs]. cbn [sumChildren].
      rewrite IH; [|apply Hcs; by left|done]. cbn [mbind option_bind].
      rewrite IHcs; [|intros c' Hc'; apply Hcs; by right|done].
      rewrite fmap_cons, sumZ_cons. do 2 f_equal. lia. }
  rewrite Hsum; [|done|done]. simpl. rewrite <- Heq. f_equal. f_equal.
  apply alterZ_id_at. intros a Ha. rewrite Hrow in Ha. injection Ha as <-.
  by destruct row.
Qed.

Lemma rollUp_computed fuel st i st' :
  cachedSettled (fst st) → rollUp fuel st i = Some st' →
  ∃ v, computed fuel (Z.of_nat i) v (fst st) (fst st').
Proof.
  intros Hinv Hrun. unfold rollUp in Hrun.
  destruct (fst st !! i) as [node|]; simpl in Hrun; [|done].
  destruct (lookupZ (snd st) _) as [location|]; simpl in Hrun; [|done].
  destruct (computeAggregateTime fuel _ _) as [[aggregate nodes']|] eqn:Hc; simpl in Hrun;
    [|done].
  injection Hrun as <-. exists aggregate. by apply computeAggregateTime_computed.
Qed.

(** Step 3 settles every index it goes through. *)
Lemma rolledUp_settled fuel l : ∀ st st',
  cachedSettled (fst st) → forM (rollUp fuel) l st = Some st' →
  cachedSettled (fst st') ∧
  extends (fst st) (fst st') ∧
  (∀ j, settled (fst st) j → settled (fst st') j) ∧
  Forall (λ i, settled (fst st') (Z.of_nat i) ∧ quick fuel (fst st') (Z.of_nat i)) l.
Proof.
  induction l as [|i l IH]; intros st st' Hinv Hrun.
  - injection Hrun as <-. repeat split; [done|apply extends_refl|done|constructor].
  - rewrite forM_cons in Hrun.
    destruct (rollUp fuel st i) as [st1|] eqn:Hstep; simpl in Hrun; [|done].
    destruct (rollUp_computed _ _ _ _ Hinv Hstep)
      as (v & Hsame1 & Hsettled1 & _ & Hinv1 & Hext1 & Hquick1).
    destruct (IH _ _ Hinv1 Hrun) as (Hinv2 & Hext2 & Hkeep2 & Hall).
    repeat split; [done|by eapply extends_trans| |].
    + intros j Hj. apply Hkeep2. by apply (settled_transfer (fst st)).
    + constructor; [|done]. split; [by apply Hkeep2|by eapply quick_transfer].
Qed.

Lemma settled_inv nodes i row :
  settled nodes i → lookupZ nodes i = Some row →
  IComputedNode.aggregateTime row
    = IComputedNode.selfTime row + sumZ (aggregateOf nodes <$> IComputedNode.children row) ∧
  ∀ c, c ∈ IComputedNode.children row → settled nodes c.
Proof.
  intros Hi Hrow. inversion Hi as [i' row' Hrow' Heq Hchildren]. subst i'.
  rewrite Hrow in Hrow'. by injection Hrow' as <-.
Qed.

Lemma settled_is_Some nodes i : settled nodes i → is_Some (lookupZ nodes i).
Proof. intros Hi. inversion Hi as [i' row Hrow _ _]. by exists row. Qed.

Section AggregateTime.
Context `{PathUtils}.

(** C3. In a model returned by [buildModel], every node's
    [aggregateTime] is its [selfTime] plus the sum of the [aggregateTime]
    of its children (all of which are nodes of the model), and calling
    [computeAggregateTime] on it again returns the stored value and leaves
    the nodes unchanged. *)
Theorem buildModel_aggregateTime fuel profile model profile' :
  buildModel fuel profile = Some (model, profile') →
  ∀ i row, lookupZ (IProfileModel.nodes model) i = Some row →
    Forall (λ c, is_Some (lookupZ (IProfileModel.nodes model) c))
      (IComputedNode.children row) ∧
    IComputedNode.aggregateTime row
      = IComputedNode.selfTime row
        + sumZ (aggregateOf (IProfileModel.nodes model) <$> IComputedNode.children row) ∧
    computeAggregateTime fuel i (IProfileModel.nodes model)
      = Some (IComputedNode.aggregateTime row, IProfileModel.nodes model).
Proof.
  intros Hrun i row Hrow.
  destruct (ICpuProfileRaw.samples profile) as [samples|] eqn:Hs;
    destruct (ICpuProfileRaw.timeDeltas profile) as [timeDeltas|] eqn:Htd.
  2-4: unfold buildModel in Hrun; rewrite Hs, Htd in Hrun; injection Hrun as <- <-;
       simpl in Hrow; unfold lookupZ in Hrow; case_decide; done.
  destruct (buildModel_steps _ _ _ _ _ _ Hs Htd Hrun)
    as (locations & slots & locations1 & nodes & nodes1 & nodes2
        & _ & Hplace & Hslots & Hlink & Hsamples & Hroll & _).
  destruct (linked_nodes_fresh _ _ _ _ _ _ Hplace Hslots Hlink) as [_ Hzero].
  pose proof (buildModel_node_count _ _ _ _ _ _ _ Hsamples Hroll) as Hcount.
  apply addSamples_sum in Hsamples as (_ & Hagg & Hchildren); [|lia].
  assert (Hinv : cachedSettled nodes2).
  { intros j rowj Hj Hne. exfalso. apply Hne.
    apply lookupZ_Some in Hj as [_ Hj]. rewrite <- Hagg in Hzero.
    rewrite Forall_fmap, Forall_lookup in Hzero. by apply (Hzero _ _ Hj). }
  destruct (rolledUp_settled fuel _ (nodes2, locations1) _ Hinv Hroll) as (_ & _ & _ & Hall).
  simpl in *.
  rewrite Forall_forall in Hall.
  destruct (Hall (Z.to_nat i)) as [Hsettled Hquick].
  { apply elem_of_seq. apply lookupZ_lt in Hrow.
    rewrite <- (length_fmap IComputedNode.children nodes2), Hchildren, length_fmap. lia. }
  rewrite Z2Nat.id in Hsettled, Hquick by (apply lookupZ_lt in Hrow; lia).
  destruct (settled_inv _ _ _ Hsettled Hrow) as [Heq Hkids].
  split; [|split; [done|]].
  - apply Forall_forall. intros c Hc. by apply settled_is_Some, Hkids.
  - rewrite (computeAggregateTime_again fuel i _ Hsettled Hquick).
    unfold aggregateOf. by rewrite Hrow.
Qed.

End AggregateTime.

(** C3, at the root node of the scenario. *)
Lemma buildModel_aggregateTime_witness :
  ∃ model profile' row,
    @buildModel plainPaths 10 scenarioProfile = Some (model, profile') ∧
    lookupZ (IProfileModel.nodes model) 0 = Some row ∧
    Forall (λ c, is_Some (lookupZ (IProfileModel.nodes model) c))
      (IComputedNode.children row) ∧
    IComputedNode.aggregateTime row
      = IComputedNode.selfTime row
        + sumZ (aggregateOf (IProfileModel.nodes model) <$> IComputedNode.children row) ∧
    computeAggregateTime 10 0 (IProfileModel.nodes model)
      = Some (IComputedNode.aggregateTime row, IProfileModel.nodes model).
Proof.
  eexists _, _, _. split; [vm_compute; reflexivity|]. split; [reflexivity|].
  eapply (@buildModel_aggregateTime plainPaths 10 scenarioProfile);
    [vm_compute; reflexivity|reflexivity].
Defined.

(** *** The bottom-up graph *)

Lemma wellRooted_alter (f : BottomUpNode.t → BottomUpNode.t) a store :
  (∀ b, BottomUpNode.parent (f b) = BottomUpNode.parent b) →
  wellRooted store → wellRooted (alter f a store).
Proof.
  intros Hf [(root & Hroot & Hnone) Hrest]. split.
  - destruct (decide (a = 0%nat)) as [->|Hne].
    + exists (f root). rewrite list_lookup_alter_eq, Hroot. split; [done|].
      by rewrite Hf.
    + exists root. by rewrite list_lookup_alter_ne.
  - intros a' b Hpos Hb. destruct (decide (a = a')) as [->|Hne].
    + rewrite list_lookup_alter_eq in Hb.
      destruct (store !! a') as [b0|] eqn:Hb0; [|done]. injection Hb as <-.
      rewrite Hf. by eapply Hrest.
    + rewrite list_lookup_alter_ne in Hb by done. by eapply Hrest.
Qed.

(** [addNode] reaches the root exactly once. *)
Lemma addNode_root fuel : ∀ this node store store',
  wellRooted store →
  addNode fuel this node store = Some store' →
  wellRooted store' ∧
  rootAggregateTime store'
    = rootAggregateTime store + IComputedNode.aggregateTime node ∧
  rootSelfTime store' = rootSelfTime store + IComputedNode.selfTime node.
Proof.
  induction fuel as [|fuel IH]; intros this node store store' Hwf Hrun; [done|].
  simpl in Hrun. destruct (store !! this) as [self|] eqn:Hself; simpl in Hrun; [|done].
  assert (Hwf1 : wellRooted
            (alter (BottomUpNode.addTimes (IComputedNode.selfTime node)
                      (IComputedNode.aggregateTime node)) this store))
    by (by apply wellRooted_alter).
  destruct (BottomUpNode.parent self) as [p|] eqn:Hparent.
  - destruct (IH _ _ _ _ Hwf1 Hrun) as (Hwf' & Hagg & Hs).
    assert (Hthis : this ≠ 0%nat).
    { intros ->. destruct Hwf as [(root & Hroot & Hnone) _]. congruence. }
    split; [done|]. rewrite Hagg, Hs. unfold rootAggregateTime, rootSelfTime.
    by rewrite list_lookup_alter_ne.
  - injection Hrun as <-. split; [done|].
    assert (Hthis : this = 0%nat).
    { destruct this as [|this]; [done|]. destruct Hwf as [_ Hrest].
      destruct (Hrest (S this) self) as (p & Hp & _); [lia|done|congruence]. }
    subst this. unfold rootAggregateTime, rootSelfTime.
    by rewrite list_lookup_alter_eq, Hself.
Qed.

Lemma childFor_root aggregate self node model store :
  wellRooted store → store !! aggregate = Some self →
  wellRooted (snd (childFor aggregate self node model store)) ∧
  rootAggregateTime (snd (childFor aggregate self node model store))
    = rootAggregateTime store ∧
  rootSelfTime (snd (childFor aggregate self node model store)) = rootSelfTime store.
Proof.
  intros Hwf Hself. unfold childFor.
  destruct (BottomUpNode.children self !! IComputedNode.locationId node) as [child|];
    [done|]. simpl.
  pose proof (lookup_lt_Some _ _ _ Hself) as Hlt.
  destruct Hwf as [(root & Hroot & Hnone) Hrest].
  split; [apply wellRooted_alter; [done|split]|].
  - exists root. by rewrite lookup_app_l by lia.
  - intros a b Hpos Hb. destruct (decide (a < length store)%nat) as [Ha|Ha].
    + rewrite lookup_app_l in Hb by done. by eapply Hrest.
    + rewrite lookup_app_r in Hb by lia.
      destruct (a - length store)%nat as [|k] eqn:Hk; simpl in Hb; [|done].
      injection Hb as <-. exists aggregate. split; [done|lia].
  - unfold rootAggregateTime, rootSelfTime.
    destruct (decide (aggregate = 0%nat)) as [->|Hne].
    + rewrite list_lookup_alter_eq, lookup_app_l, Hroot by lia. done.
    + rewrite list_lookup_alter_ne, lookup_app_l by (done || lia). done.
Qed.

(** One call of [processNode] adds the times of every node it visits to
    the root. *)
Lemma processNode_root model fuel : ∀ aggregate node store store',
  wellRooted store →
  processNode fuel aggregate node model store = Some store' →
  wellRooted store' ∧
  rootAggregateTime store'
    = rootAggregateTime store
      + sumZ (IComputedNode.aggregateTime <$> visited fuel (IProfileModel.nodes model) node) ∧
  rootSelfTime store'
    = rootSelfTime store
      + sumZ (IComputedNode.selfTime <$> visited fuel (IProfileModel.nodes model) node).
Proof.
  induction fuel as [|fuel IH]; intros aggregate node store store' Hwf Hrun; [done|].
  simpl in Hrun. destruct (store !! aggregate) as [self|] eqn:Hself; simpl in Hrun; [|done].
  destruct (childFor_root aggregate self node model store Hwf Hself) as (Hwf1 & Hagg1 & Hs1).
  destruct (addNode _ _ node _) as [store2|] eqn:Hadd; simpl in Hrun; [|done].
  destruct (addNode_root _ _ _ _ _ Hwf1 Hadd) as (Hwf2 & Hagg2 & Hs2).
  cbn [visited]. destruct (truthyNumber (IComputedNode.parent node)).
  - destruct (lookupZ _ _) as [parentNode|]; simpl in Hrun; [|done].
    destruct (IH _ _ _ _ Hwf2 Hrun) as (Hwf3 & Hagg3 & Hs3).
    split; [done|]. rewrite !fmap_cons, !sumZ_cons. lia.
  - injection Hrun as <-. split; [done|].
    rewrite !fmap_cons, !sumZ_cons, !fmap_nil. unfold sumZ at 1 2. simpl. lia.
Qed.

(** [addNode] returns: the parents are at ever smaller addresses, so the
    size of the store is fuel enough. *)
Lemma addNode_returns fuel : ∀ this node store,
  wellRooted store → (this < fuel)%nat → (this < length store)%nat →
  ∃ store', addNode fuel this node store = Some store' ∧ length store' = length store ∧
            (∀ a, BottomUpNode.children <$> store' !! a
                  = BottomUpNode.children <$> store !! a).
Proof.
  induction fuel as [|fuel IH]; intros this node store Hwf Hfuel Hlen; [lia|].
  destruct (lookup_lt_is_Some_2 store this Hlen) as [self Hself].
  simpl. rewrite Hself. simpl.
  assert (Hkeep : ∀ a,
            BottomUpNode.children
              <$> alter (BottomUpNode.addTimes (IComputedNode.selfTime node)
                           (IComputedNode.aggregateTime node)) this store !! a
            = BottomUpNode.children <$> store !! a).
  { intros a. destruct (decide (this = a)) as [->|Hne].
    - rewrite list_lookup_alter_eq. by destruct (store !! a).
    - by rewrite list_lookup_alter_ne. }
  destruct (BottomUpNode.parent self) as [p|] eqn:Hparent.
  - assert (Hp : (p < this)%nat).
    { destruct this as [|this].
      - destruct Hwf as [(root & Hroot & Hnone) _]. congruence.
      - destruct Hwf as [_ Hrest].
        destruct (Hrest (S this) self) as (p' & Hp' & Hlt); [lia|done|congruence]. }
    destruct (IH p node
                (alter (BottomUpNode.addTimes (IComputedNode.selfTime node)
                          (IComputedNode.aggregateTime node)) this store))
      as (store' & Hrun & Hlen' & Hchildren).
    + by apply wellRooted_alter.
    + lia.
    + rewrite length_alter. lia.
    + exists store'. split; [done|]. rewrite Hlen', length_alter. split; [done|].
      intros a. by rewrite Hchildren.
  - eexists. split; [done|]. by rewrite length_alter.
Qed.

Lemma childrenStored_same store store' :
  length store' = length store →
  (∀ a, BottomUpNode.children <$> store' !! a = BottomUpNode.children <$> store !! a) →
  childrenStored store → childrenStored store'.
Proof.
  intros Hlen Hsame Hstored a b key child Hb Hchild. rewrite Hlen.
  specialize (Hsame a). rewrite Hb in Hsame.
  destruct (store !! a) as [b0|] eqn:Hb0; [|done]. injection Hsame as Hsame.
  apply (Hstored a b0 key child); [done|]. by rewrite <- Hsame.
Qed.

Lemma childFor_stored aggregate self node model store :
  childrenStored store → store !! aggregate = Some self →
  childrenStored (snd (childFor aggregate self node model store)) ∧
  (fst (childFor aggregate self node model store)
   < length (snd (childFor aggregate self node model store)))%nat.
Proof.
  intros Hstored Hself. unfold childFor.
  destruct (BottomUpNode.children self !! IComputedNode.locationId node) as [child|] eqn:Hchild.
  - split; [done|]. by eapply Hstored.
  - simpl. rewrite length_alter, length_app. simpl. split; [|lia].
    intros a b key child Hb Hkey. rewrite length_alter, length_app. simpl.
    destruct (decide (aggregate = a)) as [->|Hne].
    + rewrite list_lookup_alter_eq in Hb.
      rewrite lookup_app_l in Hb by (by eapply lookup_lt_Some).
      rewrite Hself in Hb. injection Hb as <-. simpl in Hkey.
      destruct (decide (IComputedNode.locationId node = key)) as [Heq|Hk].
      * rewrite Heq, lookup_insert_eq in Hkey. injection Hkey as <-. lia.
      * rewrite lookup_insert_ne in Hkey by done.
        pose proof (Hstored _ _ _ _ Hself Hkey). lia.
    + rewrite list_lookup_alter_ne in Hb by done.
      destruct (decide (a < length store)%nat) as [Ha|Ha].
      * rewrite lookup_app_l in Hb by done. pose proof (Hstored _ _ _ _ Hb Hkey). lia.
      * rewrite lookup_app_r in Hb by lia.
        destruct (a - length store)%nat; simpl in Hb; [|done].
        injection Hb as <-. simpl in Hkey. by rewrite lookup_empty in Hkey.
Qed.

(** [processNode] returns when the parent chain of the node ends within
    the fuel. *)
Lemma processNode_returns model fuel : ∀ aggregate node store,
  wellRooted store → childrenStored store → (aggregate < length store)%nat →
  chainEnds fuel (IProfileModel.nodes model) node →
  ∃ store', processNode fuel aggregate node model store = Some store' ∧
            wellRooted store' ∧ childrenStored store'.
Proof.
  induction fuel as [|fuel IH]; intros aggregate node store Hwf Hstored Hlen Hchain; [done|].
  destruct (lookup_lt_is_Some_2 store aggregate Hlen) as [self Hself].
  simpl. rewrite Hself. simpl.
  destruct (childFor_root aggregate self node model store Hwf Hself) as (Hwf1 & _ & _).
  destruct (childFor_stored aggregate self node model store Hstored Hself)
    as [Hstored1 Hchild].
  destruct (addNode_returns _ _ node _ Hwf1 Hchild Hchild) as (store2 & Hadd & Hlen2 & Hsame).
  rewrite Hadd. simpl.
  destruct (addNode_root _ _ _ _ _ Hwf1 Hadd) as (Hwf2 & _ & _).
  pose proof (childrenStored_same _ _ Hlen2 Hsame Hstored1) as Hstored2.
  simpl in Hchain. destruct (truthyNumber (IComputedNode.parent node)).
  - destruct (lookupZ _ _) as [parentNode|]; [|done]. simpl.
    apply IH; [done|done|by rewrite Hlen2|done].
  - by exists store2.
Qed.

(** [createBottomUpGraph] returns a tree for every model whose nodes
    have a location and whose parent chains end within the fuel. *)
Lemma createBottomUpGraph_returns fuel model :
  Forall (λ node, 0 ≤ IComputedNode.locationId node
                  < Z.of_nat (length (IProfileModel.locations model)))
    (IProfileModel.nodes model) →
  Forall (chainEnds fuel (IProfileModel.nodes model)) (leaves (IProfileModel.nodes model)) →
  is_Some (createBottomUpGraph fuel model).
Proof.
  intros Hlocations Hchains. unfold createBottomUpGraph.
  assert (Hpush : ∀ l shared,
            Forall (λ node, 0 ≤ IComputedNode.locationId node
                            < Z.of_nat (length (IProfileModel.locations model))) l →
            is_Some (forM (pushByLocation model) l shared)).
  { induction l as [|node l IH]; intros shared Hl; [by eexists|].
    apply Forall_cons in Hl as [Hnode Hl]. rewrite forM_cons.
    assert (pushByLocation model shared node = Some (shared ++ [node])) as ->
      by (unfold pushByLocation; by rewrite decide_True).
    simpl. by apply IH. }
  destruct (Hpush _ [] Hlocations) as [shared ->]. simpl.
  assert (Hloop : ∀ l store,
            wellRooted store → childrenStored store → (0 < length store)%nat →
            Forall (chainEnds fuel (IProfileModel.nodes model)) (leaves l) →
            is_Some (forM (λ store node,
                             if decide (length (IComputedNode.children node) = 0%nat)
                             then processNode fuel 0%nat node model store
                             else Some store) l store)).
  { induction l as [|node l IH]; intros store Hwf Hstored Hlen Hl; [by eexists|].
    rewrite forM_cons. unfold leaves in Hl. cbn [List.filter] in Hl. fold (leaves l) in Hl.
    destruct (decide (length (IComputedNode.children node) = 0%nat)) as [Hleaf|Hinner].
    - rewrite bool_decide_eq_true_2 in Hl by done. apply Forall_cons in Hl as [Hnode Hl].
      destruct (processNode_returns model fuel 0%nat node store Hwf Hstored Hlen Hnode)
        as (store' & -> & Hwf' & Hstored').
      simpl. apply IH; [done|done| |done].
      destruct Hwf' as [(root & Hroot & _) _]. apply lookup_lt_Some in Hroot. lia.
    - rewrite bool_decide_eq_false_2 in Hl by done. simpl. by apply IH. }
  apply Hloop; [| |simpl; lia|done].
  - split; [by eexists|]. intros [|a] b Hpos Hb; [lia|done].
  - intros [|a] b key child Hb Hkey; [|done].
    injection Hb as <-. simpl in Hkey. by rewrite lookup_empty in Hkey.
Qed.

(** C2 (amended). The root of the tree returned by [createBottomUpGraph]
    has [aggregateTime] equal to the sum, over every ComputedNode without
    children, of the [aggregateTime] of each node that [processNode]
    visits from it (the node itself and then its parents); its [selfTime]
    is the same sum of [selfTime]. *)
Theorem createBottomUpGraph_root fuel model store :
  createBottomUpGraph fuel model = Some store →
  ∃ root,
    store !! 0%nat = Some root ∧
    BottomUpNode.aggregateTime root
      = sumZ ((λ leaf, sumZ (IComputedNode.aggregateTime
                               <$> visited fuel (IProfileModel.nodes model) leaf))
              <$> leaves (IProfileModel.nodes model)) ∧
    BottomUpNode.selfTime root
      = sumZ ((λ leaf, sumZ (IComputedNode.selfTime
                               <$> visited fuel (IProfileModel.nodes model) leaf))
              <$> leaves (IProfileModel.nodes model)).
Proof.
  unfold createBottomUpGraph. intros Hrun.
  destruct (forM (pushByLocation model) _ _) as [shared|]; simpl in Hrun; [|done].
  assert (Hloop : ∀ l store0 store1,
            wellRooted store0 →
            forM (λ store node,
                    if decide (length (IComputedNode.children node) = 0%nat)
                    then processNode fuel 0%nat node model store
                    else Some store) l store0 = Some store1 →
            wellRooted store1 ∧
            rootAggregateTime store1
              = rootAggregateTime store0
                + sumZ ((λ leaf, sumZ (IComputedNode.aggregateTime
                                         <$> visited fuel (IProfileModel.nodes model) leaf))
                        <$> leaves l) ∧
            rootSelfTime store1
              = rootSelfTime store0
                + sumZ ((λ leaf, sumZ (IComputedNode.selfTime
                                         <$> visited fuel (IProfileModel.nodes model) leaf))
                        <$> leaves l)).
  { induction l as [|node l IH]; intros store0 store1 Hwf Hl.
    - injection Hl as <-. split; [done|]. unfold leaves, sumZ. simpl. lia.
    - rewrite forM_cons in Hl. unfold leaves. cbn [List.filter]. fold (leaves l).
      destruct (decide (length (IComputedNode.children node) = 0%nat)) as [Hleaf|Hinner].
      + destruct (processNode fuel 0%nat node model store0) as [store'|] eqn:Hp;
          simpl in Hl; [|done].
        destruct (processNode_root _ _ _ _ _ _ Hwf Hp) as (Hwf' & Hagg & Hs).
        destruct (IH _ _ Hwf' Hl) as (Hwf1 & Hagg1 & Hs1).
        rewrite bool_decide_eq_true_2 by done. split; [done|].
        rewrite !fmap_cons, !sumZ_cons. lia.
      + simpl in Hl. rewrite bool_decide_eq_false_2 by done. by apply IH. }
  apply Hloop in Hrun as ([(root & Hroot & _) _] & Hagg & Hs).
  - exists root. split; [done|]. unfold rootAggregateTime, rootSelfTime in Hagg, Hs.
    rewrite Hroot in Hagg, Hs. simpl in Hagg, Hs. split; lia.
  - split; [by eexists|]. intros a b Hpos Hb. destruct a; [lia|done].
Qed.

(** C2 as stated fails on the scenario of the specification: the one leaf
    is visited with aggregate time 5 and then its parent with aggregate
    time 10, so the root ends with 15, while the self times sum to 10. *)
Lemma createBottomUpGraph_root_counterexample :
  ∃ model profile' store root,
    @buildModel plainPaths 10 scenarioProfile = Some (model, profile') ∧
    createBottomUpGraph 10 model = Some store ∧
    store !! 0%nat = Some root ∧
    BottomUpNode.aggregateTime root = 15 ∧
    sumZ (IComputedNode.selfTime <$> IProfileModel.nodes model) = 10 ∧
    BottomUpNode.aggregateTime root
      ≠ sumZ (IComputedNode.selfTime <$> IProfileModel.nodes model).
Proof.
  eexists _, _, _, _. split; [vm_compute; reflexivity|].
  split; [vm_compute; reflexivity|]. split; [reflexivity|].
  split; [reflexivity|]. split; [reflexivity|]. by vm_compute.
Qed.

(** C2 (amended), at the scenario. *)
Lemma createBottomUpGraph_root_witness :
  ∃ model profile' store,
    @buildModel plainPaths 10 scenarioProfile = Some (model, profile') ∧
    createBottomUpGraph 10 model = Some store ∧
    ∃ root,
      store !! 0%nat = Some root ∧
      BottomUpNode.aggregateTime root
        = sumZ ((λ leaf, sumZ (IComputedNode.aggregateTime
                                 <$> visited 10 (IProfileModel.nodes model) leaf))
                <$> leaves (IProfileModel.nodes model)) ∧
      BottomUpNode.selfTime root
        = sumZ ((λ leaf, sumZ (IComputedNode.selfTime
                                 <$> visited 10 (IProfileModel.nodes model) leaf))
                <$> leaves (IProfileModel.nodes model)).
Proof.
  eexists _, _, _. split; [vm_compute; reflexivity|].
  split; [vm_compute; reflexivity|].
  eapply (createBottomUpGraph_root 10). vm_compute. reflexivity.
Defined.

(** *** The children getter *)

(** C10 fails on the code.  The root accessor of the scenario's two
    columns spans both of them; its [children] getter evaluates
    [this.model[2]] although there are two columns (indices 0 and 1), and
    throws on it. *)
Theorem children_reads_past_last_column :
  ∃ model profile' columns accessor,
    @buildModel plainPaths 10 scenarioProfile = Some (model, profile') ∧
    buildColumns 10 model = Some columns ∧
    length columns = 2%nat ∧
    rootAccessors columns = Some [accessor] ∧
    children accessor = ([0; 1; 1; 2]%nat, None).
Proof.
  eexists _, _, _, _. split; [vm_compute; reflexivity|].
  split; [vm_compute; reflexivity|]. split; [reflexivity|].
  split; [vm_compute; reflexivity|]. vm_compute. reflexivity.
Qed.

(** On the last column the getter never returns: after the body it
    evaluates [this.model[x + 1]], which is [undefined]. *)
Lemma children_at_last_column model x y accessor :
  newLocationAccessor model x y = Some accessor →
  S x = length model →
  snd (children accessor) = None.
Proof.
  unfold newLocationAccessor, rowAt. intros Hnew Hlast.
  destruct (model !! x) as [col|] eqn:Hcol; simpl in Hnew; [|done].
  destruct (IColumn.rows col !! y) as [[cell|p]|]; [|done..].
  injection Hnew as <-. unfold children. cbn [LocationAccessor.model LocationAccessor.x].
  cbn [childrenFrom LocationAccessor.model LocationAccessor.y]. rewrite Hcol.
  destruct (if truthyRow (IColumn.rows col !! S y) then _ else _); [|done].
  rewrite Hlast. by rewrite (proj2 (lookup_ge_None model (length model))).
Qed.

(** *** Rows of a column list *)

Lemma rowAt_setRowAt x y r columns x' y' :
  rowAt (setRowAt x y r columns) x' y'
  = if decide (x' = x ∧ y' = y) then (λ _, r) <$> rowAt columns x y
    else rowAt columns x' y'.
Proof.
  unfold rowAt, setRowAt. destruct (decide (x' = x)) as [->|Hx].
  - rewrite list_lookup_alter_eq. destruct (columns !! x) as [col|]; simpl.
    + rewrite list_lookup_insert. destruct (decide (y' = y)) as [->|Hy].
      * rewrite (decide_True (P := x = x ∧ y = y)) by done.
        destruct (IColumn.rows col !! y) as [r0|] eqn:Hr0; simpl.
        -- apply lookup_lt_Some in Hr0. by rewrite decide_True.
        -- pose proof Hr0 as Hge. apply lookup_ge_None in Hge.
           by rewrite decide_False by lia.
      * rewrite decide_False by (by intros [? _]). by rewrite decide_False by (by intros [_ ?]).
    + by case_decide.
  - rewrite list_lookup_alter_ne by done. by rewrite decide_False by (by intros [? _]).
Qed.

Lemma rowAt_setRowAt_eq x y r columns :
  is_Some (rowAt columns x y) → rowAt (setRowAt x y r columns) x y = Some r.
Proof. intros [r0 Hr0]. rewrite rowAt_setRowAt, decide_True by done. by rewrite Hr0. Qed.

Lemma rowAt_setRowAt_ne x y r columns x' y' :
  (x', y') ≠ (x, y) → rowAt (setRowAt x y r columns) x' y' = rowAt columns x' y'.
Proof. intros Hne. rewrite rowAt_setRowAt, decide_False; [done|]. intros [-> ->]. done. Qed.

Lemma length_setRowAt x y r columns : length (setRowAt x y r columns) = length columns.
Proof. apply length_alter. Qed.

Lemma mergeRow_Break x y columns :
  mergeRow x y columns = Break ↔
  ∃ current i, rowAt columns x y = Some current ∧ comparedId columns x y = Some i ∧
               i ≠ rowId current.
Proof.
  unfold mergeRow, comparedId.
  destruct (rowAt columns x y) as [current|]; [|split; [done|by intros (? & ? & ? & _)]].
  destruct (rowAt columns (x - 1) y) as [[prev|p]|].
  - case_decide as Hid.
    + split.
      * unfold accumulate.
        destruct (rowAt _ (x - 1) y) as [[?|?]|]; destruct current; done.
      * intros (current' & i & [= <-] & [= <-] & Hne). done.
    + split; [|done]. intros _. by exists current, (FlameCell.id prev).
  - destruct (lookupZ columns p ≫= _) as [target|]; simpl.
    + case_decide as Hid.
      * split; [|done]. intros _. exists current, (rowId target). by repeat split.
      * split.
        -- unfold accumulate.
           destruct (rowAt _ (Z.to_nat p) y) as [[?|?]|]; destruct current; done.
        -- intros (current' & i & [= <-] & [= <-] & Hne). by destruct Hid.
    + split; [done|]. by intros (? & ? & _ & ? & _).
  - case_decide as Hid.
    + split; [done|]. intros (current' & i & [= <-] & [= <-] & Hne). done.
    + split; [|done]. intros _. exists current, None. by repeat split.
Qed.

Lemma mergeRow_Continue k y columns columns' :
  (1 ≤ k)%nat →
  mergeRow k y columns = Continue columns' →
  ∃ p c t, mergedInto columns columns' k y p c t.
Proof.
  intros Hk. unfold mergeRow.
  destruct (rowAt columns k y) as [current|] eqn:Hcurrent; [|done].
  destruct (rowAt columns (k - 1) y) as [[prev|p]|] eqn:Hprev.
  - case_decide as Hid; [|done]. unfold accumulate.
    rewrite rowAt_setRowAt_ne by (intros [= ?]; lia). rewrite Hprev.
    destruct current as [c|]; [|done]. intros [= <-].
    exists (k - 1)%nat, c, prev. repeat split; try done; [lia|by right|].
    do 3 f_equal. lia.
  - destruct (lookupZ columns p ≫= _) as [target|] eqn:Htarget; simpl; [|done].
    case_decide as Hid; [done|].
    destruct (lookupZ columns p) as [col|] eqn:Hcol; simpl in Htarget; [|done].
    apply lookupZ_Some in Hcol as [Hp Hcol].
    assert (Htarget' : rowAt columns (Z.to_nat p) y = Some target)
      by (unfold rowAt; by rewrite Hcol).
    unfold accumulate. rewrite rowAt_setRowAt.
    case_decide as Hsame.
    { rewrite Hcurrent. simpl. done. }
    rewrite Htarget'. destruct target as [t|]; [|done].
    destruct current as [c|]; [|done]. intros [= <-].
    exists (Z.to_nat p), c, t. unfold mergedInto. rewrite Z2Nat.id by done.
    repeat split; try done; [|by left].
    intros Heq. apply Hsame. by rewrite Heq.
  - by case_decide.
Qed.

Lemma mergedInto_rowAt columns columns' k y p c t :
  mergedInto columns columns' k y p c t →
  ∀ x' y', rowAt columns' x' y'
           = if decide (x' = p ∧ y' = y) then Some (Cell (FlameCell.addTimes c t))
             else if decide (x' = k ∧ y' = y) then Some (Merged (Z.of_nat p))
             else rowAt columns x' y'.
Proof.
  intros (Hc & Ht & _ & Hne & _ & ->) x' y'.
  rewrite !rowAt_setRowAt. case_decide as H1.
  - rewrite decide_False by (intros [? _]; done). by rewrite Ht.
  - case_decide; [by rewrite Hc|done].
Qed.

(** The id of a row that the turn did not replace by a number is as it
    was. *)
Lemma mergedInto_rowId columns columns' k y p c t :
  mergedInto columns columns' k y p c t →
  ∀ x' y', (x', y') ≠ (k, y) →
           rowId <$> rowAt columns' x' y' = rowId <$> rowAt columns x' y'.
Proof.
  intros Hstep x' y' Hne. rewrite (mergedInto_rowAt _ _ _ _ _ _ _ Hstep).
  destruct Hstep as (_ & Ht & _).
  case_decide as H1.
  - destruct H1 as [-> ->]. by rewrite Ht.
  - case_decide as H2; [|done]. destruct H2 as [-> ->]. done.
Qed.

(** Changing one term of a sum over a range of indices. *)
Lemma sumZ_seq_change (f g : nat → Z) (k : nat) (d : Z) : ∀ n a,
  (a ≤ k < a + n)%nat →
  (∀ i, i ≠ k → g i = f i) → g k = f k + d →
  sumZ (g <$> seq a n) = sumZ (f <$> seq a n) + d.
Proof.
  induction n as [|n IH]; intros a Hk Hother Hat; [lia|].
  cbn [seq]. rewrite !fmap_cons, !sumZ_cons.
  destruct (decide (a = k)) as [->|Hne].
  - rewrite Hat. rewrite (sumZ_ext g f); [lia|].
    intros i Hi. apply Hother. apply elem_of_seq in Hi. lia.
  - rewrite Hother by done. rewrite IH; [lia|lia|done|done].
Qed.

Lemma sumZ_seq_single (f : nat → Z) (k : nat) : ∀ n a,
  (a ≤ k < a + n)%nat →
  sumZ ((λ i, if bool_decide (i = k) then f i else 0) <$> seq a n) = f k.
Proof.
  intros n a Hk.
  rewrite (sumZ_seq_change (λ _, 0) _ k (f k) n a Hk).
  - rewrite sumZ_zero; [lia|]. apply Forall_fmap, Forall_forall. done.
  - intros i Hi. by rewrite bool_decide_eq_false_2.
  - by rewrite bool_decide_eq_true_2.
Qed.

(** *** The invariant of the merge *)

Lemma rowAt_lt columns x y r : rowAt columns x y = Some r → (x < length columns)%nat.
Proof.
  unfold rowAt. destruct (columns !! x) as [col|] eqn:Hcol; [|done].
  intros _. by eapply lookup_lt_Some.
Qed.

Lemma lookupZ_rowAt columns (p : nat) y :
  lookupZ columns (Z.of_nat p) ≫= (λ col, IColumn.rows col !! y) = rowAt columns p y.
Proof. by rewrite lookupZ_of_nat. Qed.

(** The times a cell stands for after a turn of the merge. *)
Lemma mergedInto_representedTime f columns0 columns columns' k y p c t x' y' :
  mergedInto columns columns' k y p c t →
  (k < length columns0)%nat →
  (x', y') ≠ (k, y) →
  representedTime f columns0 columns' x' y'
  = representedTime f columns0 columns x' y'
    + (if decide (x' = p ∧ y' = y) then initialTime f columns0 k y else 0).
Proof.
  intros Hstep Hk Hne. pose proof (mergedInto_rowAt _ _ _ _ _ _ _ Hstep) as Hat.
  destruct Hstep as (Hc & Ht & _ & Hpk & _ & _).
  unfold representedTime.
  assert (Hother : ∀ i, i ≠ k ∨ y' ≠ y →
            represents columns' x' y' i = represents columns x' y' i).
  { intros i Hi. unfold represents. f_equal. rewrite Hat.
    case_decide as H1.
    - destruct H1 as [-> ->]. by rewrite Ht.
    - case_decide as H2; [|done]. destruct H2 as [-> ->]. by destruct Hi. }
  case_decide as Hhere.
  - destruct Hhere as [-> ->].
    apply (sumZ_seq_change _ _ k); [lia| |].
    + intros i Hi. by rewrite Hother by (by left).
    + unfold represents. rewrite Hat, Hc.
      rewrite decide_False by (intros [? _]; done).
      rewrite decide_True by done. simpl.
      rewrite bool_decide_eq_false_2 by done.
      rewrite Z.eqb_refl. simpl. lia.
  - rewrite Z.add_0_r. f_equal. apply list_fmap_ext. intros _ i _.
    destruct (decide (i = k ∧ y' = y)) as [[-> ->]|Hi].
    + unfold represents. rewrite Hat, Hc.
      rewrite decide_False by (intros [? _]; done).
      rewrite decide_True by done. simpl.
      destruct (bool_decide (k = x')) eqn:Hkx.
      { apply bool_decide_eq_true in Hkx. subst. done. }
      simpl. destruct (Z.eqb_spec (Z.of_nat p) (Z.of_nat x')) as [Heq|_]; [|done].
      exfalso. apply Hhere. split; [lia|done].
    + rewrite Hother; [done|]. destruct (decide (i = k)); [right|left]; naive_solver.
Qed.

Lemma merging_step columns0 k y columns columns' p c t :
  allCells columns0 → (1 ≤ k)%nat →
  merging columns0 k y columns →
  mergedInto columns columns' k y p c t →
  merging columns0 k (S y) columns'.
Proof.
  intros Hcells Hk Hinv Hstep.
  pose proof (mergedInto_rowAt _ _ _ _ _ _ _ Hstep) as Hat.
  pose proof (mergedInto_rowId _ _ _ _ _ _ _ Hstep) as Hids.
  pose proof Hstep as (Hc & Ht & Hid & Hne & Hprev & Hcols').
  assert (Hpk : (p < k)%nat).
  { destruct Hprev as [Hprev| ->]; [|lia].
    destruct (merging_merged _ _ _ _ Hinv _ _ _ Hprev) as (p' & Hp' & Hlt & _). lia. }
  assert (Hcontig : ∀ x'', (p < x'' < k)%nat →
            rowAt columns x'' y = Some (Merged (Z.of_nat p))).
  { destruct Hprev as [Hprev| ->]; [|lia].
    destruct (merging_merged _ _ _ _ Hinv _ _ _ Hprev) as (p' & Hp' & Hlt & _ & Hall).
    assert (p' = p) as -> by lia. intros x'' Hx''. apply Hall. lia. }
  assert (Hc0 : rowAt columns0 k y = Some (Cell c)).
  { rewrite <- (merging_untouched _ _ _ _ Hinv); [done|]. unfold touched. lia. }
  assert (Hklen : (k < length columns0)%nat) by (by eapply rowAt_lt).
  assert (Hmerged_touched : ∀ x' y' q,
            rowAt columns x' y' = Some (Merged q) → touched k y x' y').
  { intros x' y' q Hq. destruct (decide (touched k y x' y')) as [|Hno]; [done|].
    rewrite (merging_untouched _ _ _ _ Hinv _ _ Hno) in Hq.
    by destruct (Hcells _ _ _ Hq). }
  constructor.
  - rewrite Hcols', !length_setRowAt. apply Hinv.
  - intros x' y'. rewrite Hat. rewrite <- (merging_shape _ _ _ _ Hinv).
    case_decide as H1; [destruct H1 as [-> ->]; by rewrite Ht|].
    case_decide as H2; [destruct H2 as [-> ->]; by rewrite Hc|done].
  - intros x' y' Hno. rewrite Hat.
    rewrite decide_False by (intros [-> ->]; apply Hno; left; done).
    rewrite decide_False by (intros [-> ->]; apply Hno; right; lia).
    apply (merging_untouched _ _ _ _ Hinv). intros [Hx|[-> Hy]]; apply Hno; [by left|].
    right. lia.
  - intros y' Hy'. rewrite Hat. rewrite decide_False by (intros [? _]; lia).
    case_decide as H2; [by eexists|].
    apply (merging_current _ _ _ _ Hinv). destruct (decide (y' = y)) as [->|]; [|lia].
    by destruct H2.
  - intros x' y' q. rewrite Hat. case_decide as H1; [done|].
    case_decide as H2.
    + destruct H2 as [-> ->]. intros [= <-]. exists p. repeat split; [done| |].
      * rewrite Hat, decide_True by done. by eexists.
      * intros x'' Hx''. rewrite Hat. rewrite decide_False by (intros [? _]; lia).
        case_decide as H3; [done|]. apply Hcontig.
        destruct (decide (x'' = k)) as [->|]; [by destruct H3|lia].
    + intros Hq. pose proof (Hmerged_touched _ _ _ Hq) as Htouched.
      destruct (merging_merged _ _ _ _ Hinv _ _ _ Hq) as (p' & -> & Hlt & [c' Hc'] & Hall).
      exists p'. repeat split; [done| |].
      * rewrite Hat. case_decide; [by eexists|].
        rewrite decide_False; [by eexists|].
        intros [-> ->]. destruct Htouched as [?|[-> ?]]; lia.
      * intros x'' Hx''. rewrite Hat.
        case_decide as H3.
        { destruct H3 as [-> ->]. rewrite Hall in Ht by done. done. }
        case_decide as H4; [|by apply Hall].
        destruct H4 as [-> ->]. rewrite Hall in Hc by done. done.
  - intros x' y' c'. rewrite Hat. case_decide as H1.
    + destruct H1 as [-> ->]. intros [= <-].
      destruct (merging_cell _ _ _ _ Hinv _ _ _ Ht) as (c0 & Hc0' & Hloc & Hgraph & Hs & Ha).
      exists c0. repeat split; try done.
      * simpl. rewrite (mergedInto_representedTime _ _ _ _ _ _ _ _ _ _ _ Hstep Hklen)
          by (intros [= ?]; lia).
        rewrite decide_True by done. unfold initialTime. rewrite Hc0. lia.
      * simpl. rewrite (mergedInto_representedTime _ _ _ _ _ _ _ _ _ _ _ Hstep Hklen)
          by (intros [= ?]; lia).
        rewrite decide_True by done. unfold initialTime. rewrite Hc0. lia.
    + case_decide as H2; [done|]. intros Hc'.
      destruct (merging_cell _ _ _ _ Hinv _ _ _ Hc') as (c0 & Hc0' & Hloc & Hgraph & Hs & Ha).
      assert (Hpos : (x', y') ≠ (k, y)) by (intros [= -> ->]; by apply H2).
      exists c0. repeat split; try done.
      * rewrite (mergedInto_representedTime _ _ _ _ _ _ _ _ _ _ _ Hstep Hklen Hpos).
        rewrite decide_False by done. lia.
      * rewrite (mergedInto_representedTime _ _ _ _ _ _ _ _ _ _ _ Hstep Hklen Hpos).
        rewrite decide_False by done. lia.
  - intros x' c' Hx' Hc'.
    assert (Hold : ∃ cold, rowAt columns x' 0%nat = Some (Cell cold) ∧
                           FlameCell.id cold = FlameCell.id c').
    { rewrite Hat in Hc'. case_decide as H1.
      - destruct H1 as [-> <-]. injection Hc' as <-. by exists t.
      - rewrite decide_False in Hc' by (intros [? _]; lia). by exists c'. }
    destruct Hold as (cold & Hcold & Hidold).
    destruct (merging_blocked _ _ _ _ Hinv _ _ Hx' Hcold) as (i & Hi & Hineq).
    exists i. split; [|by rewrite <- Hidold].
    rewrite <- Hi. unfold comparedId. rewrite (Hat (x' - 1)%nat 0%nat).
    rewrite (decide_False (P := (x' - 1)%nat = k ∧ 0%nat = y)) by (intros [? _]; lia).
    case_decide as H1.
    { destruct H1 as [H1 <-]. rewrite H1, Ht. done. }
    destruct (rowAt columns (x' - 1) 0) as [[prev|q]|] eqn:Hprev0; [done| |done].
    destruct (merging_merged _ _ _ _ Hinv _ _ _ Hprev0) as (q' & -> & Hlt & _).
    rewrite !lookupZ_rowAt. apply Hids. intros [= ? _]. lia.
Qed.

Lemma merging_initial columns0 : allCells columns0 → merging columns0 1 0 columns0.
Proof.
  intros Hcells.
  assert (Htime : ∀ f x y c, rowAt columns0 x y = Some (Cell c) →
            f c = representedTime f columns0 columns0 x y).
  { intros f x y c Hc. unfold representedTime.
    rewrite (sumZ_ext _ (λ i, if bool_decide (i = x) then initialTime f columns0 i y else 0)).
    - rewrite sumZ_seq_single by (apply rowAt_lt in Hc; lia).
      unfold initialTime. by rewrite Hc.
    - intros i _. unfold represents.
      destruct (rowAt columns0 i y) as [r|] eqn:Hr; [|by rewrite orb_false_r].
      destruct (Hcells _ _ _ Hr) as [c' ->]. by rewrite orb_false_r. }
  constructor; try done.
  - intros y' Hy'. lia.
  - intros x' y' p Hp. by destruct (Hcells _ _ _ Hp).
  - intros x' y' c Hc. exists c. repeat split; try done; by apply Htime.
  - intros x' c Hx'. lia.
Qed.

Lemma merging_advance columns0 k y columns :
  merging columns0 k y columns →
  (∀ c, rowAt columns k 0%nat = Some (Cell c) →
        ∃ i, comparedId columns k 0%nat = Some i ∧ i ≠ FlameCell.id c) →
  merging columns0 (S k) 0 columns.
Proof.
  intros Hinv Hblocked. constructor; try apply Hinv.
  - intros x' y' Hno. apply (merging_untouched _ _ _ _ Hinv).
    intros [Hx|[-> Hy]]; apply Hno; left; lia.
  - intros y' Hy'. lia.
  - intros x' c Hx' Hc. destruct (decide (x' = k)) as [->|Hne].
    + by apply Hblocked.
    + apply (merging_blocked _ _ _ _ Hinv); [lia|done].
Qed.

Lemma mergeRows_merging columns0 k : ∀ n y columns columns',
  allCells columns0 → (1 ≤ k)%nat →
  merging columns0 k y columns →
  mergeRows k (seq y n) columns = Some columns' →
  ∃ y', (y ≤ y')%nat ∧ merging columns0 k y' columns'.
Proof.
  induction n as [|n IH]; intros y columns columns' Hcells Hk Hinv Hrun; simpl in Hrun.
  - injection Hrun as <-. by exists y.
  - destruct (mergeRow k y columns) as [| |columns1] eqn:Hstep; [done| |].
    + injection Hrun as <-. by exists y.
    + apply mergeRow_Continue in Hstep as (p & c & t & Hstep); [|done].
      pose proof (merging_step _ _ _ _ _ _ _ _ Hcells Hk Hinv Hstep) as Hinv1.
      destruct (IH _ _ _ Hcells Hk Hinv1 Hrun) as (y' & Hy' & Hinv').
      exists y'. split; [lia|done].
Qed.

Lemma mergeColumn_merging columns0 k columns columns' :
  allCells columns0 → (1 ≤ k)%nat →
  merging columns0 k 0 columns →
  mergeColumn columns k = Some columns' →
  merging columns0 (S k) 0 columns'.
Proof.
  intros Hcells Hk Hinv Hrun. unfold mergeColumn in Hrun.
  destruct (columns !! k) as [col|] eqn:Hcol; simpl in Hrun; [|done].
  destruct (IColumn.rows col) as [|r rows] eqn:Hrows; simpl in Hrun.
  - injection Hrun as <-. apply (merging_advance _ _ 0); [done|].
    intros c Hc. unfold rowAt in Hc. rewrite Hcol in Hc. simpl in Hc.
    by rewrite Hrows in Hc.
  - destruct (mergeRow k 0 columns) as [| |columns1] eqn:Hstep; [done| |].
    + injection Hrun as <-. apply (merging_advance _ _ 0); [done|].
      intros c Hc. apply mergeRow_Break in Hstep as (current & i & Hcurrent & Hi & Hne).
      rewrite Hc in Hcurrent. injection Hcurrent as <-. by exists i.
    + apply mergeRow_Continue in Hstep as (p & c & t & Hstep); [|done].
      pose proof (merging_step _ _ _ _ _ _ _ _ Hcells Hk Hinv Hstep) as Hinv1.
      destruct (mergeRows_merging _ _ _ _ _ _ Hcells Hk Hinv1 Hrun) as (y' & Hy' & Hinv').
      apply (merging_advance _ _ y'); [done|].
      intros c' Hc'. destruct (merging_current _ _ _ _ Hinv' 0%nat) as [q Hq]; [lia|].
      by rewrite Hq in Hc'.
Qed.

Lemma mergeColumns_from columns0 : ∀ m k columns columns',
  allCells columns0 → (1 ≤ k)%nat →
  merging columns0 k 0 columns →
  forM mergeColumn (seq k m) columns = Some columns' →
  merging columns0 (k + m) 0 columns'.
Proof.
  induction m as [|m IH]; intros k columns columns' Hcells Hk Hinv Hrun.
  - injection Hrun as <-. by rewrite Nat.add_0_r.
  - cbn [seq] in Hrun. rewrite forM_cons in Hrun.
    destruct (mergeColumn columns k) as [columns1|] eqn:Hstep; simpl in Hrun; [|done].
    apply (mergeColumn_merging columns0) in Hstep; [|done..].
    replace (k + S m)%nat with (S k + m)%nat by lia.
    apply (IH (S k) columns1); [done|lia|done|done].
Qed.

(** The merge phase run on columns of cells ends in the invariant with
    every column passed. *)
Lemma mergeColumns_merging columns0 columns :
  allCells columns0 →
  mergeColumns columns0 = Some columns →
  merging columns0 (1 + (length columns0 - 1)) 0 columns.
Proof.
  intros Hcells Hrun. unfold mergeColumns in Hrun.
  apply (mergeColumns_from columns0 _ 1 columns0); [done|lia| |done].
  by apply merging_initial.
Qed.

(** *** Phase 1 *)

Lemma initialRow_node model i node graphId selfTime aggregateTime :
  lookupZ (IProfileModel.nodes model) i = Some node →
  initialRow model
    (Cell (FlameCell.mk
             (lookupZ (IProfileModel.locations model) (IComputedNode.locationId node))
             graphId selfTime aggregateTime)).
Proof.
  intros Hnode. eexists. split; [done|]. intros Hvalid.
  destruct (Hvalid i node Hnode) as [location Hlocation].
  unfold FlameCell.id. simpl. rewrite Hlocation. by eexists.
Qed.

Lemma ancestorRows_initial model selfTime fuel : ∀ id counter rows rows' counter',
  rows ≠ [] → Forall (initialRow model) rows →
  ancestorRows fuel model selfTime id counter rows = Some (rows', counter') →
  rows' ≠ [] ∧ Forall (initialRow model) rows'.
Proof.
  induction fuel as [|fuel IH]; intros id counter rows rows' counter' Hne Hrows Hrun;
    [done|].
  simpl in Hrun. destruct (truthyNumber id).
  - destruct (lookupZ (IProfileModel.nodes model) (default 0 id)) as [node|] eqn:Hnode;
      simpl in Hrun; [|done].
    apply IH in Hrun; [done|done|].
    constructor; [|done]. by eapply initialRow_node.
  - by injection Hrun as <- <-.
Qed.

Lemma synthesizeColumn_initial fuel model st i st' :
  Forall (initialColumn model) (Synthesis.columns st) →
  synthesizeColumn fuel model st i = Some st' →
  Forall (initialColumn model) (Synthesis.columns st').
Proof.
  intros Hst Hrun. unfold synthesizeColumn in Hrun.
  destruct (IProfileModel.samples model !! i) as [sample|]; simpl in Hrun; [|done].
  destruct (lookupZ (IProfileModel.nodes model) sample) as [root|] eqn:Hroot;
    simpl in Hrun; [|done].
  destruct (IProfileModel.timeDeltas model !! (i - 1)%nat) as [selfTime|]; simpl in Hrun;
    [|done].
  destruct (ancestorRows _ _ _ _ _ _) as [[rows counter]|] eqn:Hrows; simpl in Hrun; [|done].
  injection Hrun as <-. simpl. apply Forall_app. split; [done|].
  constructor; [|done]. apply ancestorRows_initial in Hrows; [done|done|].
  constructor; [|done]. by eapply initialRow_node.
Qed.

Lemma initialColumns_initial fuel model columns0 :
  initialColumns fuel model = Some columns0 → Forall (initialColumn model) columns0.
Proof.
  unfold initialColumns. intros Hrun.
  destruct (forM _ _ _) as [st|] eqn:Hloop; simpl in Hrun; [|done].
  injection Hrun as <-.
  apply (forM_inv (λ st, Forall (initialColumn model) (Synthesis.columns st))) in Hloop;
    [done| |by constructor].
  intros s a s' Hs Hstep. by eapply synthesizeColumn_initial.
Qed.

Lemma initialColumn_rowAt model columns0 x y r :
  Forall (initialColumn model) columns0 → rowAt columns0 x y = Some r → initialRow model r.
Proof.
  intros Hall Hr. unfold rowAt in Hr.
  destruct (columns0 !! x) as [col|] eqn:Hcol; simpl in Hr; [|done].
  rewrite Forall_lookup in Hall. destruct (Hall _ _ Hcol) as [_ Hrows].
  rewrite Forall_lookup in Hrows. by eapply Hrows.
Qed.

Lemma initialColumn_allCells model columns0 :
  Forall (initialColumn model) columns0 → allCells columns0.
Proof.
  intros Hall x y r Hr.
  destruct (initialColumn_rowAt _ _ _ _ _ Hall Hr) as (c & -> & _). by exists c.
Qed.

Lemma initialColumn_first model columns0 x :
  Forall (initialColumn model) columns0 → (x < length columns0)%nat →
  is_Some (rowAt columns0 x 0).
Proof.
  intros Hall Hx. apply lookup_lt_is_Some in Hx as [col Hcol].
  rewrite Forall_lookup in Hall. destruct (Hall _ _ Hcol) as [Hne _].
  unfold rowAt. rewrite Hcol. simpl. destruct (IColumn.rows col); [done|by eexists].
Qed.

(** What [buildColumns] returns is the merge of what phase 1 made. *)
Lemma buildColumns_merging fuel model columns :
  buildColumns fuel model = Some columns →
  ∃ columns0,
    initialColumns fuel model = Some columns0 ∧
    mergeColumns columns0 = Some columns ∧
    Forall (initialColumn model) columns0 ∧
    merging columns0 (1 + (length columns0 - 1)) 0 columns.
Proof.
  unfold buildColumns. intros Hrun.
  destruct (initialColumns fuel model) as [columns0|] eqn:Hinit; simpl in Hrun; [|done].
  exists columns0. pose proof (initialColumns_initial _ _ _ Hinit) as Hall.
  split; [done|]. split; [done|]. split; [done|].
  apply mergeColumns_merging; [|done]. by eapply initialColumn_allCells.
Qed.

(** *** buildColumns returns *)

Lemma ancestorRows_returns model selfTime fuel : ∀ id counter rows,
  ancestorsEnd fuel (IProfileModel.nodes model) id →
  is_Some (ancestorRows fuel model selfTime id counter rows).
Proof.
  induction fuel as [|fuel IH]; intros id counter rows Hend; [done|].
  simpl in *. destruct (truthyNumber id); [|by eexists].
  destruct (lookupZ _ _) as [node|]; [|done]. simpl. by apply IH.
Qed.

Lemma synthesizeColumn_returns fuel model st i :
  sampleReady fuel model i → is_Some (synthesizeColumn fuel model st i).
Proof.
  intros (sample & root & selfTime & Hs & Hroot & Hd & Hend).
  unfold synthesizeColumn. rewrite Hs. simpl. rewrite Hroot. simpl. rewrite Hd. simpl.
  destruct (ancestorRows_returns model selfTime fuel (IComputedNode.parent root)
              (Synthesis.graphIdCounter st + 1)
              [Cell (FlameCell.mk
                       (lookupZ (IProfileModel.locations model)
                          (IComputedNode.locationId root))
                       (Synthesis.graphIdCounter st) selfTime 0)] Hend)
    as [[rows counter] ->].
  by eexists.
Qed.

Lemma initialColumns_returns fuel model :
  Forall (sampleReady fuel model) (seq 1 (length (IProfileModel.samples model) - 2)) →
  is_Some (initialColumns fuel model).
Proof.
  intros Hready. unfold initialColumns.
  generalize (Synthesis.mk [] 0 0). revert Hready.
  generalize (seq 1 (length (IProfileModel.samples model) - 2)).
  induction l as [|i l IH]; intros Hready st; [by eexists|].
  apply Forall_cons in Hready as [Hi Hready].
  rewrite forM_cons.
  destruct (synthesizeColumn_returns fuel model st i Hi) as [st' ->].
  simpl. by apply IH.
Qed.

(** On columns of cells with ids, a turn of the merge loop does not
    throw. *)
Lemma mergeRow_no_throw model columns0 k y columns :
  validLocations model → Forall (initialColumn model) columns0 → (1 ≤ k)%nat →
  merging columns0 k y columns →
  is_Some (rowAt columns0 k y) →
  mergeRow k y columns ≠ Throw.
Proof.
  intros Hvalid Hall Hk Hinv [r Hr0].
  destruct (initialColumn_rowAt _ _ _ _ _ Hall Hr0) as (c & -> & Hid).
  destruct (Hid Hvalid) as [id Hc].
  assert (Hcurrent : rowAt columns k y = Some (Cell c)).
  { rewrite (merging_untouched _ _ _ _ Hinv); [done|]. unfold touched. lia. }
  unfold mergeRow. rewrite Hcurrent.
  destruct (rowAt columns (k - 1) y) as [[prev|p]|] eqn:Hprev.
  - case_decide; [|done]. unfold accumulate.
    rewrite rowAt_setRowAt_ne by (intros [= ?]; lia). by rewrite Hprev.
  - destruct (merging_merged _ _ _ _ Hinv _ _ _ Hprev) as (p' & -> & Hlt & [t Ht] & _).
    rewrite lookupZ_rowAt, Ht. simpl. case_decide; [done|].
    unfold accumulate. rewrite Nat2Z.id.
    rewrite rowAt_setRowAt_ne by (intros [= ?]; lia). by rewrite Ht.
  - simpl. rewrite Hc. by case_decide.
Qed.

Lemma mergeRows_returns model columns0 k : ∀ n y columns,
  validLocations model → Forall (initialColumn model) columns0 → (1 ≤ k)%nat →
  merging columns0 k y columns →
  (∀ y', (y ≤ y' < y + n)%nat → is_Some (rowAt columns0 k y')) →
  is_Some (mergeRows k (seq y n) columns).
Proof.
  induction n as [|n IH]; intros y columns Hvalid Hall Hk Hinv Hrows; [by eexists|].
  simpl. pose proof (mergeRow_no_throw _ _ _ _ _ Hvalid Hall Hk Hinv (Hrows y ltac:(lia)))
    as Hno.
  destruct (mergeRow k y columns) as [| |columns1] eqn:Hstep; [done|by eexists|].
  apply mergeRow_Continue in Hstep as (p & c & t & Hstep); [|done].
  apply IH; [done|done|done| |].
  - eapply merging_step; [by eapply initialColumn_allCells|done|done|done].
  - intros y' Hy'. apply Hrows. lia.
Qed.

Lemma mergeColumns_returns_from model columns0 : ∀ m k columns,
  validLocations model → Forall (initialColumn model) columns0 → (1 ≤ k)%nat →
  (k + m ≤ length columns0)%nat →
  merging columns0 k 0 columns →
  is_Some (forM mergeColumn (seq k m) columns).
Proof.
  induction m as [|m IH]; intros k columns Hvalid Hall Hk Hlen Hinv; [by eexists|].
  cbn [seq]. rewrite forM_cons.
  assert (Hstep : is_Some (mergeColumn columns k)).
  { unfold mergeColumn.
    destruct (lookup_lt_is_Some_2 columns k) as [col Hcol].
    { rewrite (merging_length _ _ _ _ Hinv). lia. }
    rewrite Hcol. simpl.
    apply (mergeRows_returns model columns0); [done|done|done|done|].
    intros y' Hy'. apply (merging_shape _ _ _ _ Hinv).
    unfold rowAt. rewrite Hcol. simpl. apply lookup_lt_is_Some. lia. }
  destruct Hstep as [columns1 Hstep]. rewrite Hstep. simpl.
  apply (IH (S k)); [done|done|lia|lia|].
  eapply mergeColumn_merging; [by eapply initialColumn_allCells|done|done|done].
Qed.

(** [buildColumns] returns for every model whose nodes have a location
    and whose interior samples can each be made into a column. *)
Lemma buildColumns_returns fuel model :
  validLocations model →
  Forall (sampleReady fuel model) (seq 1 (length (IProfileModel.samples model) - 2)) →
  is_Some (buildColumns fuel model).
Proof.
  intros Hvalid Hready. unfold buildColumns.
  destruct (initialColumns_returns _ _ Hready) as [columns0 Hinit].
  rewrite Hinit. simpl. pose proof (initialColumns_initial _ _ _ Hinit) as Hall.
  unfold mergeColumns.
  destruct (decide (length columns0 = 0%nat)) as [Hempty|Hne].
  { rewrite Hempty. by eexists. }
  apply (mergeColumns_returns_from model columns0); [done|done|lia|lia|].
  apply merging_initial. by eapply initialColumn_allCells.
Qed.

(** *** The merged columns *)

(** C7. In the columns that [buildColumns] returns, a number at row [y]
    of column [x] is the index [x' < x] of a column whose row [y] is a
    full cell, and a full cell holds the sum of the [selfTime] and of the
    [aggregateTime] that phase 1 gave, at that row, to every column it
    represents (its own column and the columns whose row is its index). *)
Theorem buildColumns_merged fuel model columns :
  buildColumns fuel model = Some columns →
  ∃ columns0,
    initialColumns fuel model = Some columns0 ∧
    mergeColumns columns0 = Some columns ∧
    ∀ x y,
      (∀ p, rowAt columns x y = Some (Merged p) →
            ∃ x' : nat, p = Z.of_nat x' ∧ (x' < x)%nat ∧
                        ∃ c, rowAt columns x' y = Some (Cell c)) ∧
      (∀ c, rowAt columns x y = Some (Cell c) →
            FlameCell.selfTime c
              = representedTime FlameCell.selfTime columns0 columns x y ∧
            FlameCell.aggregateTime c
              = representedTime FlameCell.aggregateTime columns0 columns x y).
Proof.
  intros Hrun.
  destruct (buildColumns_merging _ _ _ Hrun) as (columns0 & Hinit & Hmerge & _ & Hinv).
  exists columns0. split; [done|]. split; [done|]. intros x y. split.
  - intros p Hp.
    destruct (merging_merged _ _ _ _ Hinv _ _ _ Hp) as (x' & -> & Hlt & Hcell & _).
    by exists x'.
  - intros c Hc.
    destruct (merging_cell _ _ _ _ Hinv _ _ _ Hc) as (c0 & _ & _ & _ & Hs & Ha). done.
Qed.

(** C7, at four columns of which the last three merge into the first. *)
Lemma buildColumns_merged_witness :
  ∃ model profile' columns,
    @buildModel plainPaths 10 flameProfile = Some (model, profile') ∧
    buildColumns 10 model = Some columns ∧
    ∃ columns0,
      initialColumns 10 model = Some columns0 ∧
      mergeColumns columns0 = Some columns ∧
      ∀ x y,
        (∀ p, rowAt columns x y = Some (Merged p) →
              ∃ x' : nat, p = Z.of_nat x' ∧ (x' < x)%nat ∧
                          ∃ c, rowAt columns x' y = Some (Cell c)) ∧
        (∀ c, rowAt columns x y = Some (Cell c) →
              FlameCell.selfTime c
                = representedTime FlameCell.selfTime columns0 columns x y ∧
              FlameCell.aggregateTime c
                = representedTime FlameCell.aggregateTime columns0 columns x y).
Proof.
  eexists _, _, _. split; [vm_compute; reflexivity|].
  split; [vm_compute; reflexivity|].
  eapply (buildColumns_merged 10). vm_compute. reflexivity.
Defined.

(** *** Merging again *)

Lemma forM_fixed {S A} (body : S → A → option S) (l : list A) (s : S) :
  (∀ a, a ∈ l → body s a = Some s) → forM body l s = Some s.
Proof.
  induction l as [|a l IH]; intros Hbody; [done|].
  rewrite forM_cons, Hbody by (by left). simpl. apply IH.
  intros a' Ha'. apply Hbody. by right.
Qed.

(** In merged columns the merge loop stops at the first row of every
    column. *)
Lemma merged_first_row_breaks model columns0 columns x :
  validLocations model →
  Forall (initialColumn model) columns0 →
  merging columns0 (1 + (length columns0 - 1)) 0 columns →
  (1 ≤ x < length columns)%nat →
  mergeRow x 0 columns = Break.
Proof.
  intros Hvalid Hall Hinv Hx.
  assert (Hlen : length columns = length columns0) by apply Hinv.
  assert (Hids : ∀ x' c, rowAt columns x' 0%nat = Some (Cell c) → is_Some (FlameCell.id c)).
  { intros x' c Hc.
    destruct (merging_cell _ _ _ _ Hinv _ _ _ Hc) as (c0 & Hc0 & Hloc & _).
    destruct (initialColumn_rowAt _ _ _ _ _ Hall Hc0) as (c0' & [= <-] & Hid).
    unfold FlameCell.id. rewrite Hloc. by apply Hid. }
  destruct (proj2 (merging_shape _ _ _ _ Hinv x 0%nat)) as [r Hr].
  { eapply initialColumn_first; [done|lia]. }
  apply mergeRow_Break. exists r. destruct r as [c|p].
  - destruct (merging_blocked _ _ _ _ Hinv x c) as (i & Hi & Hne); [lia|done|].
    by exists i.
  - destruct (merging_merged _ _ _ _ Hinv _ _ _ Hr) as (p' & -> & Hlt & [t Ht] & Hspan).
    destruct (Hids _ _ Ht) as [id Hid].
    exists (Some id). split; [done|]. split; [|done].
    unfold comparedId. destruct (decide (p' = x - 1)%nat) as [->|Hne].
    + by rewrite Ht, Hid.
    + rewrite Hspan by lia. rewrite lookupZ_rowAt, Ht. simpl. by rewrite Hid.
Qed.

(** Merging again the merged columns of a model whose nodes all have a
    location changes nothing. *)
Lemma mergeColumns_fixed fuel model columns :
  validLocations model →
  buildColumns fuel model = Some columns →
  mergeColumns columns = Some columns.
Proof.
  intros Hvalid Hrun.
  destruct (buildColumns_merging _ _ _ Hrun) as (columns0 & _ & _ & Hall & Hinv).
  unfold mergeColumns. apply forM_fixed. intros x Hx. apply elem_of_seq in Hx.
  unfold mergeColumn.
  destruct (columns !! x) as [col|] eqn:Hcol; [|apply lookup_ge_None in Hcol; lia].
  simpl. destruct (IColumn.rows col) as [|r rows]; [done|].
  simpl. rewrite (merged_first_row_breaks model columns0); [done|done|done|done|lia].
Qed.

(** [computeAggregateTime] keeps every field but [aggregateTime]. *)
Lemma computeAggregateTime_preserves {B} (g : IComputedNode.t → B) :
  (∀ v n, g (IComputedNode.setAggregateTime v n) = g n) →
  ∀ fuel index nodes v nodes',
    computeAggregateTime fuel index nodes = Some (v, nodes') → g <$> nodes' = g <$> nodes.
Proof.
  intros Hg. induction fuel as [|fuel IH]; intros index nodes v nodes' Hrun; [done|].
  simpl in Hrun. destruct (lookupZ nodes index) as [row|]; simpl in Hrun; [|done].
  case_decide.
  { by injection Hrun as <- <-. }
  destruct (sumChildren _ _ _ _) as [[total nodes1]|] eqn:Hsum; simpl in Hrun; [|done].
  injection Hrun as <- <-. rewrite map_alterZ_id by done.
  clear -IH Hsum. revert Hsum.
  generalize (IComputedNode.selfTime row). generalize (IComputedNode.children row).
  intros cs. revert nodes. induction cs as [|c cs IHcs]; intros nodes acc Hsum;
    simpl in Hsum.
  - by injection Hsum as <- <-.
  - destruct (computeAggregateTime fuel c nodes) as [[v nodes2]|] eqn:Hc; simpl in Hsum;
      [|done].
    apply IH in Hc as <-. by eapply IHcs.
Qed.

Section BuiltModel.
Context `{PathUtils}.

(** Step 3 reads the location of every node, so in a model that
    [buildModel] returned every node has one. *)
Lemma buildModel_validLocations fuel profile model profile' :
  buildModel fuel profile = Some (model, profile') → validLocations model.
Proof.
  intros Hrun i node Hnode.
  destruct (ICpuProfileRaw.samples profile) as [samples|] eqn:Hs;
    destruct (ICpuProfileRaw.timeDeltas profile) as [timeDeltas|] eqn:Htd.
  2-4: unfold buildModel in Hrun; rewrite Hs, Htd in Hrun; injection Hrun as <- <-;
       simpl in Hnode; unfold lookupZ in Hnode; case_decide; done.
  destruct (buildModel_steps _ _ _ _ _ _ Hs Htd Hrun)
    as (locations & slots & locations1 & nodes & nodes1 & nodes2
        & _ & _ & _ & _ & _ & Hroll & _).
  apply (forM_Forall
           (λ st, IComputedNode.locationId <$> fst st = IComputedNode.locationId <$> nodes2
                  ∧ length (snd st) = length locations1)
           (λ i, ∀ node, nodes2 !! i = Some node →
                         is_Some (lookupZ locations1 (IComputedNode.locationId node))))
    in Hroll as [[Hids Hlen] Hall]; [| |done].
  - simpl in *. apply lookupZ_Some in Hnode as [Hi Hnode].
    assert (Hnode2 : IComputedNode.locationId <$> nodes2 !! Z.to_nat i
                     = Some (IComputedNode.locationId node))
      by (by rewrite <- list_lookup_fmap, <- Hids, list_lookup_fmap, Hnode).
    destruct (nodes2 !! Z.to_nat i) as [node2|] eqn:Hnode2'; [|done].
    injection Hnode2 as Hid.
    rewrite Forall_forall in Hall. specialize (Hall (Z.to_nat i)).
    rewrite <- Hid. apply lookupZ_is_Some. rewrite Hlen. apply lookupZ_is_Some.
    apply Hall; [|done]. apply elem_of_seq. apply lookup_lt_Some in Hnode2'. lia.
  - intros st a st' [Hids Hlen] Hstep. unfold rollUp in Hstep.
    destruct (fst st !! a) as [row|] eqn:Hrow; simpl in Hstep; [|done].
    destruct (lookupZ (snd st) _) as [location|] eqn:Hlocation; simpl in Hstep; [|done].
    destruct (computeAggregateTime fuel _ _) as [[aggregate nodes']|] eqn:Hc;
      simpl in Hstep; [|done].
    injection Hstep as <-. simpl.
    apply (computeAggregateTime_preserves IComputedNode.locationId) in Hc; [|done].
    rewrite Hc, length_alterZ. split; [done|].
    intros node2 Hnode2.
    assert (Hsame : IComputedNode.locationId <$> fst st !! a
                    = Some (IComputedNode.locationId node2))
      by (by rewrite <- list_lookup_fmap, Hids, list_lookup_fmap, Hnode2).
    rewrite Hrow in Hsame. injection Hsame as <-.
    apply lookupZ_is_Some. rewrite <- Hlen. apply lookupZ_is_Some. by eexists.
Qed.

End BuiltModel.

(** C8. Running the merge phase a second time, on the columns that
    [buildColumns] returned for a built model, returns them unchanged: no
    cell is replaced by a number, no number changes and no time is
    added. *)
Theorem mergeColumns_again `{PathUtils} fuel profile model profile' fuel' columns :
  buildModel fuel profile = Some (model, profile') →
  buildColumns fuel' model = Some columns →
  mergeColumns columns = Some columns.
Proof.
  intros Hmodel Hcolumns. apply (mergeColumns_fixed fuel' model); [|done].
  by eapply buildModel_validLocations.
Qed.

(** C8, at the four columns. *)
Lemma mergeColumns_again_witness :
  ∃ model profile' columns,
    @buildModel plainPaths 10 flameProfile = Some (model, profile') ∧
    buildColumns 10 model = Some columns ∧
    mergeColumns columns = Some columns.
Proof.
  eexists _, _, _. split; [vm_compute; reflexivity|].
  split; [vm_compute; reflexivity|].
  eapply (@mergeColumns_again plainPaths 10 flameProfile _ _ 10);
    vm_compute; reflexivity.
Defined.

(** *** Filtering by the root accessors *)

(** [rootAccessors] does not throw, and makes an accessor for every
    column whose first row is a cell. *)
Lemma rootAccessors_from columns m : ∀ a accessors,
  ∃ accessors',
    forM (λ accessors x,
            if isObject (rowAt columns x 0)
            then accessor ← newLocationAccessor columns x 0; Some (accessors ++ [accessor])
            else Some accessors)
      (seq a m) accessors = Some accessors' ∧
    (∀ accessor, accessor ∈ accessors → accessor ∈ accessors') ∧
    (∀ x c, (a ≤ x < a + m)%nat → rowAt columns x 0 = Some (Cell c) →
            ∃ accessor, accessor ∈ accessors' ∧
                        LocationAccessor.x accessor = x ∧
                        LocationAccessor.y accessor = 0%nat).
Proof.
  induction m as [|m IH]; intros a accessors.
  - exists accessors. split; [done|]. split; [done|]. intros x c Hx. lia.
  - cbn [seq]. rewrite forM_cons.
    destruct (rowAt columns a 0) as [[c|p]|] eqn:Hrow; simpl.
    + unfold newLocationAccessor. rewrite Hrow. simpl.
      destruct (IH (S a) (accessors ++ [LocationAccessor.mk columns a 0
                                          (FlameCell.location c) (FlameCell.selfTime c)
                                          (FlameCell.aggregateTime c)]))
        as (accessors' & Hrun & Hkeep & Hnew).
      exists accessors'. split; [done|]. split.
      * intros accessor Hin. apply Hkeep. apply elem_of_app. by left.
      * intros x c' Hx Hc'. destruct (decide (x = a)) as [->|Hne].
        -- eexists. split; [apply Hkeep, elem_of_app; right; by left|done].
        -- apply (Hnew x c'); [lia|done].
    + destruct (IH (S a) accessors) as (accessors' & Hrun & Hkeep & Hnew).
      exists accessors'. split; [done|]. split; [done|].
      intros x c' Hx Hc'. destruct (decide (x = a)) as [->|Hne]; [congruence|].
      apply (Hnew x c'); [lia|done].
    + destruct (IH (S a) accessors) as (accessors' & Hrun & Hkeep & Hnew).
      exists accessors'. split; [done|]. split; [done|].
      intros x c' Hx Hc'. destruct (decide (x = a)) as [->|Hne]; [congruence|].
      apply (Hnew x c'); [lia|done].
Qed.

Lemma markSpan_length accessor rest : ∀ x validX,
  length (markSpan accessor x rest validX) = length validX.
Proof.
  induction rest as [|col rest IH]; intros x validX; simpl; [done|].
  destruct (isMergedInto _ _); [|done]. by rewrite IH, length_insert.
Qed.

Lemma insert_true_mono (validX : list bool) x i :
  validX !! i = Some true → <[x := true]> validX !! i = Some true.
Proof.
  intros Hi. destruct (decide (x = i)) as [->|Hne].
  - apply list_lookup_insert_eq. by eapply lookup_lt_Some.
  - by rewrite list_lookup_insert_ne.
Qed.

Lemma markSpan_mono accessor rest : ∀ x validX i,
  validX !! i = Some true → markSpan accessor x rest validX !! i = Some true.
Proof.
  induction rest as [|col rest IH]; intros x validX i Hi; simpl; [done|].
  destruct (isMergedInto _ _); [|done]. apply IH. by apply insert_true_mono.
Qed.

Lemma drop_cons_inv {A} (l : list A) x a rest :
  drop x l = a :: rest → l !! x = Some a ∧ drop (S x) l = rest.
Proof.
  intros Hdrop. split.
  - rewrite <- (Nat.add_0_r x), <- lookup_drop, Hdrop. done.
  - replace (S x) with (x + 1)%nat by lia. rewrite <- drop_drop, Hdrop. done.
Qed.

(** The inner loop marks a run of columns whose row is the accessor's
    column. *)
Lemma markSpan_marks columns accessor rest : ∀ x validX xmax,
  rest = drop x columns →
  (x ≤ xmax < length columns)%nat →
  length validX = length columns →
  (∀ i, (x ≤ i ≤ xmax)%nat →
        isMergedInto (rowAt columns i (LocationAccessor.y accessor))
          (LocationAccessor.x accessor) = true) →
  markSpan accessor x rest validX !! xmax = Some true.
Proof.
  induction rest as [|col rest IH]; intros x validX xmax Hrest Hx Hlen Hrun.
  - symmetry in Hrest. apply drop_nil_inv in Hrest. lia.
  - symmetry in Hrest. apply drop_cons_inv in Hrest as [Hcol Hrest].
    simpl. pose proof (Hrun x) as Hhere. unfold rowAt in Hhere. rewrite Hcol in Hhere.
    simpl in Hhere. rewrite Hhere by lia.
    destruct (decide (x = xmax)) as [->|Hne].
    + apply markSpan_mono. apply list_lookup_insert_eq. lia.
    + apply IH; [done|lia|by rewrite length_insert|]. intros i Hi. apply Hrun. lia.
Qed.

Lemma markAccessor_length columns validX accessor :
  length (markAccessor columns validX accessor) = length validX.
Proof. unfold markAccessor. by rewrite markSpan_length, length_insert. Qed.

Lemma markAccessor_mono columns validX accessor i :
  validX !! i = Some true → markAccessor columns validX accessor !! i = Some true.
Proof. intros Hi. unfold markAccessor. by apply markSpan_mono, insert_true_mono. Qed.

Lemma markAccessor_marks columns validX accessor xmax :
  length validX = length columns →
  (LocationAccessor.x accessor ≤ xmax < length columns)%nat →
  (∀ i, (LocationAccessor.x accessor < i ≤ xmax)%nat →
        isMergedInto (rowAt columns i (LocationAccessor.y accessor))
          (LocationAccessor.x accessor) = true) →
  markAccessor columns validX accessor !! xmax = Some true.
Proof.
  intros Hlen Hx Hrun. unfold markAccessor.
  destruct (decide (LocationAccessor.x accessor = xmax)) as [Heq|Hne].
  - apply markSpan_mono. rewrite Heq. apply list_lookup_insert_eq. lia.
  - apply (markSpan_marks columns); [done|lia|by rewrite length_insert|].
    intros i Hi. apply Hrun. lia.
Qed.

Lemma marked_by_member columns accessors : ∀ validX accessor xmax,
  accessor ∈ accessors →
  length validX = length columns →
  (LocationAccessor.x accessor ≤ xmax < length columns)%nat →
  (∀ i, (LocationAccessor.x accessor < i ≤ xmax)%nat →
        isMergedInto (rowAt columns i (LocationAccessor.y accessor))
          (LocationAccessor.x accessor) = true) →
  foldl (markAccessor columns) validX accessors !! xmax = Some true.
Proof.
  induction accessors as [|a accessors IH]; intros validX accessor xmax Hin Hlen Hx Hrun.
  - by apply elem_of_nil in Hin.
  - simpl. apply elem_of_cons in Hin as [->|Hin].
    + assert (Hkeep : ∀ l v, v !! xmax = Some true →
                foldl (markAccessor columns) v l !! xmax = Some true).
      { induction l as [|a' l IHl]; intros v Hv; simpl; [done|].
        apply IHl. by apply markAccessor_mono. }
      apply Hkeep. by apply markAccessor_marks.
    + apply (IH _ accessor); [done|by rewrite markAccessor_length|done|done].
Qed.

(** When every column is marked, the second loop copies the columns. *)
Lemma adjust_all_valid columns validX :
  (∀ x, (x < length columns)%nat → validX !! x = Some true) →
  ∀ m, (m ≤ length columns)%nat →
       foldl (adjustColumn columns validX) (0, []) (seq 0 m) = (0, take m columns).
Proof.
  intros Hvalid. induction m as [|m IH]; intros Hm; [done|].
  rewrite seq_S, foldl_app, IH by lia. simpl.
  unfold adjustColumn. destruct (lookup_lt_is_Some_2 columns m) as [col Hcol]; [lia|].
  rewrite Hcol, Hvalid by lia. simpl. by rewrite (take_S_r _ _ _ Hcol).
Qed.

(** C9. For the columns that [buildColumns] returns, [rootAccessors]
    yields accessors, and [getFilteredColumns] with all of them returns
    the column list itself: no column is dropped and no number is
    re-offset. *)
Theorem getFilteredColumns_rootAccessors fuel model columns :
  buildColumns fuel model = Some columns →
  ∃ accessors,
    rootAccessors columns = Some accessors ∧
    getFilteredColumns columns accessors = columns.
Proof.
  intros Hrun.
  destruct (buildColumns_merging _ _ _ Hrun) as (columns0 & _ & _ & Hall & Hinv).
  destruct (rootAccessors_from columns (length columns) 0 [])
    as (accessors & Haccessors & _ & Hroots).
  exists accessors. split; [done|].
  unfold getFilteredColumns.
  rewrite adjust_all_valid; [by rewrite take_ge| |done].
  intros x Hx.
  destruct (proj2 (merging_shape _ _ _ _ Hinv x 0%nat)) as [r Hr].
  { eapply initialColumn_first; [done|]. by rewrite <- (merging_length _ _ _ _ Hinv). }
  destruct r as [c|p].
  - destruct (Hroots x c) as (accessor & Hin & Hax & Hay); [lia|done|].
    apply (marked_by_member _ _ _ accessor); [done|by rewrite length_replicate|lia|].
    intros i Hi. lia.
  - destruct (merging_merged _ _ _ _ Hinv _ _ _ Hr) as (p' & -> & Hlt & [t Ht] & Hspan).
    destruct (Hroots p' t) as (accessor & Hin & Hax & Hay); [lia|done|].
    apply (marked_by_member _ _ _ accessor); [done|by rewrite length_replicate|lia|].
    intros i Hi. rewrite Hax, Hay, Hspan by lia. simpl. apply Z.eqb_refl.
Qed.

(** C9, at the four columns. *)
Lemma getFilteredColumns_rootAccessors_witness :
  ∃ model profile' columns,
    @buildModel plainPaths 10 flameProfile = Some (model, profile') ∧
    buildColumns 10 model = Some columns ∧
    ∃ accessors,
      rootAccessors columns = Some accessors ∧
      getFilteredColumns columns accessors = columns.
Proof.
  eexists _, _, _. split; [vm_compute; reflexivity|].
  lazymatch goal with
  | |- buildColumns 10 ?model = _ ∧ _ =>
      split; [vm_compute; reflexivity|];
      eapply (getFilteredColumns_rootAccessors 10 model); vm_compute; reflexivity
  end.
Defined.

(** *** Shape of a built model *)

Lemma sumZ_seq_lookup {A} (h : option A → Z) (l : list A) :
  sumZ ((λ i, h (l !! i)) <$> seq 0 (length l)) = sumZ ((λ a, h (Some a)) <$> l).
Proof.
  induction l as [|a l IH]; [done|].
  cbn [length seq]. rewrite !fmap_cons, !sumZ_cons, <- fmap_S_seq, <- list_fmap_compose.
  by rewrite <- IH.
Qed.

Lemma sumZ_filter {A} (f : A → Z) (P : A → bool) (l : list A) :
  sumZ ((λ a, if P a then f a else 0) <$> l) = sumZ (f <$> List.filter P l).
Proof.
  induction l as [|a l IH]; [done|].
  rewrite fmap_cons, sumZ_cons. cbn [List.filter].
  destruct (P a); [rewrite fmap_cons, sumZ_cons|]; lia.
Qed.

Lemma addTimes_zero (l : ILocation.t) : ILocation.addTimes 0 0 l = l.
Proof. destruct l. unfold ILocation.addTimes. simpl. f_equal; lia. Qed.

Lemma addTimes_addTimes s a s' a' (l : ILocation.t) :
  ILocation.addTimes s a (ILocation.addTimes s' a' l) = ILocation.addTimes (s' + s) (a' + a) l.
Proof. destruct l. unfold ILocation.addTimes. simpl. f_equal; lia. Qed.

Lemma addTicks_zero (l : ILocation.t) : ILocation.addTicks 0 l = l.
Proof. destruct l. unfold ILocation.addTicks. simpl. f_equal; lia. Qed.

Lemma addTicks_addTicks d d' (l : ILocation.t) :
  ILocation.addTicks d (ILocation.addTicks d' l) = ILocation.addTicks (d' + d) l.
Proof. destruct l. unfold ILocation.addTicks. simpl. f_equal; lia. Qed.

(** What each loop of [buildModel] leaves alone. *)
Lemma addPositionTicks_preserves {B} (g : ILocation.t → B) locations child locations' :
  (∀ d l, g (ILocation.addTicks d l) = g l) →
  addPositionTicks locations child = Some locations' → g <$> locations' = g <$> locations.
Proof.
  intros Hg. unfold addPositionTicks. destruct (truthyNumber _); [|by intros [= <-]].
  destruct (lookupZ _ _); simpl; [|done]. intros [= <-]. by rewrite map_alterZ_id.
Qed.

Lemma placeNode_locations {B} (g : ILocation.t → B) st node st' :
  (∀ d l, g (ILocation.addTicks d l) = g l) →
  placeNode st node = Some st' → g <$> snd st' = g <$> snd st.
Proof.
  intros Hg Hplace. unfold placeNode in Hplace.
  destruct (lookupZ (fst st) _) as [slot|]; simpl in Hplace; [|done].
  destruct (RawNode.locationId node) as [locationId|]; simpl in Hplace; [|done].
  destruct (forM addPositionTicks _ _) as [locations'|] eqn:Hticks; simpl in Hplace; [|done].
  injection Hplace as <-. simpl.
  apply (forM_inv (λ locs, g <$> locs = g <$> snd st)) in Hticks; [done| |done].
  intros locs child locs' <- Hstep. by eapply addPositionTicks_preserves.
Qed.

Lemma placed_locations {B} (g : ILocation.t → B) nodes st st' :
  (∀ d l, g (ILocation.addTicks d l) = g l) →
  forM placeNode nodes st = Some st' → g <$> snd st' = g <$> snd st.
Proof.
  intros Hg Hrun.
  apply (forM_inv (λ s, g <$> snd s = g <$> snd st)) in Hrun; [done| |done].
  intros s node s' <- Hstep. by eapply placeNode_locations.
Qed.

Lemma linkChildren_preserves {B} (g : IComputedNode.t → B) nodes i nodes' :
  (∀ p n, g (IComputedNode.setParent p n) = g n) →
  linkChildren nodes i = Some nodes' → g <$> nodes' = g <$> nodes.
Proof.
  intros Hg. unfold linkChildren. destruct (nodes !! i) as [node|]; simpl; [|done].
  intros Hrun.
  apply (forM_inv (λ ns, g <$> ns = g <$> nodes)) in Hrun; [done| |done].
  intros ns c ns' <- Hstep. unfold linkChild in Hstep.
  destruct (lookupZ ns c); simpl in Hstep; [|done]. injection Hstep as <-.
  by rewrite map_alterZ_id.
Qed.

Lemma linked_preserves {B} (g : IComputedNode.t → B) l nodes nodes' :
  (∀ p n, g (IComputedNode.setParent p n) = g n) →
  forM linkChildren l nodes = Some nodes' → g <$> nodes' = g <$> nodes.
Proof.
  intros Hg Hrun.
  apply (forM_inv (λ ns, g <$> ns = g <$> nodes)) in Hrun; [done| |done].
  intros ns i ns' <- Hstep. by eapply linkChildren_preserves.
Qed.

Lemma addSamples_preserves {B} (g : IComputedNode.t → B) samples timeDeltas l nodes nodes' :
  (∀ d n, g (IComputedNode.addSelfTime d n) = g n) →
  forM (addSample samples timeDeltas) l nodes = Some nodes' → g <$> nodes' = g <$> nodes.
Proof.
  intros Hg Hrun.
  apply (forM_inv (λ ns, g <$> ns = g <$> nodes)) in Hrun; [done| |done].
  intros ns i ns' <- (sample & delta & _ & _ & _ & ->)%addSample_spec.
  by rewrite map_alterZ_id.
Qed.

Lemma rolledUp_preserves {B C} (gN : IComputedNode.t → B) (gL : ILocation.t → C)
    fuel l st st' :
  (∀ v n, gN (IComputedNode.setAggregateTime v n) = gN n) →
  (∀ s a loc, gL (ILocation.addTimes s a loc) = gL loc) →
  forM (rollUp fuel) l st = Some st' →
  gN <$> fst st' = gN <$> fst st ∧ gL <$> snd st' = gL <$> snd st.
Proof.
  intros HgN HgL Hrun.
  apply (forM_inv (λ s, gN <$> fst s = gN <$> fst st ∧ gL <$> snd s = gL <$> snd st))
    in Hrun; [done| |done].
  intros s i s' [<- <-] Hstep. unfold rollUp in Hstep.
  destruct (fst s !! i) as [node|]; simpl in Hstep; [|done].
  destruct (lookupZ (snd s) _) as [location|]; simpl in Hstep; [|done].
  destruct (computeAggregateTime fuel _ _) as [[aggregate nodes']|] eqn:Hc; simpl in Hstep;
    [|done].
  injection Hstep as <-. simpl.
  apply (computeAggregateTime_preserves gN) in Hc; [|done].
  by rewrite Hc, map_alterZ_id.
Qed.

Section BuiltShape.
Context `{PathUtils}.

(** A model without samples or deltas is empty; any other went through
    the steps. *)
Lemma buildModel_empty_or_steps fuel profile model profile' :
  buildModel fuel profile = Some (model, profile') →
  (IProfileModel.nodes model = [] ∧ IProfileModel.locations model = [] ∧ profile' = profile) ∨
  ∃ samples timeDeltas,
    ICpuProfileRaw.samples profile = Some samples ∧
    ICpuProfileRaw.timeDeltas profile = Some timeDeltas.
Proof.
  intros Hrun.
  destruct (ICpuProfileRaw.samples profile) as [samples|] eqn:Hs;
    destruct (ICpuProfileRaw.timeDeltas profile) as [timeDeltas|] eqn:Htd.
  2-4: left; unfold buildModel in Hrun; rewrite Hs, Htd in Hrun;
       by injection Hrun as <- <-.
  right. by exists samples, timeDeltas.
Qed.

(** The locations as [sourceLocations.map] makes them. *)
Lemma buildLocations_lookup sourceLocations : ∀ id profile j location,
  fst (buildLocations id sourceLocations profile) !! j = Some location →
  ∃ callFrame src,
    location = ILocation.mk (id + Z.of_nat j) 0 0 0 (snd (categorize callFrame src))
                 (fst (categorize callFrame src)) src.
Proof.
  induction sourceLocations as [|[l owner] rest IH]; intros id profile j location Hj;
    simpl in Hj; [done|].
  destruct (categorize _ _) as [callFrame category] eqn:Hcat.
  destruct (buildLocations (id + 1) rest _) as [locations profile2] eqn:Hrest.
  simpl in Hj. destruct j as [|j]; simpl in Hj.
  - injection Hj as <-. eexists _, _. rewrite Hcat. simpl. by rewrite Z.add_0_r.
  - pose proof (IH (id + 1) (writeBackFrame owner callFrame profile) j location) as IH'.
    rewrite Hrest in IH'. destruct (IH' Hj) as (callFrame' & src' & ->).
    exists callFrame', src'. f_equal. lia.
Qed.

End BuiltShape.

Lemma forM_inv_in {S A} (I : S → Prop) (body : S → A → option S) (l : list A) (s s' : S) :
  (∀ s a s', a ∈ l → I s → body s a = Some s' → I s') →
  I s → forM body l s = Some s' → I s'.
Proof.
  revert s. induction l as [|a l IH]; intros s Hbody Hs Hrun.
  - by injection Hrun as <-.
  - rewrite forM_cons in Hrun. destruct (body s a) as [s1|] eqn:Hstep; simpl in Hrun; [|done].
    apply (IH s1); [|by apply (Hbody s a); [left|..]|done].
    intros s2 a2 s2' Hin. apply Hbody. by right.
Qed.

(** Step 1 fills a slot only with the node made of a raw node whose
    [id - 1] is the slot's index. *)
Lemma placeNode_origin (raws : list RawNode.t) st node st' :
  node ∈ raws →
  (∀ j n, fst st !! j = Some (Some n) →
     ∃ raw locationId, raw ∈ raws ∧ RawNode.locationId raw = Some locationId ∧
       n = computedOf raw locationId ∧ 0 ≤ RawNode.id raw - 1 ∧
       j = Z.to_nat (RawNode.id raw - 1)) →
  placeNode st node = Some st' →
  ∀ j n, fst st' !! j = Some (Some n) →
     ∃ raw locationId, raw ∈ raws ∧ RawNode.locationId raw = Some locationId ∧
       n = computedOf raw locationId ∧ 0 ≤ RawNode.id raw - 1 ∧
       j = Z.to_nat (RawNode.id raw - 1).
Proof.
  intros Hin Hst Hplace j n Hj. unfold placeNode in Hplace.
  destruct (lookupZ (fst st) _) as [slot|] eqn:Hslot; simpl in Hplace; [|done].
  destruct (RawNode.locationId node) as [locationId|] eqn:Hloc; simpl in Hplace; [|done].
  destruct (forM addPositionTicks _ _) as [locations'|]; simpl in Hplace; [|done].
  injection Hplace as <-. simpl in Hj. apply lookupZ_lt in Hslot.
  unfold alterZ in Hj. case_decide; [|lia].
  destruct (decide (Z.to_nat (RawNode.id node - 1) = j)) as [<-|Hne].
  - rewrite list_lookup_alter_eq in Hj.
    destruct (fst st !! Z.to_nat (RawNode.id node - 1)); [|done].
    injection Hj as <-. exists node, locationId. by repeat split.
  - rewrite list_lookup_alter_ne in Hj by done. by apply Hst.
Qed.

Lemma placed_origin raws locations slots locations1 :
  forM placeNode raws (replicate (length raws) None, locations) = Some (slots, locations1) →
  ∀ j n, slots !! j = Some (Some n) →
     ∃ raw locationId, raw ∈ raws ∧ RawNode.locationId raw = Some locationId ∧
       n = computedOf raw locationId ∧ 0 ≤ RawNode.id raw - 1 ∧
       j = Z.to_nat (RawNode.id raw - 1).
Proof.
  intros Hrun.
  apply (forM_inv_in
           (λ st, ∀ j n, fst st !! j = Some (Some n) →
              ∃ raw locationId, raw ∈ raws ∧ RawNode.locationId raw = Some locationId ∧
                n = computedOf raw locationId ∧ 0 ≤ RawNode.id raw - 1 ∧
                j = Z.to_nat (RawNode.id raw - 1))
           placeNode raws (replicate (length raws) None, locations) (slots, locations1));
    [| |done].
  - intros st node st' Hin Hst Hstep. by eapply placeNode_origin.
  - simpl. intros j n Hj. apply lookup_replicate in Hj as [? _]. done.
Qed.

Lemma placeNode_slots st node st' :
  placeNode st node = Some st' →
  0 ≤ RawNode.id node - 1 < Z.of_nat (length (fst st)) ∧
  length (fst st') = length (fst st) ∧
  (∀ j, j ≠ Z.to_nat (RawNode.id node - 1) → fst st' !! j = fst st !! j) ∧
  ∃ locationId, RawNode.locationId node = Some locationId ∧
    fst st' !! Z.to_nat (RawNode.id node - 1) = Some (Some (computedOf node locationId)).
Proof.
  intros Hplace. unfold placeNode in Hplace.
  destruct (lookupZ (fst st) _) as [slot|] eqn:Hslot; simpl in Hplace; [|done].
  destruct (RawNode.locationId node) as [locationId|] eqn:Hloc; simpl in Hplace; [|done].
  destruct (forM addPositionTicks _ _) as [locations'|]; simpl in Hplace; [|done].
  injection Hplace as <-. simpl. pose proof (lookupZ_lt _ _ _ Hslot) as Hlt.
  split; [done|]. rewrite length_alterZ. split; [done|].
  unfold alterZ. case_decide; [|lia]. split.
  - intros j Hne. by rewrite list_lookup_alter_ne.
  - exists locationId. split; [done|]. rewrite list_lookup_alter_eq.
    apply lookupZ_Some in Hslot as [_ ->]. done.
Qed.

(** With distinct ids no slot is written twice. *)
Lemma placed_slots : ∀ raws st st',
  NoDup ((λ raw, Z.to_nat (RawNode.id raw - 1)) <$> raws) →
  forM placeNode raws st = Some st' →
  (∀ j, j ∉ (λ raw, Z.to_nat (RawNode.id raw - 1)) <$> raws → fst st' !! j = fst st !! j) ∧
  ∀ raw, raw ∈ raws →
    ∃ locationId, RawNode.locationId raw = Some locationId ∧
      lookupZ (fst st') (RawNode.id raw - 1) = Some (Some (computedOf raw locationId)).
Proof.
  induction raws as [|raw raws IH]; intros st st' Hnodup Hrun.
  - injection Hrun as <-. split; [done|]. intros raw Hin. by apply elem_of_nil in Hin.
  - rewrite forM_cons in Hrun.
    destruct (placeNode st raw) as [st1|] eqn:Hstep; simpl in Hrun; [|done].
    rewrite fmap_cons in Hnodup. apply NoDup_cons in Hnodup as [Hfresh Hnodup].
    destruct (IH _ _ Hnodup Hrun) as [Hkeep Hset].
    destruct (placeNode_slots _ _ _ Hstep) as (Hrange & _ & Hother & locationId & Hloc & Hhere).
    split.
    + intros j Hj. rewrite fmap_cons in Hj. apply not_elem_of_cons in Hj as [Hne Hj].
      rewrite Hkeep by done. by apply Hother.
    + intros raw' [->|Hin]%elem_of_cons; [|by apply Hset].
      exists locationId. split; [done|]. apply lookupZ_Some. split; [lia|].
      by rewrite Hkeep.
Qed.

Lemma mapM_id_lookup {A} (slots : list (option A)) (l : list A) :
  mapM id slots = Some l →
  length l = length slots ∧ ∀ j, slots !! j = Some <$> l !! j.
Proof.
  intros Hl. apply mapM_Some in Hl. split; [symmetry; by eapply Forall2_length|].
  induction Hl as [|slot a slots l Hslot _ IH]; intros j; [done|].
  destruct j as [|j]; simpl; [by rewrite <- Hslot|apply IH].
Qed.

Section BuiltModelShape.
Context `{PathUtils}.

(** The raw node ids of a profile that [buildModel] accepts are 1 to n,
    each once. *)
Lemma placed_permutation raws locations slots locations1 nodes :
  forM placeNode raws (replicate (length raws) None, locations) = Some (slots, locations1) →
  mapM id slots = Some nodes →
  length nodes = length raws ∧
  Forall (λ raw, 0 ≤ RawNode.id raw - 1) raws ∧
  seq 0 (length raws) ≡ₚ (λ raw, Z.to_nat (RawNode.id raw - 1)) <$> raws.
Proof.
  intros Hplace Hslots.
  pose proof (placed_origin _ _ _ _ Hplace) as Horigin.
  destruct (mapM_id_lookup _ _ Hslots) as [Hlen Hlookup].
  apply (forM_Forall (λ st, length (fst st) = length raws)
           (λ raw, 0 ≤ RawNode.id raw - 1)) in Hplace as [Hslen Hall];
    [| |by simpl; rewrite length_replicate].
  2: { intros st raw st' Hst (Hrange & Hlen' & _)%placeNode_slots. split; [congruence|lia]. }
  simpl in Hslen. split; [congruence|]. split; [done|].
  apply submseteq_length_Permutation; [|by rewrite length_fmap, length_seq].
  apply NoDup_submseteq; [apply NoDup_seq|].
  intros j [_ Hj]%elem_of_seq. simpl in Hj.
  destruct (lookup_lt_is_Some_2 nodes j) as [n Hn]; [lia|].
  destruct (Horigin j n) as (raw & locationId & Hin & _ & _ & _ & ->).
  { by rewrite Hlookup, Hn. }
  by apply (list_elem_of_fmap_2 (λ raw, Z.to_nat (RawNode.id raw - 1))).
Qed.

End BuiltModelShape.

(** Steps 1b, 2 and 3 keep the id, the children and the location of
    every node. *)
Lemma built_nodes_shape fuel nodes nodes1 samples timeDeltas nodes2 locations1 st :
  forM linkChildren (seq 0 (length nodes)) nodes = Some nodes1 →
  forM (addSample samples timeDeltas) (seq 1 (length timeDeltas - 1)) nodes1 = Some nodes2 →
  forM (rollUp fuel) (seq 0 (length nodes2)) (nodes2, locations1) = Some st →
  (λ n, (IComputedNode.id n, IComputedNode.children n, IComputedNode.locationId n)) <$> fst st
  = (λ n, (IComputedNode.id n, IComputedNode.children n, IComputedNode.locationId n))
      <$> nodes.
Proof.
  intros Hlink Hsamples Hroll.
  apply (rolledUp_preserves
           (λ n, (IComputedNode.id n, IComputedNode.children n, IComputedNode.locationId n))
           ILocation.id) in Hroll as [-> _]; [|done|done].
  simpl. erewrite addSamples_preserves; [|done|done].
  by eapply linked_preserves.
Qed.

Section BuiltModelIds.
Context `{PathUtils}.

Lemma built_locations_frame {B} (g : ILocation.t → B) fuel raws slots0 locations slots
    locations1 nodes2 nodes3 locations2 :
  (∀ d l, g (ILocation.addTicks d l) = g l) →
  (∀ s a l, g (ILocation.addTimes s a l) = g l) →
  forM placeNode raws (slots0, locations) = Some (slots, locations1) →
  forM (rollUp fuel) (seq 0 (length nodes2)) (nodes2, locations1)
    = Some (nodes3, locations2) →
  g <$> locations2 = g <$> locations.
Proof.
  intros Hticks Htimes Hplace Hroll.
  apply (rolledUp_preserves IComputedNode.id g) in Hroll as [_ Hroll]; [|done|done].
  apply (placed_locations g) in Hplace; [|done]. simpl in *. congruence.
Qed.

(** X1. The arrays of a built model are indexed by id: the node at index
    [i] has id [i] (the raw id less one), and the location at index [i]
    has id [i]. *)
Theorem buildModel_ids fuel profile model profile' :
  buildModel fuel profile = Some (model, profile') →
  (∀ i node, lookupZ (IProfileModel.nodes model) i = Some node →
             IComputedNode.id node = i) ∧
  (∀ i location, lookupZ (IProfileModel.locations model) i = Some location →
                 ILocation.id location = i).
Proof.
  intros Hrun.
  destruct (buildModel_empty_or_steps _ _ _ _ Hrun)
    as [(-> & -> & _)|(samples & timeDeltas & Hs & Htd)].
  { split; intros i x Hx; unfold lookupZ in Hx; case_decide; done. }
  destruct (buildModel_steps _ _ _ _ _ _ Hs Htd Hrun)
    as (locations & slots & locations1 & nodes & nodes1 & nodes2
        & Hloc & Hplace & Hslots & Hlink & Hsamples & Hroll & _).
  split.
  - intros i node Hnode.
    pose proof (built_nodes_shape _ _ _ _ _ _ _ _ Hlink Hsamples Hroll) as Hshape.
    simpl in Hshape. symmetry in Hshape.
    destruct (lookupZ_fmap_eq _ _ _ _ _ Hshape Hnode) as (n & [Hi Hn]%lookupZ_Some & Heq).
    injection Heq as Hid _ _.
    destruct (mapM_id_lookup _ _ Hslots) as [_ Hlookup].
    destruct (placed_origin _ _ _ _ Hplace (Z.to_nat i) n)
      as (raw & locationId & _ & _ & -> & Hpos & Hj).
    { by rewrite Hlookup, Hn. }
    rewrite <- Hid. simpl. lia.
  - intros i location Hlocation.
    pose proof (built_locations_frame ILocation.id _ _ _ _ _ _ _ _ _
                  ltac:(done) ltac:(done) Hplace Hroll) as Hids.
    symmetry in Hids.
    destruct (lookupZ_fmap_eq _ _ _ _ _ Hids Hlocation)
      as (location0 & [Hi Hl0]%lookupZ_Some & Heq).
    pose proof (buildLocations_lookup (fst (ensureSourceLocations profile)) 0
                  (snd (ensureSourceLocations profile)) (Z.to_nat i) location0) as Hmade.
    rewrite Hloc in Hmade. destruct (Hmade Hl0) as (callFrame & src & ->).
    rewrite <- Heq. simpl. lia.
Qed.

(** The call leaves the ids of the raw nodes alone. *)
Lemma built_raw_ids locations profile profile' :
  buildLocations 0 (fst (ensureSourceLocations profile))
    (snd (ensureSourceLocations profile)) = (locations, profile') →
  RawNode.id <$> ICpuProfileRaw.nodes profile' = RawNode.id <$> ICpuProfileRaw.nodes profile.
Proof.
  intros Hloc.
  destruct (ensureSourceLocations_frame profile) as [Hview Hagree].
  pose proof (buildLocations_view _ 0 _ Hagree) as Hview'.
  rewrite Hloc in Hview'. simpl in Hview'. rewrite Hview in Hview'.
  apply (f_equal (λ v, (λ n, fst (fst n)) <$> snd (fst v))) in Hview'. simpl in Hview'.
  by rewrite <- !list_fmap_compose in Hview'.
Qed.

(** X2. [buildModel] builds a model from a profile with samples and
    deltas only when the raw node ids are 1 to n, each once; the node it
    stores at index [id - 1] has the raw node's children, each less one,
    and its location id. *)
Theorem buildModel_reindexed fuel profile model profile' :
  is_Some (ICpuProfileRaw.samples profile) →
  is_Some (ICpuProfileRaw.timeDeltas profile) →
  buildModel fuel profile = Some (model, profile') →
  length (IProfileModel.nodes model) = length (ICpuProfileRaw.nodes profile) ∧
  RawNode.id <$> ICpuProfileRaw.nodes profile
    ≡ₚ (λ i, Z.of_nat i + 1) <$> seq 0 (length (ICpuProfileRaw.nodes profile)) ∧
  ∀ raw, raw ∈ ICpuProfileRaw.nodes profile' →
    ∃ node,
      lookupZ (IProfileModel.nodes model) (RawNode.id raw - 1) = Some node ∧
      IComputedNode.children node
        = default [] (List.map (λ n, n - 1) <$> RawNode.children raw) ∧
      RawNode.locationId raw = Some (IComputedNode.locationId node).
Proof.
  intros [samples Hs] [timeDeltas Htd] Hrun.
  destruct (buildModel_steps _ _ _ _ _ _ Hs Htd Hrun)
    as (locations & slots & locations1 & nodes & nodes1 & nodes2
        & Hloc & Hplace & Hslots & Hlink & Hsamples & Hroll & _).
  pose proof (built_nodes_shape _ _ _ _ _ _ _ _ Hlink Hsamples Hroll) as Hshape.
  simpl in Hshape.
  pose proof (built_raw_ids _ _ _ Hloc) as Hids.
  destruct (placed_permutation _ _ _ _ _ Hplace Hslots) as (Hlen & Hpos & Hperm).
  assert (Hcount : length (IProfileModel.nodes model) = length (ICpuProfileRaw.nodes profile)).
  { pose proof (f_equal length Hshape) as Hl1. pose proof (f_equal length Hids) as Hl2.
    rewrite !length_fmap in Hl1. rewrite !length_fmap in Hl2. lia. }
  split; [done|]. split.
  - rewrite <- Hids.
    replace (length (ICpuProfileRaw.nodes profile))
      with (length (ICpuProfileRaw.nodes profile'))
      by (pose proof (f_equal length Hids) as Hl; by rewrite !length_fmap in Hl).
    rewrite Hperm, <- list_fmap_compose.
    erewrite (Forall_fmap_ext_1 RawNode.id); [done|].
    eapply Forall_impl; [exact Hpos|]. intros raw Hraw. unfold compose. simpl in *. lia.
  - intros raw Hin.
    assert (Hnodup : NoDup ((λ raw, Z.to_nat (RawNode.id raw - 1))
                            <$> ICpuProfileRaw.nodes profile')).
    { rewrite <- Hperm. apply NoDup_seq. }
    destruct (placed_slots _ _ _ Hnodup Hplace) as [_ Hset].
    destruct (Hset raw Hin) as (locationId & Hlocation & [Hi Hslot]%lookupZ_Some).
    simpl in Hslot.
    destruct (mapM_id_lookup _ _ Hslots) as [_ Hlookup].
    rewrite Hlookup in Hslot.
    destruct (nodes !! Z.to_nat (RawNode.id raw - 1)) as [n|] eqn:Hn; [|done].
    injection Hslot as ->.
    destruct (lookup_fmap_eq _ _ _ _ _ Hshape Hn) as (node & Hnode & Heq).
    injection Heq as _ Hchildren Hlocation'.
    exists node. split; [by apply lookupZ_Some|]. split; [done|]. by rewrite Hlocation'.
Qed.

End BuiltModelIds.

(** *** Parents and children *)

Lemma listedBy_same nodes nodes' c p :
  IComputedNode.children <$> nodes' = IComputedNode.children <$> nodes →
  listedBy nodes c p → listedBy nodes' c p.
Proof.
  intros Hsame (pn & Hpn & Hc).
  destruct (lookupZ_fmap_eq _ _ _ _ _ Hsame Hpn) as (pn' & Hpn' & Heq).
  exists pn'. split; [done|]. by rewrite Heq.
Qed.

Lemma hasParent_same nodes nodes' c :
  IComputedNode.parent <$> nodes' = IComputedNode.parent <$> nodes →
  hasParent nodes c → hasParent nodes' c.
Proof.
  intros Hsame (node & p & Hnode & Hp).
  destruct (lookupZ_fmap_eq _ _ _ _ _ Hsame Hnode) as (node' & Hnode' & Heq).
  exists node', p. split; [done|]. by rewrite Heq.
Qed.

Lemma parentsListed_same nodes nodes' :
  IComputedNode.children <$> nodes' = IComputedNode.children <$> nodes →
  IComputedNode.parent <$> nodes' = IComputedNode.parent <$> nodes →
  parentsListed nodes → parentsListed nodes'.
Proof.
  intros Hchildren Hparent Hnodes c node' p Hnode' Hp.
  symmetry in Hparent.
  destruct (lookupZ_fmap_eq _ _ _ _ _ Hparent Hnode') as (node & Hnode & Heq).
  apply (listedBy_same nodes); [done|]. apply (Hnodes c node); [done|]. by rewrite Heq.
Qed.

Lemma linkChild_spec p nodes c nodes' :
  linkChild p nodes c = Some nodes' →
  is_Some (lookupZ nodes c) ∧ nodes' = alterZ (IComputedNode.setParent p) c nodes.
Proof.
  unfold linkChild. destruct (lookupZ nodes c) as [row|]; simpl; [|done].
  intros [= <-]. split; [by eexists|done].
Qed.

(** The back-fill of one node's children sets [parent] only to a node
    that lists the child. *)
Lemma linkChildren_parents nodes i nodes' :
  (∀ j n, nodes !! j = Some n → IComputedNode.id n = Z.of_nat j) →
  parentsListed nodes → linkChildren nodes i = Some nodes' → parentsListed nodes'.
Proof.
  intros Hids Hnodes Hrun. unfold linkChildren in Hrun.
  destruct (nodes !! i) as [node|] eqn:Hnode; simpl in Hrun; [|done].
  apply (forM_inv_in
           (λ s, IComputedNode.children <$> s = IComputedNode.children <$> nodes
                 ∧ parentsListed s)) in Hrun; [by destruct Hrun| |done].
  intros s c s' Hin [Hsame Hs] [Hc ->]%linkChild_spec.
  assert (Hsame' : IComputedNode.children <$> alterZ (IComputedNode.setParent
                     (IComputedNode.id node)) c s = IComputedNode.children <$> nodes)
    by (by rewrite map_alterZ_id).
  split; [done|].
  intros c' n' p' Hn' Hp'. rewrite lookupZ_alterZ in Hn'.
  destruct (decide (c = c')) as [<-|Hne].
  - destruct (lookupZ s c) as [n0|]; [|done]. injection Hn' as <-. simpl in Hp'.
    injection Hp' as <-. rewrite (Hids _ _ Hnode) in *.
    apply (listedBy_same nodes); [done|].
    exists node. by rewrite lookupZ_of_nat.
  - apply (listedBy_same s); [by rewrite map_alterZ_id|]. by apply (Hs c' n').
Qed.

Lemma linked_parents l nodes nodes' :
  (∀ j n, nodes !! j = Some n → IComputedNode.id n = Z.of_nat j) →
  parentsListed nodes → forM linkChildren l nodes = Some nodes' → parentsListed nodes'.
Proof.
  intros Hids Hnodes Hrun.
  apply (forM_inv (λ s, IComputedNode.id <$> s = IComputedNode.id <$> nodes ∧ parentsListed s))
    in Hrun; [by destruct Hrun| |done].
  intros s i s' [Hsame Hs] Hstep. split.
  - rewrite <- Hsame. by eapply linkChildren_preserves.
  - eapply linkChildren_parents; [|done|done].
    intros j n Hn. symmetry in Hsame.
    destruct (lookup_fmap_eq _ _ _ _ _ Hsame Hn) as (n0 & Hn0 & Heq).
    rewrite <- Heq. by apply Hids.
Qed.

Lemma linkChild_hasParent p nodes c nodes' :
  linkChild p nodes c = Some nodes' →
  hasParent nodes' c ∧ ∀ c', hasParent nodes c' → hasParent nodes' c'.
Proof.
  intros [[n Hn] ->]%linkChild_spec. split.
  - exists (IComputedNode.setParent p n), p. rewrite lookupZ_alterZ, Hn.
    by case_decide.
  - intros c' (n' & q & Hn' & Hq). destruct (decide (c = c')) as [Heq|Hne].
    + exists (IComputedNode.setParent p n'), p.
      by rewrite lookupZ_alterZ, decide_True, Hn'.
    + exists n', q. by rewrite lookupZ_alterZ, decide_False.
Qed.

Lemma linkChildLoop_hasParent p : ∀ cs nodes nodes',
  forM (linkChild p) cs nodes = Some nodes' →
  (∀ c, hasParent nodes c → hasParent nodes' c) ∧ ∀ c, c ∈ cs → hasParent nodes' c.
Proof.
  induction cs as [|c0 cs IH]; intros nodes nodes' Hrun.
  - injection Hrun as <-. split; [done|]. intros c Hc. by apply elem_of_nil in Hc.
  - rewrite forM_cons in Hrun.
    destruct (linkChild p nodes c0) as [nodes1|] eqn:Hstep; simpl in Hrun; [|done].
    destruct (linkChild_hasParent _ _ _ _ Hstep) as [Hhere Hmono].
    destruct (IH _ _ Hrun) as [Hmono' Hrest]. split.
    + intros c Hc. by apply Hmono', Hmono.
    + intros c [->|Hc]%elem_of_cons; [by apply Hmono'|by apply Hrest].
Qed.

Lemma linkChildren_hasParent nodes i nodes' :
  linkChildren nodes i = Some nodes' →
  (∀ c, hasParent nodes c → hasParent nodes' c) ∧
  ∀ node c, nodes !! i = Some node → c ∈ IComputedNode.children node → hasParent nodes' c.
Proof.
  unfold linkChildren. destruct (nodes !! i) as [node|]; simpl; [|done].
  intros [Hmono Hall]%linkChildLoop_hasParent. split; [done|].
  intros node' c [= <-]. apply Hall.
Qed.

Lemma linked_hasParent : ∀ l nodes nodes',
  forM linkChildren l nodes = Some nodes' →
  (∀ c, hasParent nodes c → hasParent nodes' c) ∧
  ∀ i node c, i ∈ l → nodes !! i = Some node → c ∈ IComputedNode.children node →
              hasParent nodes' c.
Proof.
  induction l as [|i l IH]; intros nodes nodes' Hrun.
  - injection Hrun as <-. split; [done|]. intros i node c Hi. by apply elem_of_nil in Hi.
  - rewrite forM_cons in Hrun.
    destruct (linkChildren nodes i) as [nodes1|] eqn:Hstep; simpl in Hrun; [|done].
    destruct (linkChildren_hasParent _ _ _ Hstep) as [Hmono Hhere].
    destruct (IH _ _ Hrun) as [Hmono' Hrest]. split.
    + intros c Hc. by apply Hmono', Hmono.
    + intros i' node c [->|Hi']%elem_of_cons Hnode Hc.
      * apply Hmono'. by apply (Hhere node).
      * pose proof (linkChildren_preserves IComputedNode.children _ _ _
                      ltac:(done) Hstep) as Hsame.
        destruct (lookup_fmap_eq _ _ _ _ _ Hsame Hnode) as (node1 & Hnode1 & Heq).
        apply (Hrest i' node1); [done|done|by rewrite Heq].
Qed.

Section BuiltModelParents.
Context `{PathUtils}.

(** In a built model a [parent] field names a node that lists the node,
    and a node that is listed has its [parent] field set. *)
Lemma built_parents fuel profile model profile' :
  buildModel fuel profile = Some (model, profile') →
  parentsListed (IProfileModel.nodes model) ∧
  ∀ p c, listedBy (IProfileModel.nodes model) c p → hasParent (IProfileModel.nodes model) c.
Proof.
  intros Hrun.
  destruct (buildModel_empty_or_steps _ _ _ _ Hrun)
    as [(Hnodes & _)|(samples & timeDeltas & Hs & Htd)].
  { rewrite Hnodes. split.
    - intros c node p Hnode. unfold lookupZ in Hnode. by case_decide.
    - intros p c (pn & Hpn & _). unfold lookupZ in Hpn. by case_decide. }
  destruct (buildModel_steps _ _ _ _ _ _ Hs Htd Hrun)
    as (locations & slots & locations1 & nodes & nodes1 & nodes2
        & Hloc & Hplace & Hslots & Hlink & Hsamples & Hroll & _).
  assert (Hsame : (λ n, (IComputedNode.children n, IComputedNode.parent n))
                    <$> IProfileModel.nodes model
                  = (λ n, (IComputedNode.children n, IComputedNode.parent n)) <$> nodes1).
  { apply (rolledUp_preserves
             (λ n, (IComputedNode.children n, IComputedNode.parent n)) ILocation.id)
      in Hroll as [Hroll _]; [|done|done].
    simpl in Hroll. rewrite Hroll. by eapply addSamples_preserves. }
  assert (Hchildren : IComputedNode.children <$> IProfileModel.nodes model
                      = IComputedNode.children <$> nodes1).
  { apply (f_equal (fmap fst)) in Hsame. by rewrite <- !list_fmap_compose in Hsame. }
  assert (Hparent : IComputedNode.parent <$> IProfileModel.nodes model
                    = IComputedNode.parent <$> nodes1).
  { apply (f_equal (fmap snd)) in Hsame. by rewrite <- !list_fmap_compose in Hsame. }
  destruct (mapM_id_lookup _ _ Hslots) as [_ Hlookup].
  assert (Hids : ∀ j n, nodes !! j = Some n → IComputedNode.id n = Z.of_nat j).
  { intros j n Hn.
    destruct (placed_origin _ _ _ _ Hplace j n)
      as (raw & locationId & _ & _ & -> & Hpos & ->); [by rewrite Hlookup, Hn|].
    simpl. lia. }
  assert (Hnone : ∀ j n, nodes !! j = Some n → IComputedNode.parent n = None).
  { intros j n Hn.
    destruct (placed_origin _ _ _ _ Hplace j n)
      as (raw & locationId & _ & _ & -> & _); [by rewrite Hlookup, Hn|done]. }
  split.
  - apply (parentsListed_same nodes1); [done|done|].
    eapply (linked_parents _ nodes); [done| |done].
    intros c node p [_ Hnode]%lookupZ_Some Hp. by rewrite (Hnone _ _ Hnode) in Hp.
  - intros p c (pn & Hpn & Hc).
    apply (hasParent_same nodes1); [done|].
    destruct (linked_hasParent _ _ _ Hlink) as [_ Hset].
    pose proof (linked_preserves IComputedNode.children _ _ _ ltac:(done) Hlink) as Hsame1.
    symmetry in Hchildren, Hsame1.
    destruct (lookupZ_fmap_eq _ _ _ _ _ Hchildren Hpn) as (pn1 & Hpn1 & Heq1).
    destruct (lookupZ_fmap_eq _ _ _ _ _ Hsame1 Hpn1)
      as (pn0 & [Hp Hpn0]%lookupZ_Some & Heq0).
    apply (Hset (Z.to_nat p) pn0); [|done|by rewrite Heq0, Heq1].
    apply elem_of_seq. apply lookup_lt_Some in Hpn0. lia.
Qed.

(** X3. In a built model the [parent] fields agree with the [children]
    lists: a node's parent lists the node as a child; every child a node
    lists is a node with a parent, which lists it too; and a node without
    a parent is listed by no node. *)
Theorem buildModel_parents fuel profile model profile' :
  buildModel fuel profile = Some (model, profile') →
  ∀ c node, lookupZ (IProfileModel.nodes model) c = Some node →
    (∀ p, IComputedNode.parent node = Some p → listedBy (IProfileModel.nodes model) c p) ∧
    (∀ c', c' ∈ IComputedNode.children node →
       ∃ child p, lookupZ (IProfileModel.nodes model) c' = Some child ∧
                  IComputedNode.parent child = Some p ∧
                  listedBy (IProfileModel.nodes model) c' p) ∧
    (IComputedNode.parent node = None → ∀ p, ¬ listedBy (IProfileModel.nodes model) c p).
Proof.
  intros Hrun. destruct (built_parents _ _ _ _ Hrun) as [Hlisted Hparents].
  intros c node Hnode. split; [|split].
  - intros p Hp. by apply (Hlisted c node).
  - intros c' Hc'.
    destruct (Hparents c c') as (child & p & Hchild & Hp); [by exists node|].
    exists child, p. split; [done|]. split; [done|]. by apply (Hlisted c' child).
  - intros Hnone p Hp. destruct (Hparents p c Hp) as (node' & q & Hnode' & Hq).
    congruence.
Qed.

End BuiltModelParents.

(** *** Location totals *)

(** Step 3 never rewrites a node that is settled. *)
Lemma rolledUp_lookup fuel l : ∀ st st',
  cachedSettled (fst st) → forM (rollUp fuel) l st = Some st' →
  ∀ j, settled (fst st) j → lookupZ (fst st') j = lookupZ (fst st) j.
Proof.
  induction l as [|i l IH]; intros st st' Hinv Hrun j Hj.
  - by injection Hrun as <-.
  - rewrite forM_cons in Hrun.
    destruct (rollUp fuel st i) as [st1|] eqn:Hstep; simpl in Hrun; [|done].
    destruct (rollUp_computed _ _ _ _ Hinv Hstep) as (v & Hsame1 & _ & _ & Hinv1 & _).
    rewrite (IH _ _ Hinv1 Hrun); [by apply Hsame1|].
    by apply (settled_transfer (fst st)).
Qed.

(** One turn of step 3: node [i] is settled, and its self time and the
    aggregate time it now stores are added to its location. *)
Lemma rollUp_spec fuel st i st' :
  cachedSettled (fst st) → rollUp fuel st i = Some st' →
  ∃ node,
    fst st' !! i = Some node ∧
    settled (fst st') (Z.of_nat i) ∧ cachedSettled (fst st') ∧
    length (fst st') = length (fst st) ∧
    snd st' = alterZ (ILocation.addTimes (IComputedNode.selfTime node)
                        (IComputedNode.aggregateTime node))
                (IComputedNode.locationId node) (snd st).
Proof.
  intros Hinv Hrun. unfold rollUp in Hrun.
  destruct (fst st !! i) as [node|] eqn:Hnode; simpl in Hrun; [|done].
  destruct (lookupZ (snd st) _) as [location|]; simpl in Hrun; [|done].
  destruct (computeAggregateTime fuel _ _) as [[aggregate nodes']|] eqn:Hc; simpl in Hrun;
    [|done].
  injection Hrun as <-. simpl.
  destruct (computeAggregateTime_computed _ _ _ _ _ Hinv Hc)
    as (_ & Hsettled & Hvalue & Hinv' & _).
  pose proof (computeAggregateTime_preserves
                (λ n, (IComputedNode.selfTime n, IComputedNode.locationId n))
                ltac:(done) _ _ _ _ _ Hc) as Hsame.
  destruct (lookup_fmap_eq _ _ _ _ _ Hsame Hnode) as (node' & Hnode' & Heq).
  injection Heq as Hself Hlocation.
  exists node'. split; [done|]. split; [done|]. split; [done|]. split.
  { pose proof (f_equal length Hsame) as Hlen. by rewrite !length_fmap in Hlen. }
  unfold aggregateOf in Hvalue. rewrite lookupZ_of_nat, Hnode' in Hvalue. simpl in Hvalue.
  by rewrite Hself, Hlocation, Hvalue.
Qed.

(** After step 3 has gone through the indices [l], each location has
    gained the self and aggregate times of the nodes of [l] at it. *)
Lemma rolledUp_times fuel id : ∀ l st st',
  cachedSettled (fst st) → forM (rollUp fuel) l st = Some st' →
  lookupZ (snd st') id
  = ILocation.addTimes
      (sumZ ((λ i, match fst st' !! i with
                   | Some n => if bool_decide (IComputedNode.locationId n = id)
                               then IComputedNode.selfTime n else 0
                   | None => 0
                   end) <$> l))
      (sumZ ((λ i, match fst st' !! i with
                   | Some n => if bool_decide (IComputedNode.locationId n = id)
                               then IComputedNode.aggregateTime n else 0
                   | None => 0
                   end) <$> l))
    <$> lookupZ (snd st) id.
Proof.
  induction l as [|i l IH]; intros st st' Hinv Hrun.
  - injection Hrun as <-. simpl. destruct (lookupZ (snd st) id) as [loc|]; [|done].
    simpl. by rewrite addTimes_zero.
  - rewrite forM_cons in Hrun.
    destruct (rollUp fuel st i) as [st1|] eqn:Hstep; simpl in Hrun; [|done].
    destruct (rollUp_spec _ _ _ _ Hinv Hstep) as (node & Hnode & Hsettled & Hinv1 & _ & Hlocs).
    rewrite (IH _ _ Hinv1 Hrun), Hlocs, lookupZ_alterZ.
    pose proof (rolledUp_lookup _ _ _ _ Hinv1 Hrun _ Hsettled) as Hkept.
    rewrite !lookupZ_of_nat, Hnode in Hkept.
    rewrite !fmap_cons, !sumZ_cons, Hkept.
    destruct (lookupZ (snd st) id) as [loc|]; [|by case_decide].
    case_decide as Hid.
    + rewrite bool_decide_eq_true_2 by done. simpl. by rewrite addTimes_addTimes.
    + by rewrite bool_decide_eq_false_2 by done.
Qed.

Section BuiltModelLocations.
Context `{PathUtils}.

(** X4. In a built model, a location's [selfTime] is the sum of the
    [selfTime] of the nodes at that location, and its [aggregateTime] the
    sum of their [aggregateTime]. *)
Theorem buildModel_location_times fuel profile model profile' :
  buildModel fuel profile = Some (model, profile') →
  ∀ id location, lookupZ (IProfileModel.locations model) id = Some location →
    ILocation.selfTime location
      = sumZ (IComputedNode.selfTime <$> nodesAt (IProfileModel.nodes model) id) ∧
    ILocation.aggregateTime location
      = sumZ (IComputedNode.aggregateTime <$> nodesAt (IProfileModel.nodes model) id).
Proof.
  intros Hrun id location Hlocation.
  destruct (buildModel_empty_or_steps _ _ _ _ Hrun)
    as [(_ & Hnone & _)|(samples & timeDeltas & Hs & Htd)].
  { rewrite Hnone in Hlocation. unfold lookupZ in Hlocation. by case_decide. }
  destruct (buildModel_steps _ _ _ _ _ _ Hs Htd Hrun)
    as (locations & slots & locations1 & nodes & nodes1 & nodes2
        & Hloc & Hplace & Hslots & Hlink & Hsamples & Hroll & _).
  destruct (linked_nodes_fresh _ _ _ _ _ _ Hplace Hslots Hlink) as [_ Hzero].
  pose proof (buildModel_node_count _ _ _ _ _ _ _ Hsamples Hroll) as Hcount.
  pose proof Hsamples as Hsamples'.
  apply addSamples_sum in Hsamples' as (_ & Hagg & Hchildren); [|lia].
  assert (Hinv : cachedSettled nodes2).
  { intros j rowj Hj Hne. exfalso. apply Hne.
    apply lookupZ_Some in Hj as [_ Hj]. rewrite <- Hagg in Hzero.
    rewrite Forall_fmap, Forall_lookup in Hzero. by apply (Hzero _ _ Hj). }
  pose proof (rolledUp_times fuel id _ (nodes2, locations1) _ Hinv Hroll) as Htimes.
  simpl in Htimes, Hcount. rewrite Hlocation in Htimes.
  destruct (lookupZ locations1 id) as [location1|] eqn:Hlocation1; [|done].
  injection Htimes as ->.
  assert (Hlen : length nodes2 = length (IProfileModel.nodes model)).
  { pose proof (f_equal length Hchildren) as Hl. rewrite !length_fmap in Hl. lia. }
  rewrite Hlen, !(sumZ_seq_lookup
                    (λ o, match o with
                          | Some n => if bool_decide (IComputedNode.locationId n = id)
                                      then _ n else 0
                          | None => 0
                          end)), !sumZ_filter.
  fold (nodesAt (IProfileModel.nodes model) id).
  pose proof (placed_locations
                (λ l, (ILocation.selfTime l, ILocation.aggregateTime l)) _ _ _
                ltac:(done) Hplace) as Hsame.
  simpl in Hsame. symmetry in Hsame.
  destruct (lookupZ_fmap_eq _ _ _ _ _ Hsame Hlocation1)
    as (location0 & [_ Hl0]%lookupZ_Some & Heq).
  pose proof (buildLocations_lookup (fst (ensureSourceLocations profile)) 0
                (snd (ensureSourceLocations profile)) (Z.to_nat id) location0) as Hmade.
  rewrite Hloc in Hmade. destruct (Hmade Hl0) as (callFrame & src & ->).
  injection Heq as Hself0 Hagg0. simpl. lia.
Qed.

End BuiltModelLocations.

(** *** Position ticks *)

Lemma addPositionTicks_spec locations child locations' id :
  addPositionTicks locations child = Some locations' →
  lookupZ locations' id = ILocation.addTicks (countedTicks id child) <$> lookupZ locations id.
Proof.
  unfold addPositionTicks, countedTicks, truthyNumber.
  destruct (PositionTick.startLocationId child) as [start|]; simpl.
  - destruct (Z.eqb_spec start 0) as [->|Hstart]; simpl.
    + intros [= <-]. destruct (Z.eqb_spec id 0) as [->|Hid].
      * rewrite andb_false_r. destruct (lookupZ locations 0); [|done].
        simpl. by rewrite addTicks_zero.
      * rewrite bool_decide_eq_false_2 by congruence. simpl.
        destruct (lookupZ locations id); [|done]. simpl. by rewrite addTicks_zero.
    + destruct (lookupZ locations start); simpl; [|done]. intros [= <-].
      rewrite lookupZ_alterZ. case_decide as Hid.
      * subst id. rewrite bool_decide_eq_true_2 by done.
        destruct (Z.eqb_spec start 0); done.
      * rewrite bool_decide_eq_false_2 by congruence. simpl.
        destruct (lookupZ locations id); [|done]. simpl. by rewrite addTicks_zero.
  - intros [= <-].
    destruct (lookupZ locations id); [|done]. simpl. by rewrite addTicks_zero.
Qed.

Lemma addedPositionTicks id : ∀ ticks locations locations',
  forM addPositionTicks ticks locations = Some locations' →
  lookupZ locations' id
  = ILocation.addTicks (sumZ (countedTicks id <$> ticks)) <$> lookupZ locations id.
Proof.
  induction ticks as [|tick ticks IH]; intros locations locations' Hrun.
  - injection Hrun as <-. destruct (lookupZ locations id); [|done].
    simpl. by rewrite addTicks_zero.
  - rewrite forM_cons in Hrun.
    destruct (addPositionTicks locations tick) as [locations1|] eqn:Hstep; simpl in Hrun;
      [|done].
    rewrite (IH _ _ Hrun), (addPositionTicks_spec _ _ _ id Hstep), fmap_cons, sumZ_cons.
    destruct (lookupZ locations id); [|done]. simpl. by rewrite addTicks_addTicks.
Qed.

Lemma placed_ticks id : ∀ raws st st',
  forM placeNode raws st = Some st' →
  lookupZ (snd st') id
  = ILocation.addTicks (sumZ (countedTicks id <$> allPositionTicks raws))
    <$> lookupZ (snd st) id.
Proof.
  induction raws as [|raw raws IH]; intros st st' Hrun.
  - injection Hrun as <-. destruct (lookupZ (snd st) id); [|done].
    simpl. by rewrite addTicks_zero.
  - rewrite forM_cons in Hrun.
    destruct (placeNode st raw) as [st1|] eqn:Hstep; simpl in Hrun; [|done].
    rewrite (IH _ _ Hrun). unfold placeNode in Hstep.
    destruct (lookupZ (fst st) _) as [slot|]; simpl in Hstep; [|done].
    destruct (RawNode.locationId raw) as [locationId|]; simpl in Hstep; [|done].
    destruct (forM addPositionTicks _ _) as [locations'|] eqn:Hticks; simpl in Hstep; [|done].
    injection Hstep as <-. simpl.
    rewrite (addedPositionTicks id _ _ _ Hticks).
    unfold allPositionTicks. rewrite fmap_cons. cbn [concat].
    rewrite fmap_app, sumZ_app.
    destruct (lookupZ (snd st) id); [|done]. simpl. by rewrite addTicks_addTicks.
Qed.

Section BuiltModelTicks.
Context `{PathUtils}.

(** X5. In a built model, the [ticks] of a location with a non-zero id
    are the ticks of the position ticks that start there; the location
    with id 0 has no ticks, whatever starts there. *)
Theorem buildModel_location_ticks fuel profile model profile' :
  buildModel fuel profile = Some (model, profile') →
  ∀ id location, lookupZ (IProfileModel.locations model) id = Some location →
    ILocation.ticks location
      = if decide (id = 0) then 0 else ticksAt (ICpuProfileRaw.nodes profile') id.
Proof.
  intros Hrun id location Hlocation.
  destruct (buildModel_empty_or_steps _ _ _ _ Hrun)
    as [(_ & Hnone & _)|(samples & timeDeltas & Hs & Htd)].
  { rewrite Hnone in Hlocation. unfold lookupZ in Hlocation. by case_decide. }
  destruct (buildModel_steps _ _ _ _ _ _ Hs Htd Hrun)
    as (locations & slots & locations1 & nodes & nodes1 & nodes2
        & Hloc & Hplace & Hslots & Hlink & Hsamples & Hroll & _).
  apply (rolledUp_preserves IComputedNode.id ILocation.ticks) in Hroll as [_ Hroll];
    [|done|done].
  simpl in Hroll.
  destruct (lookupZ_fmap_eq _ _ _ _ _ (eq_sym Hroll) Hlocation)
    as (location1 & Hlocation1 & Heq).
  rewrite <- Heq.
  pose proof (placed_ticks id _ _ _ Hplace) as Hticks. simpl in Hticks.
  rewrite Hlocation1 in Hticks.
  destruct (lookupZ locations id) as [location0|] eqn:Hlocation0; [|done].
  injection Hticks as ->.
  apply lookupZ_Some in Hlocation0 as [_ Hl0].
  pose proof (buildLocations_lookup (fst (ensureSourceLocations profile)) 0
                (snd (ensureSourceLocations profile)) (Z.to_nat id) location0) as Hmade.
  rewrite Hloc in Hmade. destruct (Hmade Hl0) as (callFrame & src & ->). simpl.
  case_decide as Hid.
  - subst id. rewrite Z.add_0_l. apply sumZ_zero, Forall_fmap, Forall_forall.
    intros tick _. unfold countedTicks. simpl. by rewrite andb_false_r.
  - unfold ticksAt. rewrite <- sumZ_filter, Z.add_0_l. f_equal. apply list_fmap_ext.
    intros i tick _. unfold countedTicks.
    destruct (Z.eqb_spec id 0); [done|]. by rewrite andb_true_r.
Qed.

End BuiltModelTicks.

(** *** Categories *)

Lemma categorize_spec callFrame src :
  CallFrame.functionName (fst (categorize callFrame src)) ≠ "" ∧
  (snd (categorize callFrame src) = System
   ↔ CallFrame.lineNumber (fst (categorize callFrame src)) < 0) ∧
  (snd (categorize callFrame src) = User
   ↔ 0 ≤ CallFrame.lineNumber (fst (categorize callFrame src)) ∧ is_Some src ∧
     includes (CallFrame.url (fst (categorize callFrame src))) "node_modules" = false).
Proof.
  destruct callFrame as [name scriptId url line column]. unfold categorize. simpl.
  set (name' := if String.eqb name "" then "(anonymous)" else name).
  assert (Hname : name' ≠ "") by (subst name'; by destruct (String.eqb_spec name "")).
  destruct (decide (line < 0)) as [Hline|Hline]; simpl.
  { split; [done|]. split; [done|]. split; [done|]. intros [? _]. lia. }
  destruct (includes url "node_modules") eqn:Hurl; simpl.
  { split; [done|]. split; [split; [done|lia]|]. split; [done|].
    intros (_ & _ & ?). congruence. }
  destruct (bool_decide_reflect (is_Some src)) as [Hsrc|Hsrc]; simpl.
  - split; [done|]. split; [split; [done|lia]|]. split; [|done].
    intros _. split; [lia|done].
  - split; [done|]. split; [split; [done|lia]|]. split; [done|].
    intros (_ & ? & _). done.
Qed.

Section BuiltModelCategories.
Context `{PathUtils}.

(** X6. Every location of a built model has a function name (an empty
    one was replaced), is of category System exactly when its line number
    is negative, and of category User exactly when the line number is not
    negative, it has a source and its url does not mention node_modules. *)
Theorem buildModel_location_category fuel profile model profile' :
  buildModel fuel profile = Some (model, profile') →
  ∀ id location, lookupZ (IProfileModel.locations model) id = Some location →
    CallFrame.functionName (ILocation.callFrame location) ≠ "" ∧
    (ILocation.category location = System
     ↔ CallFrame.lineNumber (ILocation.callFrame location) < 0) ∧
    (ILocation.category location = User
     ↔ 0 ≤ CallFrame.lineNumber (ILocation.callFrame location) ∧
       is_Some (ILocation.src location) ∧
       includes (CallFrame.url (ILocation.callFrame location)) "node_modules" = false).
Proof.
  intros Hrun id location Hlocation.
  destruct (buildModel_empty_or_steps _ _ _ _ Hrun)
    as [(_ & Hnone & _)|(samples & timeDeltas & Hs & Htd)].
  { rewrite Hnone in Hlocation. unfold lookupZ in Hlocation. by case_decide. }
  destruct (buildModel_steps _ _ _ _ _ _ Hs Htd Hrun)
    as (locations & slots & locations1 & nodes & nodes1 & nodes2
        & Hloc & Hplace & Hslots & Hlink & Hsamples & Hroll & _).
  pose proof (built_locations_frame
                (λ l, (ILocation.category l, ILocation.callFrame l, ILocation.src l))
                _ _ _ _ _ _ _ _ _ ltac:(done) ltac:(done) Hplace Hroll) as Hsame.
  symmetry in Hsame.
  destruct (lookupZ_fmap_eq _ _ _ _ _ Hsame Hlocation)
    as (location0 & [_ Hl0]%lookupZ_Some & Heq).
  pose proof (buildLocations_lookup (fst (ensureSourceLocations profile)) 0
                (snd (ensureSourceLocations profile)) (Z.to_nat id) location0) as Hmade.
  rewrite Hloc in Hmade. destruct (Hmade Hl0) as (callFrame & src & ->).
  simpl in Heq. injection Heq as <- <- <-. apply categorize_spec.
Qed.

End BuiltModelCategories.

(** *** computeAggregateTime as a cache *)

(** X7. A call of [computeAggregateTime] that returns changes no field
    but [aggregateTime], changes no node whose stored [aggregateTime] is
    not 0, and returns the [aggregateTime] that the node stores
    afterwards. *)
Theorem computeAggregateTime_caches fuel : ∀ index nodes v nodes',
  computeAggregateTime fuel index nodes = Some (v, nodes') →
  IComputedNode.setAggregateTime 0 <$> nodes' = IComputedNode.setAggregateTime 0 <$> nodes ∧
  (∀ j row, lookupZ nodes j = Some row → IComputedNode.aggregateTime row ≠ 0 →
            lookupZ nodes' j = Some row) ∧
  IComputedNode.aggregateTime <$> lookupZ nodes' index = Some v.
Proof.
  induction fuel as [|fuel IH]; intros index nodes v nodes' Hrun; [done|].
  split.
  { by apply (computeAggregateTime_preserves (IComputedNode.setAggregateTime 0)
                ltac:(done) _ _ _ _ _ Hrun). }
  simpl in Hrun. destruct (lookupZ nodes index) as [row|] eqn:Hrow; simpl in Hrun; [|done].
  case_decide as Hcached.
  { injection Hrun as <- <-. split; [done|]. by rewrite Hrow. }
  destruct (sumChildren _ _ _ _) as [[total nodes1]|] eqn:Hsum; simpl in Hrun; [|done].
  injection Hrun as <- <-.
  assert (Hloop : (∀ j row, lookupZ nodes j = Some row →
                            IComputedNode.aggregateTime row ≠ 0 →
                            lookupZ nodes1 j = Some row) ∧
                  length nodes1 = length nodes).
  { clear Hrow Hcached. revert Hsum.
    generalize (IComputedNode.selfTime row). generalize (IComputedNode.children row).
    intros cs. revert nodes. induction cs as [|c cs IHcs]; intros nodes acc Hsum;
      simpl in Hsum.
    - by injection Hsum as <- <-.
    - destruct (computeAggregateTime fuel c nodes) as [[v nodes2]|] eqn:Hc; simpl in Hsum;
        [|done].
      destruct (IH _ _ _ _ Hc) as (Hsame & Hkeep & _).
      destruct (IHcs _ _ Hsum) as [Hkeep' Hlen']. split.
      + intros j rowj Hj Hne. apply Hkeep'; [|done]. by apply Hkeep.
      + pose proof (f_equal length Hsame) as Hlen. rewrite !length_fmap in Hlen. lia. }
  destruct Hloop as [Hkeep Hlen]. split.
  - intros j rowj Hj Hne. rewrite lookupZ_alterZ. case_decide as Hj'.
    + subst j. rewrite Hrow in Hj. by injection Hj as <-.
    + by apply Hkeep.
  - rewrite lookupZ_alterZ. case_decide; [|done].
    destruct (proj2 (lookupZ_is_Some nodes1 index)) as [row1 Hrow1].
    { rewrite Hlen. apply lookupZ_is_Some. by eexists. }
    by rewrite Hrow1.
Qed.

(** *** getBestLocation *)

Section BestLocation.
Context `{PathUtils}.

(** X8. [getBestLocation] returns nothing only when there is no
    candidate.  What it returns is one of the candidates; it is on disk
    when any candidate is; and it carries a relative path exactly when it
    is on disk and the profile has a non-empty root path. *)
Theorem getBestLocation_choice profile candidates :
  match getBestLocation profile candidates with
  | None => candidates = None ∨ candidates = Some []
  | Some src =>
      ∃ cs, candidates = Some cs ∧ Src.location src ∈ cs ∧
        (∀ c, c ∈ cs → isOnDisk c = true → isOnDisk (Src.location src) = true) ∧
        (is_Some (Src.relativePath src)
         ↔ isOnDisk (Src.location src) = true ∧
           truthyString (ICpuProfileRaw.vscode profile ≫= Vscode.rootPath) = true)
  end.
Proof.
  unfold getBestLocation. destruct candidates as [cs|]; simpl; [|by left].
  destruct (List.find isOnDisk cs) as [onDisk|] eqn:Hfind.
  - apply find_some in Hfind as [Hin Hdisk]. apply list_elem_of_In in Hin.
    exists cs. split; [done|]. simpl. split; [done|]. split; [done|].
    destruct (ICpuProfileRaw.vscode profile ≫= Vscode.rootPath) as [root|]; simpl.
    + destruct (negb (String.eqb root "")); simpl.
      * split; [done|]. intros _. by eexists.
      * split; [by intros [? ?]|]. by intros [_ ?].
    + split; [by intros [? ?]|]. by intros [_ ?].
  - destruct cs as [|c cs]; simpl; [by right|].
    exists (c :: cs). split; [done|]. split; [by left|].
    pose proof (find_none _ _ Hfind) as Hnone. split.
    + intros c' Hc' Hdisk. apply list_elem_of_In in Hc'. by rewrite (Hnone c' Hc') in Hdisk.
    + split; [by intros [? ?]|]. intros [Hdisk _].
      rewrite (Hnone c) in Hdisk; [done|by left].
Qed.

End BestLocation.

(** *** The location table of ensureSourceLocations *)

Lemma mapGet_Some {V} key (m : list (string * V)) v :
  mapGet key m = Some v → ∃ j, m !! j = Some (key, v).
Proof.
  unfold mapGet. destruct (List.find _ m) as [[k v']|] eqn:Hfind; simpl; [|done].
  intros [= <-]. apply find_some in Hfind as [Hin Hkey]. simpl in Hkey.
  apply String.eqb_eq in Hkey as ->. by apply list_elem_of_lookup, list_elem_of_In.
Qed.

Lemma mapGet_None {V} key (m : list (string * V)) :
  mapGet key m = None → key ∉ fst <$> m.
Proof.
  unfold mapGet. destruct (List.find _ m) as [kv|] eqn:Hfind; simpl; [done|].
  intros _ ([k v] & -> & Hin)%list_elem_of_fmap.
  apply list_elem_of_In in Hin. pose proof (find_none _ _ Hfind _ Hin) as Hkey.
  simpl in Hkey. by rewrite String.eqb_refl in Hkey.
Qed.

Lemma tableGrows_refl tbl : tableGrows tbl tbl.
Proof. exists []. by rewrite app_nil_r. Qed.

Lemma tableGrows_trans tbl1 tbl2 tbl3 :
  tableGrows tbl1 tbl2 → tableGrows tbl2 tbl3 → tableGrows tbl1 tbl3.
Proof. intros [m1 H1] [m2 H2]. exists (m1 ++ m2). by rewrite H2, H1, app_assoc. Qed.

Lemma filedAt_grows tbl tbl' key id :
  tableGrows tbl tbl' → filedAt tbl key id → filedAt tbl' key id.
Proof.
  intros [more Hmore] [e [Hid He]%lookupZ_Some]. exists e.
  apply lookupZ_Some. split; [done|]. rewrite Hmore. by apply lookup_app_l_Some.
Qed.

Section LocationTableSpec.
Context `{PathUtils}.

(** [getLocationIdFor] returns the id filed under the key of the call
    frame, filing a new entry when there is none. *)
Lemma getLocationIdFor_spec callFrame owner tbl :
  tableOk tbl →
  tableOk (snd (getLocationIdFor callFrame owner tbl)) ∧
  tableGrows tbl (snd (getLocationIdFor callFrame owner tbl)) ∧
  filedAt (snd (getLocationIdFor callFrame owner tbl)) (refKey callFrame)
    (fst (getLocationIdFor callFrame owner tbl)).
Proof.
  intros (Hcounter & Hentries & Hnodup). unfold getLocationIdFor.
  destruct (mapGet _ _) as [existing|] eqn:Hget; simpl.
  - split; [done|]. split; [apply tableGrows_refl|].
    apply mapGet_Some in Hget as [j Hj]. destruct (Hentries _ _ Hj) as [Hid _].
    simpl in Hid. exists existing. by rewrite Hid, lookupZ_of_nat.
  - apply mapGet_None in Hget. split; [|split].
    + split; [|split]; simpl.
      * rewrite length_app. simpl. lia.
      * intros j kv [Hj|[Hj Hkv]]%lookup_app_Some; [by apply Hentries|].
        destruct (j - length (LocationTable.locationsByRef tbl))%nat as [|?] eqn:Hjl;
          simpl in Hkv; [|done].
        injection Hkv as <-. simpl. split; [lia|done].
      * rewrite fmap_app. apply NoDup_app. split; [done|]. split.
        -- intros key Hkey [->|Hnil%elem_of_nil]%elem_of_cons; done.
        -- apply NoDup_singleton.
    + by eexists.
    + eexists. simpl. rewrite Hcounter, lookupZ_of_nat.
      by rewrite lookup_app_r, Nat.sub_diag by lia.
Qed.

Lemma annotateTicks_spec callFrame : ∀ ticks tbl,
  tableOk tbl →
  tableOk (snd (annotateTicks callFrame ticks tbl)) ∧
  tableGrows tbl (snd (annotateTicks callFrame ticks tbl)) ∧
  Forall (λ tick,
            (∃ id, PositionTick.startLocationId tick = Some id ∧
                   filedAt (snd (annotateTicks callFrame ticks tbl))
                     (refKey (CallFrame.withPosition (PositionTick.line tick - 1) 0
                                callFrame)) id) ∧
            (∃ id, PositionTick.endLocationId tick = Some id ∧
                   filedAt (snd (annotateTicks callFrame ticks tbl))
                     (refKey (CallFrame.withPosition (PositionTick.line tick) 0
                                callFrame)) id))
    (fst (annotateTicks callFrame ticks tbl)).
Proof.
  induction ticks as [|tick ticks IH]; intros tbl Hok; simpl.
  { split; [done|]. split; [apply tableGrows_refl|constructor]. }
  unfold annotateTick.
  destruct (getLocationIdFor_spec
              (CallFrame.withPosition (PositionTick.line tick - 1) 0 callFrame)
              Detached tbl Hok) as (Hok1 & Hgrows1 & Hfiled1).
  destruct (getLocationIdFor _ Detached tbl) as [startId tbl1]. simpl in *.
  destruct (getLocationIdFor_spec
              (CallFrame.withPosition (PositionTick.line tick) 0 callFrame)
              Detached tbl1 Hok1) as (Hok2 & Hgrows2 & Hfiled2).
  destruct (getLocationIdFor _ Detached tbl1) as [endId tbl2]. simpl in *.
  destruct (IH tbl2 Hok2) as (Hok3 & Hgrows3 & Hall).
  destruct (annotateTicks callFrame ticks tbl2) as [ticks' tbl3]. simpl in *.
  split; [done|]. split.
  { eapply tableGrows_trans; [|done]. by eapply tableGrows_trans. }
  constructor; [|done]. simpl. split.
  - exists startId. split; [done|].
    eapply filedAt_grows; [done|]. by eapply filedAt_grows.
  - exists endId. split; [done|]. by eapply filedAt_grows.
Qed.

Lemma nodeFiled_grows tbl tbl' node :
  tableGrows tbl tbl' → nodeFiled tbl node → nodeFiled tbl' node.
Proof.
  intros Hgrows [(id & Hid & Hfiled) Hticks]. split.
  - exists id. split; [done|]. by eapply filedAt_grows.
  - eapply Forall_impl; [done|].
    intros tick [(s & Hs & Hfs) (e & He & Hfe)].
    split; eexists; (split; [done|]); by eapply filedAt_grows.
Qed.

Lemma annotateNode_spec k node tbl :
  tableOk tbl →
  tableOk (snd (annotateNode k node tbl)) ∧
  tableGrows tbl (snd (annotateNode k node tbl)) ∧
  RawNode.callFrame (fst (annotateNode k node tbl)) = RawNode.callFrame node ∧
  nodeFiled (snd (annotateNode k node tbl)) (fst (annotateNode k node tbl)).
Proof.
  intros Hok. unfold annotateNode.
  destruct (getLocationIdFor_spec (RawNode.callFrame node) (OwnedByNode k) tbl Hok)
    as (Hok1 & Hgrows1 & Hfiled1).
  destruct (getLocationIdFor _ _ tbl) as [locId tbl1]. simpl in *.
  destruct (RawNode.positionTicks node) as [ticks|].
  - destruct (annotateTicks_spec (RawNode.callFrame node) ticks tbl1 Hok1)
      as (Hok2 & Hgrows2 & Hall).
    destruct (annotateTicks _ ticks tbl1) as [ticks' tbl2]. simpl in *.
    split; [done|]. split; [by eapply tableGrows_trans|]. split; [done|].
    split; simpl; [|done]. exists locId. split; [done|]. by eapply filedAt_grows.
  - simpl. split; [done|]. split; [done|]. split; [done|].
    split; simpl; [|constructor]. by exists locId.
Qed.

Lemma annotateNodes_spec : ∀ nodes k tbl,
  tableOk tbl →
  tableOk (snd (annotateNodes k nodes tbl)) ∧
  tableGrows tbl (snd (annotateNodes k nodes tbl)) ∧
  RawNode.callFrame <$> fst (annotateNodes k nodes tbl) = RawNode.callFrame <$> nodes ∧
  Forall (nodeFiled (snd (annotateNodes k nodes tbl))) (fst (annotateNodes k nodes tbl)).
Proof.
  induction nodes as [|node nodes IH]; intros k tbl Hok; simpl.
  { split; [done|]. split; [apply tableGrows_refl|]. split; [done|constructor]. }
  destruct (annotateNode_spec k node tbl Hok) as (Hok1 & Hgrows1 & Hframe1 & Hfiled1).
  destruct (annotateNode k node tbl) as [node' tbl1]. simpl in *.
  destruct (IH (S k) tbl1 Hok1) as (Hok2 & Hgrows2 & Hframes2 & Hall).
  destruct (annotateNodes (S k) nodes tbl1) as [nodes' tbl2]. simpl in *.
  split; [done|]. split; [by eapply tableGrows_trans|]. split; [by f_equal|].
  constructor; [|done]. by eapply nodeFiled_grows.
Qed.

End LocationTableSpec.

(** Entries listed in the order of their ids are left in place by the
    sort. *)
Lemma insertById_last e sorted :
  Forall (λ e', LocationEntry.id e' ≤ LocationEntry.id e) sorted →
  insertById e sorted = sorted ++ [e].
Proof.
  induction 1 as [|e' sorted He' _ IH]; simpl; [done|].
  rewrite decide_False by lia. by rewrite IH.
Qed.

Lemma sortById_sorted : ∀ rest acc,
  (∀ i j ei ej, (acc ++ rest) !! i = Some ei → (acc ++ rest) !! j = Some ej → (i ≤ j)%nat →
                LocationEntry.id ei ≤ LocationEntry.id ej) →
  foldl (λ acc e, insertById e acc) acc rest = acc ++ rest.
Proof.
  induction rest as [|e rest IH]; intros acc Hsorted; simpl; [by rewrite app_nil_r|].
  rewrite insertById_last.
  - rewrite IH; [by rewrite <- app_assoc|]. by rewrite <- app_assoc.
  - apply Forall_lookup. intros i e' He'.
    apply (Hsorted i (length acc)).
    + by apply lookup_app_l_Some.
    + by rewrite lookup_app_r, Nat.sub_diag by lia.
    + apply lookup_lt_Some in He'. lia.
Qed.

Lemma sortById_tableOk tbl :
  tableOk tbl →
  sortById (snd <$> LocationTable.locationsByRef tbl)
  = snd <$> LocationTable.locationsByRef tbl.
Proof.
  intros (_ & Hentries & _). unfold sortById. rewrite sortById_sorted; [done|].
  simpl. intros i j ei ej Hi Hj Hij.
  apply list_lookup_fmap_Some in Hi as (kvi & -> & Hi).
  apply list_lookup_fmap_Some in Hj as (kvj & -> & Hj).
  destruct (Hentries _ _ Hi) as [-> _]. destruct (Hentries _ _ Hj) as [-> _]. lia.
Qed.

(** *** Keys *)

Lemma string_length_app (s1 s2 : string) :
  String.length (s1 ++ s2) = (String.length s1 + String.length s2)%nat.
Proof.
  induction s1 as [|a s1 IH]; [done|].
  change (String a s1 ++ s2)%string with (String a (s1 ++ s2)). simpl. by rewrite IH.
Qed.

Lemma string_app_inj_r (t : string) : ∀ s1 s2 : string,
  (s1 ++ t)%string = (s2 ++ t)%string → s1 = s2.
Proof.
  induction s1 as [|a s1 IH]; intros [|b s2] Heq; [done| | |].
  - apply (f_equal String.length) in Heq. rewrite !string_length_app in Heq.
    simpl in Heq. lia.
  - apply (f_equal String.length) in Heq. rewrite !string_length_app in Heq.
    simpl in Heq. lia.
  - change (String a (s1 ++ t) = String b (s2 ++ t)) in Heq.
    injection Heq as -> Heq. f_equal. by apply IH.
Qed.

(** The decimal numeral of an integer determines it. *)
Lemma stringOfNumber_inj z1 z2 : stringOfNumber z1 = stringOfNumber z2 → z1 = z2.
Proof.
  unfold stringOfNumber. intros Heq. apply DecimalZ.to_int_inj.
  assert (Hparse : ∀ z, NilZero.int_of_string (NilZero.string_of_int (Z.to_int z))
                        = Some (Z.to_int z)).
  { intros z. apply NilZero.isi.
    - destruct z as [|p|p]; simpl; [done| |done].
      intros [= Hnil]. by apply DecimalPos.Unsigned.to_uint_nonnil in Hnil.
    - destruct z as [|p|p]; simpl; [done|done|].
      intros [= Hnil]. by apply DecimalPos.Unsigned.to_uint_nonnil in Hnil. }
  apply (f_equal NilZero.int_of_string) in Heq. rewrite !Hparse in Heq.
  by injection Heq.
Qed.

(** Two call frames that differ in the line number only have different
    keys. *)
Lemma refKey_line callFrame line1 line2 column :
  refKey (CallFrame.withPosition line1 column callFrame)
  = refKey (CallFrame.withPosition line2 column callFrame) →
  line1 = line2.
Proof.
  unfold refKey. simpl. intros Heq.
  do 6 apply (inj (String.append _)) in Heq.
  apply string_app_inj_r in Heq. by apply stringOfNumber_inj.
Qed.

Section SourceLocations.
Context `{PathUtils}.

(** Without a [$vscode] annotation, the source locations are the entries
    of a consistent table, in order, and every node is filed in it. *)
Lemma ensureSourceLocations_table profile :
  ICpuProfileRaw.vscode profile = None →
  ∃ tbl,
    tableOk tbl ∧
    fst (ensureSourceLocations profile)
    = (λ kv, (IAnnotationLocation.mk (LocationEntry.callFrame (snd kv))
                [LocationEntry.location (snd kv)],
              LocationEntry.owner (snd kv))) <$> LocationTable.locationsByRef tbl ∧
    RawNode.callFrame <$> ICpuProfileRaw.nodes (snd (ensureSourceLocations profile))
    = RawNode.callFrame <$> ICpuProfileRaw.nodes profile ∧
    Forall (nodeFiled tbl) (ICpuProfileRaw.nodes (snd (ensureSourceLocations profile))).
Proof.
  intros Hnone. unfold ensureSourceLocations. rewrite Hnone.
  assert (Hempty : tableOk LocationTable.empty).
  { split; [done|]. split; [done|]. constructor. }
  destruct (annotateNodes_spec (ICpuProfileRaw.nodes profile) 0 LocationTable.empty Hempty)
    as (Hok & _ & Hframes & Hall).
  destruct (annotateNodes 0 _ _) as [nodes' tbl]. simpl in *.
  exists tbl. split; [done|]. split; [|done].
  by rewrite (sortById_tableOk _ Hok), <- list_fmap_compose.
Qed.

Lemma filedAt_locatedAt tbl callFrame id :
  tableOk tbl → filedAt tbl (refKey callFrame) id →
  locatedAt ((λ kv, (IAnnotationLocation.mk (LocationEntry.callFrame (snd kv))
                       [LocationEntry.location (snd kv)],
                     LocationEntry.owner (snd kv))) <$> LocationTable.locationsByRef tbl)
    callFrame (Some id).
Proof.
  intros (_ & Hentries & _) [e [Hid He]%lookupZ_Some].
  eexists id, _. split; [done|]. split.
  - apply lookupZ_Some. split; [done|]. by rewrite list_lookup_fmap, He.
  - simpl. destruct (Hentries _ _ He) as [_ Hkey]. done.
Qed.

(** X9. For a profile without a [$vscode] annotation,
    [ensureSourceLocations] returns source locations with pairwise
    different keys, and leaves every node with the index of the source
    location of its call frame, and every position tick with the indices
    of the source locations of its line and the line before. *)
Theorem ensureSourceLocations_located profile :
  ICpuProfileRaw.vscode profile = None →
  NoDup ((λ l, refKey (IAnnotationLocation.callFrame (fst l)))
         <$> fst (ensureSourceLocations profile)) ∧
  Forall (nodeLocated (fst (ensureSourceLocations profile)))
    (ICpuProfileRaw.nodes (snd (ensureSourceLocations profile))).
Proof.
  intros Hnone.
  destruct (ensureSourceLocations_table _ Hnone) as (tbl & Hok & -> & _ & Hall).
  split.
  - rewrite <- list_fmap_compose.
    destruct Hok as (_ & Hentries & Hnodup).
    erewrite Forall_fmap_ext_1; [exact Hnodup|].
    apply Forall_lookup. intros j kv Hkv. simpl.
    by destruct (Hentries _ _ Hkv) as [_ ->].
  - eapply Forall_impl; [exact Hall|].
    intros node [(id & Hid & Hfiled) Hticks]. split.
    + rewrite Hid. by apply filedAt_locatedAt.
    + eapply Forall_impl; [exact Hticks|].
      intros tick [(s & -> & Hs) (e & -> & He)].
      split; by apply filedAt_locatedAt.
Qed.

(** Nodes get the same location id exactly when their call frames have
    the same key. *)
Lemma nodeFiled_same_key tbl node1 node2 :
  tableOk tbl → nodeFiled tbl node1 → nodeFiled tbl node2 →
  RawNode.locationId node1 = RawNode.locationId node2
  ↔ refKey (RawNode.callFrame node1) = refKey (RawNode.callFrame node2).
Proof.
  intros (_ & _ & Hnodup) [(id1 & Hid1 & e1 & [Hpos1 He1]%lookupZ_Some) _]
    [(id2 & Hid2 & e2 & [Hpos2 He2]%lookupZ_Some) _].
  rewrite Hid1, Hid2. split.
  - intros [= <-]. rewrite He1 in He2. by injection He2.
  - intros Hkey. f_equal. apply Z2Nat.inj; [done|done|].
    apply (NoDup_lookup _ _ _ (refKey (RawNode.callFrame node1)) Hnodup).
    + by rewrite list_lookup_fmap, He1.
    + by rewrite list_lookup_fmap, He2, Hkey.
Qed.

(** X10. For a profile without a [$vscode] annotation, two nodes are
    given the same location id exactly when their call frames have the
    same key (function name, url, script id, line and column). *)
Theorem ensureSourceLocations_same_key profile node1 node2 :
  ICpuProfileRaw.vscode profile = None →
  node1 ∈ ICpuProfileRaw.nodes (snd (ensureSourceLocations profile)) →
  node2 ∈ ICpuProfileRaw.nodes (snd (ensureSourceLocations profile)) →
  RawNode.locationId node1 = RawNode.locationId node2
  ↔ refKey (RawNode.callFrame node1) = refKey (RawNode.callFrame node2).
Proof.
  intros Hnone Hin1 Hin2.
  destruct (ensureSourceLocations_table _ Hnone) as (tbl & Hok & _ & _ & Hall).
  rewrite Forall_forall in Hall. apply (nodeFiled_same_key tbl); auto.
Qed.

(** X11. For a profile without a [$vscode] annotation, two nodes whose
    call frames differ in the line number only are given different
    location ids. *)
Theorem ensureSourceLocations_lines profile node1 node2 line :
  ICpuProfileRaw.vscode profile = None →
  node1 ∈ ICpuProfileRaw.nodes (snd (ensureSourceLocations profile)) →
  node2 ∈ ICpuProfileRaw.nodes (snd (ensureSourceLocations profile)) →
  RawNode.callFrame node2
    = CallFrame.withPosition line (CallFrame.columnNumber (RawNode.callFrame node1))
        (RawNode.callFrame node1) →
  line ≠ CallFrame.lineNumber (RawNode.callFrame node1) →
  RawNode.locationId node1 ≠ RawNode.locationId node2.
Proof.
  intros Hnone Hin1 Hin2 Hframe Hline Hsame.
  destruct (ensureSourceLocations_table _ Hnone) as (tbl & Hok & _ & _ & Hall).
  rewrite Forall_forall in Hall.
  apply (nodeFiled_same_key tbl) in Hsame; auto.
  rewrite Hframe in Hsame. apply Hline. symmetry.
  apply (refKey_line (RawNode.callFrame node1) _ _
           (CallFrame.columnNumber (RawNode.callFrame node1))).
  rewrite <- Hsame. by destruct (RawNode.callFrame node1).
Qed.

End SourceLocations.

(** *** Shape of the bottom-up tree *)

Lemma fmap_alter_same {A B} (g : A → B) (f : A → A) (i : nat) (l : list A) :
  (∀ a, g (f a) = g a) → g <$> alter f i l = g <$> l.
Proof.
  intros Hg. apply list_eq. intros j. rewrite !list_lookup_fmap.
  destruct (decide (i = j)) as [->|Hne].
  - rewrite list_lookup_alter_eq. destruct (l !! j); simpl; [by rewrite Hg|done].
  - by rewrite list_lookup_alter_ne.
Qed.

(** [addNode] changes times only. *)
Lemma addNode_frame {B} (g : BottomUpNode.t → B) :
  (∀ s a b, g (BottomUpNode.addTimes s a b) = g b) →
  ∀ fuel this node store store',
    addNode fuel this node store = Some store' → g <$> store' = g <$> store.
Proof.
  intros Hg. induction fuel as [|fuel IH]; intros this node store store' Hrun; [done|].
  simpl in Hrun. destruct (store !! this) as [self|]; simpl in Hrun; [|done].
  destruct (BottomUpNode.parent self) as [p|].
  - apply IH in Hrun. rewrite Hrun. by apply fmap_alter_same.
  - injection Hrun as <-. by apply fmap_alter_same.
Qed.

Lemma linkedStore_same model store store' :
  (λ b, (BottomUpNode.location b, BottomUpNode.parent b, BottomUpNode.children b)) <$> store'
  = (λ b, (BottomUpNode.location b, BottomUpNode.parent b, BottomUpNode.children b))
      <$> store →
  linkedStore model store → linkedStore model store'.
Proof.
  intros Hsame [Hup Hdown].
  assert (Hback : ∀ a b', store' !! a = Some b' →
            ∃ b, store !! a = Some b ∧ BottomUpNode.location b = BottomUpNode.location b' ∧
                 BottomUpNode.parent b = BottomUpNode.parent b' ∧
                 BottomUpNode.children b = BottomUpNode.children b').
  { intros a b' Hb'. symmetry in Hsame.
    destruct (lookup_fmap_eq _ _ _ _ _ Hsame Hb') as (b & Hb & Heq).
    injection Heq as ? ? ?. by exists b. }
  assert (Hforth : ∀ a b, store !! a = Some b →
            ∃ b', store' !! a = Some b' ∧ BottomUpNode.location b' = BottomUpNode.location b ∧
                  BottomUpNode.parent b' = BottomUpNode.parent b ∧
                  BottomUpNode.children b' = BottomUpNode.children b).
  { intros a b Hb.
    destruct (lookup_fmap_eq _ _ _ _ _ Hsame Hb) as (b' & Hb' & Heq).
    injection Heq as ? ? ?. by exists b'. }
  split.
  - intros a b' p Hb' Hp. destruct (Hback _ _ Hb') as (b & Hb & Hl & Hpar & _).
    destruct (Hup a b p Hb) as (pn & key & Hpn & Hkey & Hloc); [congruence|].
    destruct (Hforth _ _ Hpn) as (pn' & Hpn' & _ & _ & Hc').
    exists pn', key. split; [done|]. split; [by rewrite Hc'|congruence].
  - intros p pn' key a Hpn' Hkey. destruct (Hback _ _ Hpn') as (pn & Hpn & _ & _ & Hc).
    destruct (Hdown p pn key a Hpn) as (b & Hb & Hpar & Hloc); [by rewrite Hc|].
    destruct (Hforth _ _ Hb) as (b' & Hb' & Hl' & Hp' & _).
    exists b'. split; [done|]. split; congruence.
Qed.

(** The store after [childFor] made a new child. *)
Lemma lookup_new_child aggregate self key (new : BottomUpNode.t) store a :
  store !! aggregate = Some self →
  alter (BottomUpNode.setChild key (length store)) aggregate (store ++ [new]) !! a
  = if decide (a = aggregate) then Some (BottomUpNode.setChild key (length store) self)
    else if decide (a = length store) then Some new
    else store !! a.
Proof.
  intros Hself. pose proof (lookup_lt_Some _ _ _ Hself) as Hlt.
  case_decide as Ha.
  - subst a. by rewrite list_lookup_alter_eq, lookup_app_l, Hself by done.
  - rewrite list_lookup_alter_ne by done. case_decide as Hnew.
    + subst a. by rewrite lookup_app_r, Nat.sub_diag by lia.
    + destruct (decide (a < length store)%nat) as [Hin|Hout].
      * by rewrite lookup_app_l.
      * rewrite lookup_app_r by lia.
        destruct (a - length store)%nat as [|k] eqn:Hk; [lia|]. simpl.
        symmetry. apply lookup_ge_None. lia.
Qed.

Lemma childFor_linked model aggregate self node store :
  store !! aggregate = Some self →
  linkedStore model store →
  linkedStore model (snd (childFor aggregate self node model store)).
Proof.
  intros Hself [Hup Hdown]. unfold childFor.
  destruct (BottomUpNode.children self !! IComputedNode.locationId node) as [child|] eqn:Hchild;
    [done|]. simpl.
  set (key := IComputedNode.locationId node) in *.
  set (new := BottomUpNode.mk (lookupZ (IProfileModel.locations model) key)
                (Some aggregate) ∅ 0 0 0).
  pose proof (lookup_lt_Some _ _ _ Hself) as Hlt.
  (* what an old node is after the call *)
  assert (Hold : ∀ a b, store !! a = Some b →
            ∃ b', alter (BottomUpNode.setChild key (length store)) aggregate
                    (store ++ [new]) !! a = Some b' ∧
                  BottomUpNode.location b' = BottomUpNode.location b ∧
                  BottomUpNode.parent b' = BottomUpNode.parent b ∧
                  ∀ k c, BottomUpNode.children b !! k = Some c →
                         BottomUpNode.children b' !! k = Some c).
  { intros a b Hb. rewrite (lookup_new_child _ self) by done.
    pose proof (lookup_lt_Some _ _ _ Hb) as Ha.
    case_decide as Hagg.
    - subst a. rewrite Hself in Hb. injection Hb as <-. eexists. split; [done|].
      split; [done|]. split; [done|]. intros k c Hk. simpl.
      rewrite lookup_insert_ne; [done|]. intros <-. congruence.
    - rewrite decide_False by lia. by exists b. }
  split.
  - intros a b p Hb Hp. rewrite (lookup_new_child _ self) in Hb by done.
    assert (Hcase : (∃ b0, store !! a = Some b0 ∧ BottomUpNode.parent b0 = Some p ∧
                           BottomUpNode.location b0 = BottomUpNode.location b)
                    ∨ (a = length store ∧ b = new)).
    { case_decide as Hagg.
      - injection Hb as <-. left. subst a. by exists self.
      - case_decide as Hnew.
        + injection Hb as <-. by right.
        + left. by exists b. }
    destruct Hcase as [(b0 & Hb0 & Hp0 & Hl0)|[-> ->]].
    + destruct (Hup a b0 p Hb0 Hp0) as (pn & k & Hpn & Hk & Hloc).
      destruct (Hold _ _ Hpn) as (pn' & Hpn' & _ & _ & Hkeep).
      exists pn', k. split; [done|]. split; [by apply Hkeep|congruence].
    + simpl in Hp. injection Hp as <-.
      exists (BottomUpNode.setChild key (length store) self), key.
      split; [by rewrite (lookup_new_child _ self), decide_True|].
      split; [|done]. simpl. by rewrite lookup_insert_eq.
  - intros p pn k a Hpn Hk. rewrite (lookup_new_child _ self) in Hpn by done.
    assert (Hcase : (∃ pn0, store !! p = Some pn0 ∧
                            BottomUpNode.children pn0 !! k = Some a)
                    ∨ (p = aggregate ∧ k = key ∧ a = length store)).
    { case_decide as Hagg.
      - injection Hpn as <-. simpl in Hk.
        destruct (decide (key = k)) as [<-|Hne].
        + rewrite lookup_insert_eq in Hk. injection Hk as <-. by right.
        + rewrite lookup_insert_ne in Hk by done. left. subst p. by exists self.
      - case_decide as Hnew.
        + injection Hpn as <-. simpl in Hk. by rewrite lookup_empty in Hk.
        + left. by exists pn. }
    destruct Hcase as [(pn0 & Hpn0 & Hk0)|(-> & -> & ->)].
    + destruct (Hdown p pn0 k a Hpn0 Hk0) as (b & Hb & Hp & Hloc).
      destruct (Hold _ _ Hb) as (b' & Hb' & Hl' & Hp' & _).
      exists b'. split; [done|]. split; congruence.
    + exists new. split; [|done].
      rewrite (lookup_new_child _ self) by done.
      rewrite decide_False by lia. by rewrite decide_True.
Qed.

Lemma processNode_linked model fuel : ∀ aggregate node store store',
  linkedStore model store →
  processNode fuel aggregate node model store = Some store' →
  linkedStore model store'.
Proof.
  induction fuel as [|fuel IH]; intros aggregate node store store' Hlinked Hrun; [done|].
  simpl in Hrun. destruct (store !! aggregate) as [self|] eqn:Hself; simpl in Hrun; [|done].
  pose proof (childFor_linked model aggregate self node store Hself Hlinked) as Hlinked1.
  destruct (addNode _ _ node _) as [store2|] eqn:Hadd; simpl in Hrun; [|done].
  apply (addNode_frame
           (λ b, (BottomUpNode.location b, BottomUpNode.parent b, BottomUpNode.children b)))
    in Hadd; [|done].
  pose proof (linkedStore_same _ _ _ Hadd Hlinked1) as Hlinked2.
  destruct (truthyNumber (IComputedNode.parent node)).
  - destruct (lookupZ _ _) as [parentNode|]; simpl in Hrun; [|done]. by eapply IH.
  - by injection Hrun as <-.
Qed.

(** X12. The store that [createBottomUpGraph] returns is a tree rooted at
    address 0 whose parent pointers and child maps agree: every node but
    the root is filed in its parent's map under the id of its own
    location, and every entry of a map is such a node. *)
Theorem createBottomUpGraph_tree fuel model store :
  createBottomUpGraph fuel model = Some store →
  wellRooted store ∧ linkedStore model store.
Proof.
  unfold createBottomUpGraph. intros Hrun.
  destruct (forM (pushByLocation model) _ _) as [shared|]; simpl in Hrun; [|done].
  apply (forM_inv (λ s, wellRooted s ∧ linkedStore model s)) in Hrun; [done| |].
  - intros s node s' [Hwf Hlinked] Hstep. case_decide; [|by injection Hstep as <-].
    split.
    + by destruct (processNode_root _ _ _ _ _ _ Hwf Hstep).
    + by eapply processNode_linked.
  - split; [split|split].
    + by eexists.
    + intros [|a] b Hpos Hb; [lia|done].
    + intros [|a] b p Hb Hp; [|done]. by injection Hb as <-.
    + intros [|p] pn key a Hpn Hkey; [|done].
      injection Hpn as <-. simpl in Hkey. by rewrite lookup_empty in Hkey.
Qed.

Lemma forM_throws {S A} (body : S → A → option S) (a : A) :
  (∀ s, body s a = None) → ∀ l s, a ∈ l → forM body l s = None.
Proof.
  intros Hthrow. induction l as [|a' l IH]; intros s Hin; [by apply elem_of_nil in Hin|].
  rewrite forM_cons. apply elem_of_cons in Hin as [<-|Hin].
  - by rewrite Hthrow.
  - destruct (body s a') as [s'|]; simpl; [by apply IH|done].
Qed.

(** X13. [createBottomUpGraph] throws when any node of the model, leaf or
    not, has a location id that is no index of the locations. *)
Theorem createBottomUpGraph_bad_location fuel model node :
  node ∈ IProfileModel.nodes model →
  ¬ (0 ≤ IComputedNode.locationId node
     < Z.of_nat (length (IProfileModel.locations model))) →
  createBottomUpGraph fuel model = None.
Proof.
  intros Hin Hbad. unfold createBottomUpGraph.
  rewrite (forM_throws (pushByLocation model) node); [done| |done].
  intros shared. unfold pushByLocation. by rewrite decide_False.
Qed.

(** *** The parent chains of a built model end *)

Lemma shallow_mono nodes : ∀ h h' i, (h ≤ h')%nat → shallow h nodes i → shallow h' nodes i.
Proof.
  induction h as [|h IH]; intros h' i Hle Hi; [done|].
  destruct h' as [|h']; [lia|]. destruct Hi as (row & Hrow & Hchildren).
  exists row. split; [done|]. eapply Forall_impl; [done|].
  intros c Hc. apply (IH h'); [lia|done].
Qed.

Lemma settled_shallow nodes i : settled nodes i → ∃ h, shallow h nodes i.
Proof.
  induction 1 as [i row Hrow _ _ IH].
  assert (Hall : ∃ h, Forall (shallow h nodes) (IComputedNode.children row)).
  { induction (IComputedNode.children row) as [|c cs IHcs]; [by exists 0%nat|].
    destruct (IH c) as [hc Hc]; [by left|].
    destruct IHcs as [hcs Hcs]; [intros c' Hc'; apply IH; by right|].
    exists (hc `max` hcs)%nat. constructor.
    - apply (shallow_mono _ hc); [lia|done].
    - eapply Forall_impl; [done|]. intros c' Hc'. apply (shallow_mono _ hcs); [lia|done]. }
  destruct Hall as [h Hall]. exists (S h), row. by split.
Qed.

Lemma shallow_bound nodes :
  (∀ i, is_Some (lookupZ nodes i) → settled nodes i) →
  ∃ h, ∀ i, is_Some (lookupZ nodes i) → shallow h nodes i.
Proof.
  intros Hsettled.
  assert (Hupto : ∀ m, (m ≤ length nodes)%nat →
            ∃ h, ∀ i, (i < m)%nat → shallow h nodes (Z.of_nat i)).
  { induction m as [|m IH]; intros Hm; [exists 0%nat; intros; lia|].
    destruct IH as [h Hh]; [lia|].
    destruct (settled_shallow nodes (Z.of_nat m)) as [hm Hhm].
    { apply Hsettled, lookupZ_is_Some. lia. }
    exists (h `max` hm)%nat. intros i Hi. destruct (decide (i = m)) as [->|Hne].
    - apply (shallow_mono _ hm); [lia|done].
    - apply (shallow_mono _ h); [lia|]. apply Hh. lia. }
  destruct (Hupto (length nodes)) as [h Hh]; [done|].
  exists h. intros i Hi. apply lookupZ_is_Some in Hi.
  rewrite <- (Z2Nat.id i) by lia. apply Hh. lia.
Qed.

Lemma chainEnds_mono nodes : ∀ fuel fuel' node,
  (fuel ≤ fuel')%nat → chainEnds fuel nodes node → chainEnds fuel' nodes node.
Proof.
  induction fuel as [|fuel IH]; intros fuel' node Hle Hnode; [done|].
  destruct fuel' as [|fuel']; [lia|]. simpl in *.
  destruct (truthyNumber (IComputedNode.parent node)); [|done].
  destruct (lookupZ nodes _) as [parentNode|]; [|done]. apply (IH fuel'); [lia|done].
Qed.

Lemma chainEnds_ancestorsEnd nodes : ∀ fuel node,
  chainEnds fuel nodes node → ancestorsEnd fuel nodes (IComputedNode.parent node).
Proof.
  induction fuel as [|fuel IH]; intros node Hnode; [done|]. simpl in *.
  destruct (truthyNumber (IComputedNode.parent node)); [|done].
  destruct (lookupZ nodes _) as [parentNode|]; [|done]. by apply IH.
Qed.

(** When parents list their children and the children lists nest at most
    [h] deep, a parent chain has at most [h] steps. *)
Lemma shallow_chainEnds nodes h :
  parentsListed nodes →
  (∀ i, is_Some (lookupZ nodes i) → shallow h nodes i) →
  ∀ k c node, (k ≤ h)%nat → lookupZ nodes c = Some node → ¬ shallow (h - k) nodes c →
              chainEnds (S k) nodes node.
Proof.
  intros Hlisted Hshallow. induction k as [|k IH]; intros c node Hk Hnode Hdeep.
  - exfalso. apply Hdeep. rewrite Nat.sub_0_r. apply Hshallow. by eexists.
  - cbn [chainEnds]. destruct (truthyNumber (IComputedNode.parent node)) eqn:Htruthy; [|done].
    destruct (IComputedNode.parent node) as [p|] eqn:Hp; [|done]. simpl.
    destruct (Hlisted c node p Hnode Hp) as (pn & Hpn & Hc).
    rewrite Hpn. apply (IH p); [lia|done|].
    intros Hshallow_p. apply Hdeep.
    replace (h - k)%nat with (S (h - S k)) in Hshallow_p by lia.
    destruct Hshallow_p as (row & Hrow & Hchildren).
    rewrite Hpn in Hrow. injection Hrow as <-.
    rewrite Forall_forall in Hchildren. by apply Hchildren.
Qed.

Section BuiltChains.
Context `{PathUtils}.

(** Every node of a built model is settled. *)
Lemma built_settled fuel profile model profile' :
  buildModel fuel profile = Some (model, profile') →
  ∀ i, is_Some (lookupZ (IProfileModel.nodes model) i) → settled (IProfileModel.nodes model) i.
Proof.
  intros Hrun i [row Hrow].
  destruct (buildModel_empty_or_steps _ _ _ _ Hrun)
    as [(Hnone & _)|(samples & timeDeltas & Hs & Htd)].
  { rewrite Hnone in Hrow. unfold lookupZ in Hrow. by case_decide. }
  destruct (buildModel_steps _ _ _ _ _ _ Hs Htd Hrun)
    as (locations & slots & locations1 & nodes & nodes1 & nodes2
        & _ & Hplace & Hslots & Hlink & Hsamples & Hroll & _).
  destruct (linked_nodes_fresh _ _ _ _ _ _ Hplace Hslots Hlink) as [_ Hzero].
  pose proof (buildModel_node_count _ _ _ _ _ _ _ Hsamples Hroll) as Hcount.
  apply addSamples_sum in Hsamples as (_ & Hagg & Hchildren); [|lia].
  assert (Hinv : cachedSettled nodes2).
  { intros j rowj Hj Hne. exfalso. apply Hne.
    apply lookupZ_Some in Hj as [_ Hj]. rewrite <- Hagg in Hzero.
    rewrite Forall_fmap, Forall_lookup in Hzero. by apply (Hzero _ _ Hj). }
  destruct (rolledUp_settled fuel _ (nodes2, locations1) _ Hinv Hroll) as (_ & _ & _ & Hall).
  simpl in *. rewrite Forall_forall in Hall.
  destruct (Hall (Z.to_nat i)) as [Hsettled _].
  { apply elem_of_seq. apply lookupZ_lt in Hrow.
    pose proof (f_equal length Hchildren) as Hlen. rewrite !length_fmap in Hlen. lia. }
  rewrite Z2Nat.id in Hsettled by (apply lookupZ_lt in Hrow; lia). done.
Qed.

(** In a built model every parent chain ends, within a number of steps
    that depends on the model only. *)
Lemma built_chains fuel profile model profile' :
  buildModel fuel profile = Some (model, profile') →
  ∃ fuel0, ∀ c node, lookupZ (IProfileModel.nodes model) c = Some node →
                     chainEnds fuel0 (IProfileModel.nodes model) node.
Proof.
  intros Hrun.
  destruct (shallow_bound _ (built_settled _ _ _ _ Hrun)) as [h Hh].
  destruct (built_parents _ _ _ _ Hrun) as [Hlisted _].
  exists (S h). intros c node Hnode.
  apply (shallow_chainEnds _ h Hlisted Hh h c); [done|done|].
  rewrite Nat.sub_diag. by intros [].
Qed.

(** X14. [createBottomUpGraph] returns a tree for every model that
    [buildModel] built: no look-up fails, and the walks up the parents
    end. *)
Theorem createBottomUpGraph_total fuel profile model profile' :
  buildModel fuel profile = Some (model, profile') →
  ∃ fuel0, ∀ fuel', (fuel0 ≤ fuel')%nat → is_Some (createBottomUpGraph fuel' model).
Proof.
  intros Hrun. destruct (built_chains _ _ _ _ Hrun) as [fuel0 Hchains].
  exists fuel0. intros fuel' Hfuel. apply createBottomUpGraph_returns.
  - apply Forall_forall. intros node [i Hnode]%list_elem_of_lookup.
    apply lookupZ_is_Some.
    apply (buildModel_validLocations _ _ _ _ Hrun (Z.of_nat i)).
    by rewrite lookupZ_of_nat.
  - apply Forall_forall. intros node Hnode. unfold leaves in Hnode.
    apply list_elem_of_In, filter_In in Hnode as [Hnode _].
    apply list_elem_of_In, list_elem_of_lookup in Hnode as [i Hnode].
    apply (chainEnds_mono _ fuel0); [done|].
    apply (Hchains (Z.of_nat i)). by rewrite lookupZ_of_nat.
Qed.

End BuiltChains.

(** *** Phase 1, column by column *)

Lemma ancestorRows_times model delta fuel : ∀ id counter rows rows' counter',
  ancestorRows fuel model delta id counter rows = Some (rows', counter') →
  ∃ front,
    rows' = front ++ rows ∧
    Forall (λ r, ∃ c, r = Cell c ∧ FlameCell.selfTime c = 0 ∧
                      FlameCell.aggregateTime c = delta) front.
Proof.
  induction fuel as [|fuel IH]; intros id counter rows rows' counter' Hrun; [done|].
  simpl in Hrun. destruct (truthyNumber id).
  - destruct (lookupZ (IProfileModel.nodes model) (default 0 id)) as [node|];
      simpl in Hrun; [|done].
    apply IH in Hrun as (front & -> & Hfront).
    eexists (front ++ [_]). split; [by rewrite <- app_assoc|].
    apply Forall_app. split; [done|]. constructor; [|done]. by eexists.
  - injection Hrun as <- <-. by exists [].
Qed.

Lemma synthesizeColumn_spec fuel model st i st' :
  synthesizeColumn fuel model st i = Some st' →
  ∃ delta rows,
    IProfileModel.timeDeltas model !! (i - 1)%nat = Some delta ∧
    stackTimes delta rows ∧
    Synthesis.columns st'
    = Synthesis.columns st
      ++ [IColumn.mk (Fraction.mk (Synthesis.timeOffset st) (IProfileModel.duration model))
            (Fraction.mk (delta + Synthesis.timeOffset st) (IProfileModel.duration model))
            rows] ∧
    Synthesis.timeOffset st' = Synthesis.timeOffset st + delta.
Proof.
  intros Hrun. unfold synthesizeColumn in Hrun.
  destruct (IProfileModel.samples model !! i) as [sample|]; simpl in Hrun; [|done].
  destruct (lookupZ (IProfileModel.nodes model) sample) as [root|]; simpl in Hrun; [|done].
  destruct (IProfileModel.timeDeltas model !! (i - 1)%nat) as [delta|]; simpl in Hrun;
    [|done].
  destruct (ancestorRows _ _ _ _ _ _) as [[rows counter]|] eqn:Hrows; simpl in Hrun; [|done].
  injection Hrun as <-. simpl.
  apply ancestorRows_times in Hrows as (front & -> & Hfront).
  eexists delta, _. split; [done|]. split; [|done].
  eexists front, _. by repeat split.
Qed.

Lemma synthesized_columns fuel model : ∀ m st,
  forM (synthesizeColumn fuel model) (seq 1 m) (Synthesis.mk [] 0 0) = Some st →
  length (Synthesis.columns st) = m ∧
  Synthesis.timeOffset st = sumZ (take m (IProfileModel.timeDeltas model)) ∧
  ∀ x col, Synthesis.columns st !! x = Some col → phase1Column model x col.
Proof.
  induction m as [|m IH]; intros st Hrun.
  - injection Hrun as <-. by repeat split.
  - rewrite seq_S, forM_app in Hrun.
    destruct (forM _ (seq 1 m) _) as [st1|] eqn:Hloop; [|done].
    destruct (IH _ eq_refl) as (Hlen & Hoffset & Hcols).
    change (forM (synthesizeColumn fuel model) [(1 + m)%nat] st1 = Some st) in Hrun.
    rewrite forM_cons in Hrun.
    destruct (synthesizeColumn fuel model st1 (1 + m)) as [st2|] eqn:Hstep; [|done].
    injection Hrun as <-.
    apply synthesizeColumn_spec in Hstep as (delta & rows & Hdelta & Hrows & Hcolumns & Hoff).
    replace (1 + m - 1)%nat with m in Hdelta by lia.
    rewrite Hcolumns, Hoff, length_app, Hlen, Hoffset. simpl.
    split; [lia|]. split.
    { rewrite (take_S_r _ _ _ Hdelta), sumZ_app. unfold sumZ at 3. simpl. lia. }
    intros x col [Hx|[Hx Hcol]]%lookup_app_Some; [by apply Hcols|].
    rewrite Hlen in Hx, Hcol. destruct (x - m)%nat as [|k] eqn:Hk; simpl in Hcol; [|done].
    injection Hcol as <-. assert (x = m) as -> by lia.
    exists delta. by repeat split.
Qed.

Lemma initialColumns_phase1 fuel model columns0 :
  initialColumns fuel model = Some columns0 →
  length columns0 = (length (IProfileModel.samples model) - 2)%nat ∧
  ∀ x col, columns0 !! x = Some col → phase1Column model x col.
Proof.
  unfold initialColumns. intros Hrun.
  destruct (forM _ _ _) as [st|] eqn:Hloop; simpl in Hrun; [|done].
  injection Hrun as <-.
  by destruct (synthesized_columns _ _ _ _ Hloop) as (Hlen & _ & Hcols).
Qed.

(** *** What the merge keeps *)

(** A property of the columns that every merging turn keeps holds of the
    merged columns. *)
Lemma mergeRows_keeps columns0 (Q : list IColumn.t → Prop) k :
  allCells columns0 → (1 ≤ k)%nat →
  (∀ y columns columns' p c t,
     merging columns0 k y columns → mergedInto columns columns' k y p c t →
     Q columns → Q columns') →
  ∀ n y columns columns',
    merging columns0 k y columns → Q columns →
    mergeRows k (seq y n) columns = Some columns' → Q columns'.
Proof.
  intros Hcells Hk Hstep.
  induction n as [|n IH]; intros y columns columns' Hinv HQ Hrun; simpl in Hrun.
  - by injection Hrun as <-.
  - destruct (mergeRow k y columns) as [| |columns1] eqn:Hrow; [done| |].
    + by injection Hrun as <-.
    + apply mergeRow_Continue in Hrow as (p & c & t & Hrow); [|done].
      apply (IH (S y) columns1); [|by eapply Hstep|done].
      by eapply merging_step.
Qed.

Lemma mergeColumns_keeps columns0 (Q : list IColumn.t → Prop) :
  allCells columns0 →
  (∀ k y columns columns' p c t,
     (1 ≤ k)%nat → merging columns0 k y columns → mergedInto columns columns' k y p c t →
     Q columns → Q columns') →
  ∀ m k columns columns',
    (1 ≤ k)%nat → merging columns0 k 0 columns → Q columns →
    forM mergeColumn (seq k m) columns = Some columns' → Q columns'.
Proof.
  intros Hcells Hstep.
  induction m as [|m IH]; intros k columns columns' Hk Hinv HQ Hrun.
  - by injection Hrun as <-.
  - cbn [seq] in Hrun. rewrite forM_cons in Hrun.
    destruct (mergeColumn columns k) as [columns1|] eqn:Hcolumn; simpl in Hrun; [|done].
    apply (IH (S k) columns1); [lia|by eapply mergeColumn_merging| |done].
    unfold mergeColumn in Hcolumn.
    destruct (columns !! k) as [col|]; simpl in Hcolumn; [|done].
    eapply (mergeRows_keeps columns0 Q k); [done|done| |done|done|done].
    intros y cols cols' p c t. by apply Hstep.
Qed.

Lemma buildColumns_keeps fuel model (Q : list IColumn.t → list IColumn.t → Prop) columns :
  buildColumns fuel model = Some columns →
  ∃ columns0,
    initialColumns fuel model = Some columns0 ∧
    merging columns0 (1 + (length columns0 - 1)) 0 columns ∧
    ((∀ k y cols cols' p c t,
        (1 ≤ k)%nat → merging columns0 k y cols → mergedInto cols cols' k y p c t →
        Q columns0 cols → Q columns0 cols') →
     Q columns0 columns0 → Q columns0 columns).
Proof.
  intros Hrun.
  destruct (buildColumns_merging _ _ _ Hrun) as (columns0 & Hinit & Hmerge & Hall & Hinv).
  exists columns0. split; [done|]. split; [done|].
  intros Hstep HQ. unfold mergeColumns in Hmerge.
  pose proof (initialColumn_allCells _ _ Hall) as Hcells.
  eapply (mergeColumns_keeps columns0 (Q columns0) Hcells Hstep _ 1 columns0);
    [lia| |done|done].
  by apply merging_initial.
Qed.

Lemma length_setRow y r col :
  length (IColumn.rows (IColumn.setRow y r col)) = length (IColumn.rows col).
Proof. simpl. by rewrite length_insert. Qed.

Lemma mergedInto_frames columns columns' k y p c t :
  mergedInto columns columns' k y p c t → columnFrames columns' = columnFrames columns.
Proof.
  intros (_ & _ & _ & _ & _ & ->). unfold columnFrames, setRowAt.
  rewrite !fmap_alter_same; [done|..]; intros col; simpl; by rewrite length_insert.
Qed.

Lemma columnFrames_lookup columns columns' x col' :
  columnFrames columns' = columnFrames columns → columns' !! x = Some col' →
  ∃ col, columns !! x = Some col ∧ IColumn.x1 col = IColumn.x1 col' ∧
         IColumn.x2 col = IColumn.x2 col' ∧
         length (IColumn.rows col) = length (IColumn.rows col').
Proof.
  intros Hframes Hcol'. symmetry in Hframes.
  destruct (lookup_fmap_eq _ _ _ _ _ Hframes Hcol') as (col & Hcol & Heq).
  injection Heq as ? ? ?. by exists col.
Qed.

Lemma buildColumns_frames fuel model columns :
  buildColumns fuel model = Some columns →
  ∃ columns0,
    initialColumns fuel model = Some columns0 ∧
    columnFrames columns = columnFrames columns0.
Proof.
  intros Hrun.
  destruct (buildColumns_keeps fuel model
              (λ columns0 cols, columnFrames cols = columnFrames columns0) columns Hrun)
    as (columns0 & Hinit & _ & Hkeep).
  exists columns0. split; [done|]. apply Hkeep; [|done].
  intros k y cols cols' p c t _ _ Hstep <-. by eapply mergedInto_frames.
Qed.

(** X15. [buildColumns] returns one column for each sample but the first
    and the last; column [x] starts at the sum of the deltas before index
    [x] and is as wide as the delta at index [x] (both over the duration),
    so each column starts where the one before it ends. *)
Theorem buildColumns_extents fuel model columns :
  buildColumns fuel model = Some columns →
  length columns = (length (IProfileModel.samples model) - 2)%nat ∧
  ∀ x col, columns !! x = Some col →
    ∃ delta,
      IProfileModel.timeDeltas model !! x = Some delta ∧
      IColumn.x1 col
        = Fraction.mk (sumZ (take x (IProfileModel.timeDeltas model)))
            (IProfileModel.duration model) ∧
      IColumn.x2 col
        = Fraction.mk (delta + sumZ (take x (IProfileModel.timeDeltas model)))
            (IProfileModel.duration model).
Proof.
  intros Hrun.
  destruct (buildColumns_frames _ _ _ Hrun) as (columns0 & Hinit & Hframes).
  destruct (initialColumns_phase1 _ _ _ Hinit) as [Hlen Hcols].
  split.
  - pose proof (f_equal length Hframes) as Hl. unfold columnFrames in Hl.
    rewrite !length_fmap in Hl. lia.
  - intros x col Hcol.
    destruct (columnFrames_lookup _ _ _ _ Hframes Hcol) as (col0 & Hcol0 & Hx1 & Hx2 & _).
    destruct (Hcols _ _ Hcol0) as (delta & Hdelta & Hx1' & Hx2' & _).
    exists delta. split; [done|]. split; congruence.
Qed.

(** *** Row totals *)

Lemma mergedInto_rowTotal f columns columns' k y p c t y' :
  (∀ c t, f (FlameCell.addTimes c t) = f t + f c) →
  mergedInto columns columns' k y p c t →
  rowTotal f columns' y' = rowTotal f columns y'.
Proof.
  intros Hf Hstep. pose proof (mergedInto_rowAt _ _ _ _ _ _ _ Hstep) as Hrows.
  destruct Hstep as (Hc & Ht & _ & Hpk & _ & ->).
  unfold rowTotal. rewrite !length_setRowAt.
  destruct (decide (y' = y)) as [->|Hy].
  - rewrite (sumZ_seq_change
               (λ x, if decide (x = k) then 0 else initialTime f columns x y)
               (λ x, initialTime f _ x y) p (f c)).
    + rewrite (sumZ_seq_change (λ x, initialTime f columns x y)
                 (λ x, if decide (x = k) then 0 else initialTime f columns x y) k (- f c));
        [lia| | |].
      * apply rowAt_lt in Hc. lia.
      * intros i Hi. by rewrite decide_False.
      * rewrite decide_True by done. unfold initialTime. rewrite Hc. lia.
    + apply rowAt_lt in Ht. lia.
    + intros i Hi. unfold initialTime. rewrite Hrows.
      rewrite decide_False by (intros [? _]; done).
      destruct (decide (i = k)) as [->|Hk]; [by rewrite decide_True|].
      by rewrite decide_False by (intros [? _]; done).
    + unfold initialTime at 1. rewrite Hrows, decide_True by done.
      rewrite decide_False by done. unfold initialTime. rewrite Ht, Hf. done.
  - apply sumZ_ext. intros x _. unfold initialTime. rewrite Hrows.
    by rewrite !decide_False by (intros [_ ?]; done).
Qed.

Lemma stackTimes_lookup delta rows y :
  stackTimes delta rows →
  match rows !! y with Some (Cell c) => FlameCell.selfTime c | _ => 0 end
  = (if bool_decide (length rows = S y) then delta else 0) ∧
  match rows !! y with Some (Cell c) => FlameCell.aggregateTime c | _ => 0 end
  = (if bool_decide (S y < length rows)%nat then delta else 0).
Proof.
  intros (front & leaf & -> & Hself & Hagg & Hfront). rewrite length_app. simpl.
  destruct (decide (y < length front)%nat) as [Hlt|Hge].
  - rewrite lookup_app_l by done.
    destruct (lookup_lt_is_Some_2 front y Hlt) as [r Hr]. rewrite Hr.
    rewrite Forall_lookup in Hfront. destruct (Hfront _ _ Hr) as (c & -> & Hs & Ha).
    rewrite bool_decide_eq_false_2 by lia. rewrite bool_decide_eq_true_2 by lia. done.
  - rewrite lookup_app_r by lia. destruct (y - length front)%nat as [|k] eqn:Hk; simpl.
    + rewrite bool_decide_eq_true_2 by lia. rewrite bool_decide_eq_false_2 by lia. done.
    + rewrite bool_decide_eq_false_2 by lia. rewrite bool_decide_eq_false_2 by lia.
      by destruct k.
Qed.

(** X16. In the columns that [buildColumns] returns, the self times of
    the cells of a row add up to the deltas of the columns whose last row
    it is, and the aggregate times to the deltas of the columns that go
    deeper: merging moves time between cells of a row and loses none. *)
Theorem buildColumns_row_totals fuel model columns :
  buildColumns fuel model = Some columns →
  ∀ y,
    rowTotal FlameCell.selfTime columns y
    = sumZ ((λ x, if bool_decide (depthAt columns x = S y)
                  then default 0 (IProfileModel.timeDeltas model !! x) else 0)
            <$> seq 0 (length columns)) ∧
    rowTotal FlameCell.aggregateTime columns y
    = sumZ ((λ x, if bool_decide (S y < depthAt columns x)%nat
                  then default 0 (IProfileModel.timeDeltas model !! x) else 0)
            <$> seq 0 (length columns)).
Proof.
  intros Hrun y.
  destruct (buildColumns_frames _ _ _ Hrun) as (columns0 & Hinit & Hframes).
  destruct (initialColumns_phase1 _ _ _ Hinit) as [_ Hcols].
  assert (Hlen : length columns = length columns0).
  { pose proof (f_equal length Hframes) as Hl. unfold columnFrames in Hl.
    by rewrite !length_fmap in Hl. }
  assert (Hkept : ∀ f, (∀ c t, f (FlameCell.addTimes c t) = f t + f c) →
                       rowTotal f columns y = rowTotal f columns0 y).
  { intros f Hf.
    destruct (buildColumns_keeps fuel model
                (λ columns0 cols, rowTotal f cols y = rowTotal f columns0 y) columns Hrun)
      as (columns0' & Hinit' & _ & Hkeep).
    rewrite Hinit in Hinit'. injection Hinit' as <-. apply Hkeep; [|done].
    intros k y0 cols cols' p c t _ _ Hstep <-. by eapply mergedInto_rowTotal. }
  assert (Hcolumn : ∀ x, x ∈ seq 0 (length columns0) →
            ∃ col0 delta,
              columns0 !! x = Some col0 ∧
              default 0 (IProfileModel.timeDeltas model !! x) = delta ∧
              depthAt columns x = length (IColumn.rows col0) ∧
              stackTimes delta (IColumn.rows col0)).
  { intros x [_ Hx]%elem_of_seq. simpl in Hx.
    destruct (lookup_lt_is_Some_2 columns0 x Hx) as [col0 Hcol0].
    destruct (Hcols _ _ Hcol0) as (delta & Hdelta & _ & _ & Hstack).
    exists col0, delta. split; [done|]. split; [by rewrite Hdelta|]. split; [|done].
    destruct (lookup_lt_is_Some_2 columns x) as [col Hcol]; [lia|].
    destruct (columnFrames_lookup _ _ _ _ Hframes Hcol) as (col0' & Hcol0' & _ & _ & Hl).
    unfold depthAt. rewrite Hcol. simpl. congruence. }
  rewrite !Hkept by (intros [] []; simpl; lia). unfold rowTotal. rewrite Hlen.
  split; apply sumZ_ext; intros x Hx;
    destruct (Hcolumn x Hx) as (col0 & delta & Hcol0 & -> & -> & Hstack);
    unfold initialTime, rowAt; rewrite Hcol0; simpl;
    by destruct (stackTimes_lookup _ _ y Hstack) as [Hself Hagg].
Qed.

(** *** Spans nest *)

(** X17. In every column that [buildColumns] returns the numbers come
    before the cells, and the spans nest: when row [y] is a number [p],
    every row above it is a number too, and not a greater one. *)
Theorem buildColumns_spans_nest fuel model columns :
  buildColumns fuel model = Some columns →
  ∀ x y p, rowAt columns x y = Some (Merged p) →
  ∀ y', (y' < y)%nat → ∃ p', rowAt columns x y' = Some (Merged p') ∧ p' ≤ p.
Proof.
  intros Hrun.
  destruct (buildColumns_keeps fuel model
              (λ columns0 cols,
                 ∀ x y p, rowAt cols x y = Some (Merged p) →
                 ∀ y', (y' < y)%nat → ∃ p', rowAt cols x y' = Some (Merged p') ∧ p' ≤ p)
              columns Hrun) as (columns0 & Hinit & _ & Hkeep).
  pose proof (initialColumn_allCells _ _ (initialColumns_initial _ _ _ Hinit)) as Hcells.
  apply Hkeep.
  - intros k y0 cols cols' q c t Hk Hinv Hstep HQ x y p Hp y' Hy'.
    pose proof (mergedInto_rowAt _ _ _ _ _ _ _ Hstep) as Hrows.
    destruct Hstep as (Hc & Ht & _ & Hqk & Hleft & _).
    rewrite Hrows in Hp. rewrite Hrows.
    destruct (decide (x = q ∧ y = y0)) as [[-> ->]|Hnot1]; [done|].
    destruct (decide (x = k ∧ y = y0)) as [[-> ->]|Hnot2].
    + injection Hp as <-.
      rewrite decide_False by (intros [? _]; done).
      rewrite decide_False by (intros [_ ?]; lia).
      destruct (merging_current _ _ _ _ Hinv y' Hy') as [p'' Hp''].
      exists p''. split; [done|].
      destruct (merging_merged _ _ _ _ Hinv _ _ _ Hp'')
        as (p1 & -> & Hlt & [c1 Hc1] & Hspan).
      destruct Hleft as [Hleft| ->]; [|lia].
      destruct (HQ _ _ _ Hleft y' Hy') as (q' & Hq' & Hle).
      destruct (decide (p1 = (k - 1)%nat)) as [->|Hne]; [congruence|].
      rewrite Hspan in Hq' by lia. injection Hq' as <-. done.
    + assert (Hcell : ∀ y1 r, (y0 ≤ y1)%nat → rowAt cols k y1 = Some r → ∃ c1, r = Cell c1).
      { intros y1 r Hy1 Hr. apply (Hcells k y1).
        rewrite <- (merging_untouched _ _ _ _ Hinv); [done|].
        unfold touched. lia. }
      destruct (HQ _ _ _ Hp y' Hy') as (p' & Hp' & Hle).
      exists p'. split; [|done].
      rewrite decide_False by (intros [-> ->]; congruence).
      rewrite decide_False; [done|]. intros [-> ->].
      destruct (Hcell y (Merged p)) as [c1 Hc1]; [lia|done|done].
  - intros x y p Hp. destruct (Hcells _ _ _ Hp) as [c Hc]. done.
Qed.

(** *** buildColumns on a built model *)

Section BuiltColumns.
Context `{PathUtils}.

(** Step 2 looked up the node of every sample it counted. *)
Lemma built_samples fuel profile samples timeDeltas model profile' :
  ICpuProfileRaw.samples profile = Some samples →
  ICpuProfileRaw.timeDeltas profile = Some timeDeltas →
  buildModel fuel profile = Some (model, profile') →
  ∀ i, (1 ≤ i < length timeDeltas)%nat →
    ∃ sample, IProfileModel.samples model !! i = Some sample ∧
              is_Some (lookupZ (IProfileModel.nodes model) sample).
Proof.
  intros Hs Htd Hrun i Hi.
  destruct (buildModel_steps _ _ _ _ _ _ Hs Htd Hrun)
    as (locations & slots & locations1 & nodes & nodes1 & nodes2
        & _ & _ & _ & _ & Hsamples & Hroll & -> & _).
  pose proof (buildModel_node_count _ _ _ _ _ _ _ Hsamples Hroll) as Hcount.
  simpl in Hcount.
  apply (forM_Forall (λ ns, length ns = length nodes1)
           (λ i, ∃ sample, samples !! i = Some sample ∧
                           0 ≤ sample - 1 < Z.of_nat (length nodes1)))
    in Hsamples as [_ Hall]; [| |done].
  - rewrite Forall_forall in Hall.
    destruct (Hall i) as (sample & Hsample & Hrange).
    { apply elem_of_seq. lia. }
    exists (sample - 1). rewrite list_lookup_fmap, Hsample. split; [done|].
    apply lookupZ_is_Some. lia.
  - intros ns a ns' Hlen (sample & delta & Hsample & _ & Hrow & ->)%addSample_spec.
    rewrite length_alterZ. split; [done|].
    exists sample. split; [done|]. apply lookupZ_is_Some in Hrow. lia.
Qed.

(** X18. [buildColumns] returns columns for every model that [buildModel]
    built from a profile with at most one sample more than it has deltas:
    every sample it reads is a node, every delta it reads exists, the
    walks up the parents end and the merge does not throw. *)
Theorem buildColumns_total fuel profile model profile' :
  buildModel fuel profile = Some (model, profile') →
  (length (IProfileModel.samples model) ≤ length (IProfileModel.timeDeltas model) + 1)%nat →
  ∃ fuel0, ∀ fuel', (fuel0 ≤ fuel')%nat → is_Some (buildColumns fuel' model).
Proof.
  intros Hrun Hshape. destruct (built_chains _ _ _ _ Hrun) as [fuel0 Hchains].
  exists fuel0. intros fuel' Hfuel. apply buildColumns_returns.
  { by eapply buildModel_validLocations. }
  apply Forall_forall. intros i [Hi1 Hi2]%elem_of_seq.
  destruct (ICpuProfileRaw.samples profile) as [samples|] eqn:Hs;
    destruct (ICpuProfileRaw.timeDeltas profile) as [timeDeltas|] eqn:Htd.
  2-4: unfold buildModel in Hrun; rewrite Hs, Htd in Hrun; injection Hrun as <- <-;
       simpl in *; lia.
  destruct (built_samples _ _ _ _ _ _ Hs Htd Hrun i) as (sample & Hsample & [root Hroot]).
  { destruct (buildModel_steps _ _ _ _ _ _ Hs Htd Hrun)
      as (_ & _ & _ & _ & _ & _ & _ & _ & _ & _ & _ & _ & _ & Heq & _).
    rewrite Heq in Hshape. lia. }
  assert (Hdelta : is_Some (IProfileModel.timeDeltas model !! (i - 1)%nat)).
  { apply lookup_lt_is_Some. lia. }
  destruct Hdelta as [delta Hdelta].
  exists sample, root, delta. split; [done|]. split; [done|]. split; [done|].
  apply chainEnds_ancestorsEnd. apply (chainEnds_mono _ fuel0); [done|].
  by apply (Hchains sample).
Qed.

End BuiltColumns.

(** *** The children getter *)

(** The scan throws when it comes to a column of the span whose next row
    is a number other than 0: the constructor refuses it. *)
Lemma childrenFrom_merged_child this d p : ∀ fuel dx children reads,
  (∀ i, (LocationAccessor.x this < i ≤ LocationAccessor.x this + d)%nat →
        isMergedInto (rowAt (LocationAccessor.model this) i (LocationAccessor.y this))
          (LocationAccessor.x this) = true) →
  rowAt (LocationAccessor.model this) (LocationAccessor.x this + d)
    (S (LocationAccessor.y this)) = Some (Merged p) →
  p ≠ 0 →
  (LocationAccessor.x this ≤ dx ≤ LocationAccessor.x this + d)%nat →
  snd (childrenFrom fuel this dx children reads) = None.
Proof.
  induction fuel as [|fuel IH]; intros dx children reads Hspan Hchild Hp Hdx; [done|].
  simpl. destruct (LocationAccessor.model this !! dx) as [col|] eqn:Hcol; [|done].
  destruct (decide (dx = LocationAccessor.x this + d)%nat) as [->|Hne].
  - unfold rowAt in Hchild. rewrite Hcol in Hchild. simpl in Hchild. rewrite Hchild.
    simpl. destruct (Z.eqb_spec p 0) as [|_]; [done|]. simpl.
    unfold newLocationAccessor, rowAt. rewrite Hcol. simpl. by rewrite Hchild.
  - match goal with |- context [match ?pushed with Some _ => _ | None => _ end] =>
      destruct pushed as [children'|] end; [|done].
    destruct (LocationAccessor.model this !! S dx) as [next|] eqn:Hnext; [|done].
    pose proof (Hspan (S dx)) as Hmerged. unfold rowAt in Hmerged.
    rewrite Hnext in Hmerged. simpl in Hmerged. rewrite Hmerged by lia.
    apply IH; [done|done|done|lia].
Qed.

(** X19. The [children] getter throws whenever a column that the
    accessor's cell spans has, in the row below, a number other than 0:
    it constructs an accessor on that row, which the constructor
    refuses. *)
Theorem children_merged_child this d p :
  (∀ i, (LocationAccessor.x this < i ≤ LocationAccessor.x this + d)%nat →
        isMergedInto (rowAt (LocationAccessor.model this) i (LocationAccessor.y this))
          (LocationAccessor.x this) = true) →
  rowAt (LocationAccessor.model this) (LocationAccessor.x this + d)
    (S (LocationAccessor.y this)) = Some (Merged p) →
  p ≠ 0 →
  snd (children this) = None ∧
  ∀ fuel, snd (childrenFrom fuel this (LocationAccessor.x this) [] []) = None.
Proof.
  intros Hspan Hchild Hp.
  split; [unfold children|intros fuel];
    apply (childrenFrom_merged_child this d p); (done || lia).
Qed.

(** The scan cannot return when the span runs to the last column. *)
Lemma childrenFrom_span_to_end this : ∀ fuel dx children reads,
  (∀ i, (dx < i < length (LocationAccessor.model this))%nat →
        isMergedInto (rowAt (LocationAccessor.model this) i (LocationAccessor.y this))
          (LocationAccessor.x this) = true) →
  snd (childrenFrom fuel this dx children reads) = None.
Proof.
  induction fuel as [|fuel IH]; intros dx children reads Hspan; [done|].
  simpl. destruct (LocationAccessor.model this !! dx) as [col|] eqn:Hcol; [|done].
  match goal with |- context [match ?pushed with Some _ => _ | None => _ end] =>
    destruct pushed as [children'|] end; [|done].
  destruct (LocationAccessor.model this !! S dx) as [next|] eqn:Hnext; [|done].
  pose proof (Hspan (S dx)) as Hmerged. unfold rowAt in Hmerged.
  rewrite Hnext in Hmerged. simpl in Hmerged. rewrite Hmerged.
  - apply IH. intros i Hi. apply Hspan. lia.
  - apply lookup_lt_Some in Hnext. lia.
Qed.

(** X20. For every non-empty column list that [buildColumns] returns,
    [rootAccessors] yields an accessor whose [children] getter throws: the
    one whose cell spans the last column. *)
Theorem children_of_last_root fuel model columns :
  buildColumns fuel model = Some columns →
  columns ≠ [] →
  ∃ accessors accessor,
    rootAccessors columns = Some accessors ∧
    accessor ∈ accessors ∧
    snd (children accessor) = None ∧
    ∀ fuel', snd (childrenFrom fuel' accessor (LocationAccessor.x accessor) [] []) = None.
Proof.
  intros Hrun Hne.
  destruct (buildColumns_merging _ _ _ Hrun) as (columns0 & _ & _ & Hall & Hinv).
  destruct (rootAccessors_from columns (length columns) 0 [])
    as (accessors & Haccessors & _ & Hroots).
  assert (Hlast : (length columns - 1 < length columns)%nat).
  { destruct columns; [done|simpl; lia]. }
  destruct (proj2 (merging_shape _ _ _ _ Hinv (length columns - 1)%nat 0%nat)) as [r Hr].
  { eapply initialColumn_first; [done|]. by rewrite <- (merging_length _ _ _ _ Hinv). }
  assert (Hfound : ∃ accessor,
            accessor ∈ accessors ∧ LocationAccessor.y accessor = 0%nat ∧
            ∀ i, (LocationAccessor.x accessor < i < length columns)%nat →
                 isMergedInto (rowAt columns i 0) (LocationAccessor.x accessor) = true).
  { destruct r as [c|p].
    - destruct (Hroots (length columns - 1)%nat c) as (accessor & Hin & Hax & Hay);
        [lia|done|].
      exists accessor. split; [done|]. split; [done|]. intros i Hi. lia.
    - destruct (merging_merged _ _ _ _ Hinv _ _ _ Hr) as (p' & -> & Hlt & [t Ht] & Hspan).
      destruct (Hroots p' t) as (accessor & Hin & Hax & Hay); [lia|done|].
      exists accessor. split; [done|]. split; [done|].
      intros i Hi. rewrite Hax, Hspan by lia. simpl. apply Z.eqb_refl. }
  destruct Hfound as (accessor & Hin & Hay & Hspan).
  assert (Hmodel : LocationAccessor.model accessor = columns).
  { clear -Haccessors Hin. unfold rootAccessors in *.
    apply (forM_inv (λ acc, Forall (λ a, LocationAccessor.model a = columns) acc))
      in Haccessors.
    - rewrite Forall_forall in Haccessors. by apply Haccessors.
    - intros acc x acc' Hacc Hstep. destruct (isObject _); [|by injection Hstep as <-].
      unfold newLocationAccessor in Hstep.
      destruct (rowAt columns x 0) as [[c|?]|]; simpl in Hstep; [|done..].
      injection Hstep as <-. apply Forall_app. split; [done|]. by constructor.
    - constructor. }
  exists accessors, accessor. split; [done|]. split; [done|].
  split; [unfold children|intros fuel'];
    apply childrenFrom_span_to_end; rewrite Hmodel, Hay; intros i Hi; apply Hspan; lia.
Qed.

(** What the scan has gathered when it returns. *)
Lemma childrenFrom_returns this : ∀ fuel dx children reads children',
  (LocationAccessor.x this ≤ dx)%nat →
  (∀ i, (LocationAccessor.x this < i ≤ dx)%nat →
        isMergedInto (rowAt (LocationAccessor.model this) i (LocationAccessor.y this))
          (LocationAccessor.x this) = true) →
  snd (childrenFrom fuel this dx children reads) = Some children' →
  ∃ e more,
    (dx ≤ e)%nat ∧ (S e < length (LocationAccessor.model this))%nat ∧
    (∀ i, (LocationAccessor.x this < i ≤ e)%nat →
          isMergedInto (rowAt (LocationAccessor.model this) i (LocationAccessor.y this))
            (LocationAccessor.x this) = true) ∧
    isMergedInto (rowAt (LocationAccessor.model this) (S e) (LocationAccessor.y this))
      (LocationAccessor.x this) = false ∧
    children' = children ++ more ∧
    Forall (λ child, ∃ x, (dx ≤ x ≤ e)%nat ∧
                          newLocationAccessor (LocationAccessor.model this) x
                            (S (LocationAccessor.y this)) = Some child) more.
Proof.
  induction fuel as [|fuel IH]; intros dx children reads children' Hdx Hspan Hrun; [done|].
  simpl in Hrun.
  destruct (LocationAccessor.model this !! dx) as [col|] eqn:Hcol; [|done].
  set (pushed := if truthyRow (IColumn.rows col !! S (LocationAccessor.y this))
                 then child ← newLocationAccessor (LocationAccessor.model this) dx
                                (S (LocationAccessor.y this));
                      Some (children ++ [child])
                 else Some children) in *.
  assert (Hpushed : ∀ children1, pushed = Some children1 →
            ∃ more, children1 = children ++ more ∧
                    Forall (λ child, newLocationAccessor (LocationAccessor.model this) dx
                                       (S (LocationAccessor.y this)) = Some child) more).
  { intros children1 Heq. subst pushed.
    destruct (truthyRow _).
    - destruct (newLocationAccessor _ dx _) as [child|] eqn:Hchild; simpl in Heq; [|done].
      injection Heq as <-. exists [child]. split; [done|]. by constructor.
    - injection Heq as <-. exists []. by rewrite app_nil_r. }
  destruct pushed as [children1|]; [|done].
  destruct (Hpushed _ eq_refl) as (more1 & -> & Hmore1).
  destruct (LocationAccessor.model this !! S dx) as [next|] eqn:Hnext; [|done].
  destruct (isMergedInto (IColumn.rows next !! LocationAccessor.y this)
              (LocationAccessor.x this)) eqn:Hmerged.
  - apply IH in Hrun as (e & more & He & Hend & Hspan' & Hstop & -> & Hmore); [|lia|].
    + exists e, (more1 ++ more). split; [lia|]. split; [done|]. split; [done|].
      split; [done|]. split; [by rewrite app_assoc|].
      apply Forall_app. split.
      * eapply Forall_impl; [exact Hmore1|]. intros child Hchild. exists dx. split; [lia|done].
      * eapply Forall_impl; [exact Hmore|]. intros child (x & Hx & Hchild).
        exists x. split; [lia|done].
    + intros i Hi. destruct (decide (i = S dx)) as [->|Hi'].
      * unfold rowAt. by rewrite Hnext.
      * apply Hspan. lia.
  - simpl in Hrun. injection Hrun as <-.
    exists dx, more1. split; [done|]. split; [by apply lookup_lt_Some in Hnext|].
    split; [done|]. split; [unfold rowAt; by rewrite Hnext|]. split; [done|].
    eapply Forall_impl; [exact Hmore1|]. intros child Hchild. exists dx. split; [lia|done].
Qed.

(** X21. The [children] getter returns only when the accessor's cell
    stops short of the last column: there is a column right of the span,
    whose row is not the accessor's column.  Every accessor it returns
    then was constructed one row down, on a column of the span. *)
Theorem children_returns this accessors :
  snd (children this) = Some accessors →
  ∃ e,
    (LocationAccessor.x this ≤ e)%nat ∧
    (S e < length (LocationAccessor.model this))%nat ∧
    (∀ i, (LocationAccessor.x this < i ≤ e)%nat →
          isMergedInto (rowAt (LocationAccessor.model this) i (LocationAccessor.y this))
            (LocationAccessor.x this) = true) ∧
    isMergedInto (rowAt (LocationAccessor.model this) (S e) (LocationAccessor.y this))
      (LocationAccessor.x this) = false ∧
    Forall (λ child, ∃ x, (LocationAccessor.x this ≤ x ≤ e)%nat ∧
                          newLocationAccessor (LocationAccessor.model this) x
                            (S (LocationAccessor.y this)) = Some child) accessors.
Proof.
  unfold children. intros Hrun.
  apply childrenFrom_returns in Hrun as (e & more & He & Hend & Hspan & Hstop & -> & Hmore);
    [|done|intros i Hi; lia].
  exists e. by repeat split.
Qed.

(** *** rootAccessors *)

(** X22. [rootAccessors] never throws: for any columns it returns the
    accessors of row 0 of the columns whose first row is a cell, in
    order. *)
Theorem rootAccessors_total columns :
  ∃ accessors,
    rootAccessors columns = Some accessors ∧
    LocationAccessor.x <$> accessors
      = List.filter (λ x, isObject (rowAt columns x 0)) (seq 0 (length columns)) ∧
    Forall (λ accessor,
              newLocationAccessor columns (LocationAccessor.x accessor) 0 = Some accessor)
      accessors.
Proof.
  unfold rootAccessors.
  assert (Hloop : ∀ l accessors0,
            ∃ accessors,
              forM (λ accessors x,
                      if isObject (rowAt columns x 0)
                      then accessor ← newLocationAccessor columns x 0;
                           Some (accessors ++ [accessor])
                      else Some accessors) l accessors0 = Some accessors ∧
              LocationAccessor.x <$> accessors
                = (LocationAccessor.x <$> accessors0)
                  ++ List.filter (λ x, isObject (rowAt columns x 0)) l ∧
              (Forall (λ accessor,
                         newLocationAccessor columns (LocationAccessor.x accessor) 0
                         = Some accessor) accessors0 →
               Forall (λ accessor,
                         newLocationAccessor columns (LocationAccessor.x accessor) 0
                         = Some accessor) accessors)).
  { induction l as [|x l IH]; intros accessors0.
    - exists accessors0. split; [done|]. split; [by rewrite app_nil_r|done].
    - rewrite forM_cons. cbn [List.filter].
      destruct (rowAt columns x 0) as [[c|p]|] eqn:Hrow; simpl.
      + assert (Hnew : newLocationAccessor columns x 0
                       = Some (LocationAccessor.mk columns x 0 (FlameCell.location c)
                                 (FlameCell.selfTime c) (FlameCell.aggregateTime c)))
          by (unfold newLocationAccessor; by rewrite Hrow).
        destruct (IH (accessors0 ++ [LocationAccessor.mk columns x 0 (FlameCell.location c)
                                       (FlameCell.selfTime c) (FlameCell.aggregateTime c)]))
          as (accessors & Hrun & Hxs & Hmade).
        exists accessors. rewrite Hnew. simpl. split; [done|]. split.
        * rewrite Hxs, fmap_app. simpl. by rewrite <- app_assoc.
        * intros Hall. apply Hmade. apply Forall_app. split; [done|].
          constructor; [|done]. done.
      + apply IH.
      + apply IH. }
  destruct (Hloop (seq 0 (length columns)) []) as (accessors & Hrun & Hxs & Hmade).
  exists accessors. split; [done|]. split; [done|]. by apply Hmade.
Qed.

(** *** The column filter *)

Lemma droppedBefore_S (kept : list bool) x (b : bool) :
  kept !! x = Some b →
  droppedBefore kept (S x) = (droppedBefore kept x + (if b then 0 else 1))%nat.
Proof.
  intros Hb. unfold droppedBefore. rewrite (take_S_r _ _ _ Hb), List.filter_app, length_app.
  by destruct b.
Qed.

Lemma droppedBefore_le kept x : (droppedBefore kept x ≤ x)%nat.
Proof.
  unfold droppedBefore. etrans; [apply List.filter_length_le|].
  rewrite length_take. lia.
Qed.

Lemma droppedBefore_slope (kept : list bool) x m :
  (x ≤ m)%nat → (droppedBefore kept m ≤ droppedBefore kept x + (m - x))%nat.
Proof.
  induction m as [|m IH]; intros Hx.
  - replace x with 0%nat by lia. lia.
  - destruct (decide (x = S m)) as [->|Hne]; [lia|].
    destruct (kept !! m) as [b|] eqn:Hb.
    + rewrite (droppedBefore_S _ _ _ Hb). destruct b; lia.
    + assert (droppedBefore kept (S m) = droppedBefore kept m) as ->.
      { unfold droppedBefore. apply lookup_ge_None in Hb. by rewrite !take_ge by lia. }
      lia.
Qed.

Lemma droppedBefore_run kept p : ∀ n,
  (∀ i, (p ≤ i < p + n)%nat → kept !! i = Some true) →
  droppedBefore kept (p + n) = droppedBefore kept p.
Proof.
  induction n as [|n IH]; intros Hrun; [by rewrite Nat.add_0_r|].
  replace (p + S n)%nat with (S (p + n)) by lia.
  rewrite (droppedBefore_S _ _ true) by (apply Hrun; lia).
  rewrite IH; [lia|]. intros i Hi. apply Hrun. lia.
Qed.

(** The second loop, after [m] columns: the offset is the number of
    columns dropped, and a kept column sits as many places to the left as
    columns were dropped before it, its numbers reduced by as much. *)
Lemma adjusted_prefix columns kept :
  length kept = length columns →
  ∀ m, (m ≤ length columns)%nat →
    fst (foldl (adjustColumn columns kept) (0, []) (seq 0 m))
      = Z.of_nat (droppedBefore kept m) ∧
    length (snd (foldl (adjustColumn columns kept) (0, []) (seq 0 m)))
      = (m - droppedBefore kept m)%nat ∧
    ∀ x col, (x < m)%nat → columns !! x = Some col → kept !! x = Some true →
      snd (foldl (adjustColumn columns kept) (0, []) (seq 0 m))
        !! (x - droppedBefore kept x)%nat
      = Some (shiftColumn (Z.of_nat (droppedBefore kept x)) col).
Proof.
  intros Hlen. induction m as [|m IH]; intros Hm.
  { split; [done|]. split; [done|]. intros x col Hx. lia. }
  destruct IH as (Hoff & Hadj & Hcols); [lia|].
  rewrite seq_S, foldl_app. simpl.
  destruct (foldl (adjustColumn columns kept) (0, []) (seq 0 m)) as [off adj].
  simpl in Hoff, Hadj, Hcols. subst off.
  destruct (lookup_lt_is_Some_2 columns m) as [col Hcol]; [lia|].
  destruct (lookup_lt_is_Some_2 kept m) as [b Hb]; [lia|].
  pose proof (droppedBefore_le kept m) as Hle.
  unfold adjustColumn. rewrite Hcol, Hb. simpl.
  rewrite (droppedBefore_S _ _ _ Hb). destruct b; simpl.
  - split; [f_equal; lia|]. split; [rewrite length_app; simpl; lia|].
    intros x col' Hx Hcol' Hkept. destruct (decide (x = m)) as [->|Hne].
    + rewrite lookup_app_r by lia.
      replace (m - droppedBefore kept m - length adj)%nat with 0%nat by lia.
      simpl. rewrite Hcol in Hcol'. by injection Hcol' as <-.
    + rewrite lookup_app_l; [apply Hcols; [lia|done|done]|].
      pose proof (droppedBefore_le kept x).
      pose proof (droppedBefore_slope kept (S x) m ltac:(lia)) as Hslope.
      rewrite (droppedBefore_S _ _ _ Hkept) in Hslope. lia.
  - split; [lia|]. split; [lia|].
    intros x col' Hx Hcol' Hkept. destruct (decide (x = m)) as [->|Hne]; [congruence|].
    apply Hcols; [lia|done|done].
Qed.

Lemma keptColumns_length columns accessors :
  length (keptColumns columns accessors) = length columns.
Proof.
  unfold keptColumns.
  assert (Hfold : ∀ l validX, length (foldl (markAccessor columns) validX l) = length validX).
  { induction l as [|a l IH]; intros validX; simpl; [done|].
    by rewrite IH, markAccessor_length. }
  by rewrite Hfold, length_replicate.
Qed.

(** X23. [getFilteredColumns] keeps exactly the marked columns, in order:
    a marked column moves left by the number of unmarked columns before
    it, and its numbers are reduced by that number. *)
Theorem getFilteredColumns_kept columns accessors :
  length (getFilteredColumns columns accessors)
    = (length columns
       - droppedBefore (keptColumns columns accessors) (length columns))%nat ∧
  ∀ x col, columns !! x = Some col → keptColumns columns accessors !! x = Some true →
    getFilteredColumns columns accessors
      !! (x - droppedBefore (keptColumns columns accessors) x)%nat
    = Some (shiftColumn (Z.of_nat (droppedBefore (keptColumns columns accessors) x)) col).
Proof.
  unfold getFilteredColumns. fold (keptColumns columns accessors).
  destruct (adjusted_prefix columns (keptColumns columns accessors)
              (keptColumns_length _ _) (length columns)) as (_ & Hlen & Hcols); [done|].
  split; [done|]. intros x col Hcol Hkept. apply Hcols; [|done|done].
  by apply lookup_lt_Some in Hcol.
Qed.

(** X24. A number in a kept column still names its column after the
    filter when no column between the two is dropped: it is reduced by
    the number of places that column has moved. *)
Theorem getFilteredColumns_reference columns accessors x y p col target :
  columns !! x = Some col →
  IColumn.rows col !! y = Some (Merged (Z.of_nat p)) →
  (p ≤ x)%nat →
  columns !! p = Some target →
  (∀ i, (p ≤ i ≤ x)%nat → keptColumns columns accessors !! i = Some true) →
  let d := droppedBefore (keptColumns columns accessors) p in
  rowAt (getFilteredColumns columns accessors) (x - d) y
    = Some (Merged (Z.of_nat (p - d))) ∧
  getFilteredColumns columns accessors !! (p - d)%nat = Some (shiftColumn (Z.of_nat d) target).
Proof.
  intros Hcol Hrow Hpx Htarget Hkept d.
  unfold getFilteredColumns. fold (keptColumns columns accessors).
  destruct (adjusted_prefix columns (keptColumns columns accessors)
              (keptColumns_length _ _) (length columns)) as (_ & _ & Hcols); [done|].
  assert (Hd : droppedBefore (keptColumns columns accessors) x = d).
  { replace x with (p + (x - p))%nat by lia. apply droppedBefore_run.
    intros i Hi. apply Hkept. lia. }
  pose proof (droppedBefore_le (keptColumns columns accessors) p) as Hle.
  split.
  - unfold rowAt. rewrite <- Hd at 1.
    rewrite (Hcols x col); [|by apply lookup_lt_Some in Hcol|done|apply Hkept; lia].
    simpl. rewrite Hd. unfold shiftColumn. case_decide as Hzero; simpl.
    + rewrite list_lookup_fmap, Hrow. simpl. do 2 f_equal. fold d. lia.
    + rewrite Hrow. do 2 f_equal. fold d in Hzero. lia.
  - apply Hcols; [by apply lookup_lt_Some in Htarget|done|apply Hkept; lia].
Qed.

(** *** The properties at the example inputs *)

(** X1, at the scenario. *)
Lemma buildModel_ids_witness :
  ∃ model profile',
    @buildModel plainPaths 10 scenarioProfile = Some (model, profile') ∧
    ((∀ i node, lookupZ (IProfileModel.nodes model) i = Some node →
                IComputedNode.id node = i) ∧
     (∀ i location, lookupZ (IProfileModel.locations model) i = Some location →
                    ILocation.id location = i)).
Proof.
  eexists _, _. split; [vm_compute; reflexivity|].
  eapply (@buildModel_ids plainPaths 10 scenarioProfile). vm_compute. reflexivity.
Defined.

(** X2, at the scenario. *)
Lemma buildModel_reindexed_witness :
  ∃ model profile',
    @buildModel plainPaths 10 scenarioProfile = Some (model, profile') ∧
    (length (IProfileModel.nodes model) = length (ICpuProfileRaw.nodes scenarioProfile) ∧
     RawNode.id <$> ICpuProfileRaw.nodes scenarioProfile
       ≡ₚ (λ i, Z.of_nat i + 1) <$> seq 0 (length (ICpuProfileRaw.nodes scenarioProfile)) ∧
     ∀ raw, raw ∈ ICpuProfileRaw.nodes profile' →
       ∃ node,
         lookupZ (IProfileModel.nodes model) (RawNode.id raw - 1) = Some node ∧
         IComputedNode.children node
           = default [] (List.map (λ n, n - 1) <$> RawNode.children raw) ∧
         RawNode.locationId raw = Some (IComputedNode.locationId node)).
Proof.
  eexists _, _. split; [vm_compute; reflexivity|].
  eapply (@buildModel_reindexed plainPaths 10 scenarioProfile);
    [eexists; reflexivity|eexists; reflexivity|vm_compute; reflexivity].
Defined.

(** X3, at the scenario. *)
Lemma buildModel_parents_witness :
  ∃ model profile',
    @buildModel plainPaths 10 scenarioProfile = Some (model, profile') ∧
    ∀ c node, lookupZ (IProfileModel.nodes model) c = Some node →
      (∀ p, IComputedNode.parent node = Some p → listedBy (IProfileModel.nodes model) c p) ∧
      (∀ c', c' ∈ IComputedNode.children node →
         ∃ child p, lookupZ (IProfileModel.nodes model) c' = Some child ∧
                    IComputedNode.parent child = Some p ∧
                    listedBy (IProfileModel.nodes model) c' p) ∧
      (IComputedNode.parent node = None →
       ∀ p, ¬ listedBy (IProfileModel.nodes model) c p).
Proof.
  eexists _, _. split; [vm_compute; reflexivity|].
  eapply (@buildModel_parents plainPaths 10 scenarioProfile). vm_compute. reflexivity.
Defined.

(** X4, at the scenario. *)
Lemma buildModel_location_times_witness :
  ∃ model profile',
    @buildModel plainPaths 10 scenarioProfile = Some (model, profile') ∧
    ∀ id location, lookupZ (IProfileModel.locations model) id = Some location →
      ILocation.selfTime location
        = sumZ (IComputedNode.selfTime <$> nodesAt (IProfileModel.nodes model) id) ∧
      ILocation.aggregateTime location
        = sumZ (IComputedNode.aggregateTime <$> nodesAt (IProfileModel.nodes model) id).
Proof.
  eexists _, _. split; [vm_compute; reflexivity|].
  eapply (@buildModel_location_times plainPaths 10 scenarioProfile). vm_compute. reflexivity.
Defined.

(** X5, at the anonymous function with its position tick. *)
Lemma buildModel_location_ticks_witness :
  ∃ model profile',
    @buildModel plainPaths 10 anonymousProfile = Some (model, profile') ∧
    ∀ id location, lookupZ (IProfileModel.locations model) id = Some location →
      ILocation.ticks location
        = if decide (id = 0) then 0 else ticksAt (ICpuProfileRaw.nodes profile') id.
Proof.
  eexists _, _. split; [vm_compute; reflexivity|].
  eapply (@buildModel_location_ticks plainPaths 10 anonymousProfile). vm_compute. reflexivity.
Defined.

(** X6, at the anonymous function. *)
Lemma buildModel_location_category_witness :
  ∃ model profile',
    @buildModel plainPaths 10 anonymousProfile = Some (model, profile') ∧
    ∀ id location, lookupZ (IProfileModel.locations model) id = Some location →
      CallFrame.functionName (ILocation.callFrame location) ≠ "" ∧
      (ILocation.category location = System
       ↔ CallFrame.lineNumber (ILocation.callFrame location) < 0) ∧
      (ILocation.category location = User
       ↔ 0 ≤ CallFrame.lineNumber (ILocation.callFrame location) ∧
         is_Some (ILocation.src location) ∧
         includes (CallFrame.url (ILocation.callFrame location)) "node_modules" = false).
Proof.
  eexists _, _. split; [vm_compute; reflexivity|].
  eapply (@buildModel_location_category plainPaths 10 anonymousProfile).
  vm_compute. reflexivity.
Defined.

(** X7, at a node with one child and nothing cached. *)
Lemma computeAggregateTime_caches_witness :
  ∃ v nodes',
    computeAggregateTime 5 0
      [IComputedNode.mk 0 5 0 [1] None 0; IComputedNode.mk 1 3 0 [] (Some 0) 0]
      = Some (v, nodes') ∧
    (IComputedNode.setAggregateTime 0 <$> nodes'
       = IComputedNode.setAggregateTime 0
           <$> [IComputedNode.mk 0 5 0 [1] None 0; IComputedNode.mk 1 3 0 [] (Some 0) 0] ∧
     (∀ j row,
        lookupZ [IComputedNode.mk 0 5 0 [1] None 0; IComputedNode.mk 1 3 0 [] (Some 0) 0] j
          = Some row →
        IComputedNode.aggregateTime row ≠ 0 → lookupZ nodes' j = Some row) ∧
     IComputedNode.aggregateTime <$> lookupZ nodes' 0 = Some v).
Proof.
  eexists _, _. split; [vm_compute; reflexivity|].
  eapply (computeAggregateTime_caches 5 0). vm_compute. reflexivity.
Defined.

(** X9, at the anonymous function. *)
Lemma ensureSourceLocations_located_witness :
  ICpuProfileRaw.vscode anonymousProfile = None ∧
  NoDup ((λ l, refKey (IAnnotationLocation.callFrame (fst l)))
         <$> fst (@ensureSourceLocations plainPaths anonymousProfile)) ∧
  Forall (nodeLocated (fst (@ensureSourceLocations plainPaths anonymousProfile)))
    (ICpuProfileRaw.nodes (snd (@ensureSourceLocations plainPaths anonymousProfile))).
Proof.
  split; [reflexivity|].
  apply (@ensureSourceLocations_located plainPaths anonymousProfile). reflexivity.
Defined.

(** X10, at the two lines of one function. *)
Lemma ensureSourceLocations_same_key_witness :
  ∃ node1 node2,
    ICpuProfileRaw.nodes (snd (@ensureSourceLocations plainPaths linesProfile)) !! 1%nat
      = Some node1 ∧
    ICpuProfileRaw.nodes (snd (@ensureSourceLocations plainPaths linesProfile)) !! 2%nat
      = Some node2 ∧
    (RawNode.locationId node1 = RawNode.locationId node2
     ↔ refKey (RawNode.callFrame node1) = refKey (RawNode.callFrame node2)).
Proof.
  eexists _, _. split; [vm_compute; reflexivity|]. split; [vm_compute; reflexivity|].
  eapply (@ensureSourceLocations_same_key plainPaths linesProfile); [reflexivity| |].
  - apply (list_elem_of_lookup_2 _ 1%nat). vm_compute. reflexivity.
  - apply (list_elem_of_lookup_2 _ 2%nat). vm_compute. reflexivity.
Defined.

(** X11, at the two lines of one function. *)
Lemma ensureSourceLocations_lines_witness :
  ∃ node1 node2,
    ICpuProfileRaw.nodes (snd (@ensureSourceLocations plainPaths linesProfile)) !! 1%nat
      = Some node1 ∧
    ICpuProfileRaw.nodes (snd (@ensureSourceLocations plainPaths linesProfile)) !! 2%nat
      = Some node2 ∧
    RawNode.locationId node1 ≠ RawNode.locationId node2.
Proof.
  eexists _, _. split; [vm_compute; reflexivity|]. split; [vm_compute; reflexivity|].
  eapply (@ensureSourceLocations_lines plainPaths linesProfile _ _ 11); [reflexivity| | | |].
  - apply (list_elem_of_lookup_2 _ 1%nat). vm_compute. reflexivity.
  - apply (list_elem_of_lookup_2 _ 2%nat). vm_compute. reflexivity.
  - vm_compute. reflexivity.
  - vm_compute. discriminate.
Defined.

(** X12, at the scenario. *)
Lemma createBottomUpGraph_tree_witness :
  ∃ model profile' store,
    @buildModel plainPaths 10 scenarioProfile = Some (model, profile') ∧
    createBottomUpGraph 10 model = Some store ∧
    (wellRooted store ∧ linkedStore model store).
Proof.
  eexists _, _, _. split; [vm_compute; reflexivity|].
  split; [vm_compute; reflexivity|].
  eapply (createBottomUpGraph_tree 10). vm_compute. reflexivity.
Defined.

(** X13, at a node whose location id is 5 where there is no location. *)
Lemma createBottomUpGraph_bad_location_witness :
  IComputedNode.mk 0 0 0 [] None 5 ∈ IProfileModel.nodes strayModel ∧
  createBottomUpGraph 1 strayModel = None.
Proof.
  split; [left|].
  apply (createBottomUpGraph_bad_location 1 strayModel (IComputedNode.mk 0 0 0 [] None 5));
    [left|simpl; lia].
Defined.

(** X14, at the scenario. *)
Lemma createBottomUpGraph_total_witness :
  ∃ model profile',
    @buildModel plainPaths 10 scenarioProfile = Some (model, profile') ∧
    ∃ fuel0, ∀ fuel', (fuel0 ≤ fuel')%nat → is_Some (createBottomUpGraph fuel' model).
Proof.
  eexists _, _. split; [vm_compute; reflexivity|].
  eapply (@createBottomUpGraph_total plainPaths 10 scenarioProfile). vm_compute. reflexivity.
Defined.

(** X15, at the four columns. *)
Lemma buildColumns_extents_witness :
  ∃ model profile' columns,
    @buildModel plainPaths 10 flameProfile = Some (model, profile') ∧
    buildColumns 10 model = Some columns ∧
    (length columns = (length (IProfileModel.samples model) - 2)%nat ∧
     ∀ x col, columns !! x = Some col →
       ∃ delta,
         IProfileModel.timeDeltas model !! x = Some delta ∧
         IColumn.x1 col
           = Fraction.mk (sumZ (take x (IProfileModel.timeDeltas model)))
               (IProfileModel.duration model) ∧
         IColumn.x2 col
           = Fraction.mk (delta + sumZ (take x (IProfileModel.timeDeltas model)))
               (IProfileModel.duration model)).
Proof.
  eexists _, _, _. split; [vm_compute; reflexivity|].
  split; [vm_compute; reflexivity|].
  eapply (buildColumns_extents 10). vm_compute. reflexivity.
Defined.

(** X16, at the four columns. *)
Lemma buildColumns_row_totals_witness :
  ∃ model profile' columns,
    @buildModel plainPaths 10 flameProfile = Some (model, profile') ∧
    buildColumns 10 model = Some columns ∧
    ∀ y,
      rowTotal FlameCell.selfTime columns y
      = sumZ ((λ x, if bool_decide (depthAt columns x = S y)
                    then default 0 (IProfileModel.timeDeltas model !! x) else 0)
              <$> seq 0 (length columns)) ∧
      rowTotal FlameCell.aggregateTime columns y
      = sumZ ((λ x, if bool_decide (S y < depthAt columns x)%nat
                    then default 0 (IProfileModel.timeDeltas model !! x) else 0)
              <$> seq 0 (length columns)).
Proof.
  eexists _, _, _. split; [vm_compute; reflexivity|].
  split; [vm_compute; reflexivity|].
  eapply (buildColumns_row_totals 10). vm_compute. reflexivity.
Defined.

(** X17, at the four columns. *)
Lemma buildColumns_spans_nest_witness :
  ∃ model profile' columns,
    @buildModel plainPaths 10 flameProfile = Some (model, profile') ∧
    buildColumns 10 model = Some columns ∧
    ∀ x y p, rowAt columns x y = Some (Merged p) →
    ∀ y', (y' < y)%nat → ∃ p', rowAt columns x y' = Some (Merged p') ∧ p' ≤ p.
Proof.
  eexists _, _, _. split; [vm_compute; reflexivity|].
  lazymatch goal with
  | |- buildColumns 10 ?model = _ ∧ _ =>
      split; [vm_compute; reflexivity|];
      eapply (buildColumns_spans_nest 10 model); vm_compute; reflexivity
  end.
Defined.

(** X18, at the profile of the four columns. *)
Lemma buildColumns_total_witness :
  ∃ model profile',
    @buildModel plainPaths 10 flameProfile = Some (model, profile') ∧
    (length (IProfileModel.samples model) ≤ length (IProfileModel.timeDeltas model) + 1)%nat ∧
    ∃ fuel0, ∀ fuel', (fuel0 ≤ fuel')%nat → is_Some (buildColumns fuel' model).
Proof.
  eexists _, _. split; [vm_compute; reflexivity|]. split; [vm_compute; lia|].
  eapply (@buildColumns_total plainPaths 10 flameProfile);
    [vm_compute; reflexivity|vm_compute; lia].
Defined.

(** X19, at the fork: the cell of [b] spans columns 2 and 3, and row 1
    of column 3 is the number 2. *)
Lemma children_merged_child_witness :
  ∃ model profile' columns accessor,
    @buildModel plainPaths 10 forkProfile = Some (model, profile') ∧
    buildColumns 10 model = Some columns ∧
    newLocationAccessor columns 2 0 = Some accessor ∧
    (snd (children accessor) = None ∧
     ∀ fuel, snd (childrenFrom fuel accessor (LocationAccessor.x accessor) [] []) = None).
Proof.
  eexists _, _, _, _. split; [vm_compute; reflexivity|].
  split; [vm_compute; reflexivity|]. split; [vm_compute; reflexivity|].
  eapply (children_merged_child _ 1 2).
  - intros i Hi. simpl in Hi. replace i with 3%nat by lia. vm_compute. reflexivity.
  - vm_compute. reflexivity.
  - discriminate.
Defined.

(** X20, at the four columns. *)
Lemma children_of_last_root_witness :
  ∃ model profile' columns,
    @buildModel plainPaths 10 flameProfile = Some (model, profile') ∧
    buildColumns 10 model = Some columns ∧
    columns ≠ [] ∧
    ∃ accessors accessor,
      rootAccessors columns = Some accessors ∧
      accessor ∈ accessors ∧
      snd (children accessor) = None ∧
      ∀ fuel', snd (childrenFrom fuel' accessor (LocationAccessor.x accessor) [] []) = None.
Proof.
  eexists _, _, _. split; [vm_compute; reflexivity|].
  lazymatch goal with
  | |- buildColumns 10 ?model = _ ∧ _ =>
      split; [vm_compute; reflexivity|]; split; [discriminate|];
      eapply (children_of_last_root 10 model); [vm_compute; reflexivity|discriminate]
  end.
Defined.

(** X21, at the fork: the first cell of [b] spans column 0 only, and
    has the cell of [c] below it. *)
Lemma children_returns_witness :
  ∃ model profile' columns accessor child,
    @buildModel plainPaths 10 forkProfile = Some (model, profile') ∧
    buildColumns 10 model = Some columns ∧
    newLocationAccessor columns 0 0 = Some accessor ∧
    snd (children accessor) = Some [child] ∧
    ∃ e,
      (LocationAccessor.x accessor ≤ e)%nat ∧
      (S e < length (LocationAccessor.model accessor))%nat ∧
      (∀ i, (LocationAccessor.x accessor < i ≤ e)%nat →
            isMergedInto (rowAt (LocationAccessor.model accessor) i
                            (LocationAccessor.y accessor))
              (LocationAccessor.x accessor) = true) ∧
      isMergedInto (rowAt (LocationAccessor.model accessor) (S e)
                      (LocationAccessor.y accessor))
        (LocationAccessor.x accessor) = false ∧
      Forall (λ child, ∃ x, (LocationAccessor.x accessor ≤ x ≤ e)%nat ∧
                            newLocationAccessor (LocationAccessor.model accessor) x
                              (S (LocationAccessor.y accessor)) = Some child) [child].
Proof.
  eexists _, _, _, _, _. split; [vm_compute; reflexivity|].
  split; [vm_compute; reflexivity|]. split; [vm_compute; reflexivity|].
  split; [vm_compute; reflexivity|].
  eapply children_returns. vm_compute. reflexivity.
Defined.

(** X23, at the fork filtered by the accessor of the second cell of [b]:
    columns 0 and 1 are dropped, and column 3 becomes column 1 with its
    numbers reduced by 2. *)
Lemma getFilteredColumns_kept_witness :
  ∃ model profile' columns accessor col,
    @buildModel plainPaths 10 forkProfile = Some (model, profile') ∧
    buildColumns 10 model = Some columns ∧
    newLocationAccessor columns 2 0 = Some accessor ∧
    columns !! 3%nat = Some col ∧
    keptColumns columns [accessor] = [false; false; true; true] ∧
    length (getFilteredColumns columns [accessor]) = 2%nat ∧
    getFilteredColumns columns [accessor] !! 1%nat = Some (shiftColumn 2 col).
Proof.
  eexists _, _, _, _, _. split; [vm_compute; reflexivity|].
  split; [vm_compute; reflexivity|]. split; [vm_compute; reflexivity|].
  split; [vm_compute; reflexivity|]. split; [vm_compute; reflexivity|].
  lazymatch goal with
  | |- length (getFilteredColumns ?columns ?accessors) = _ ∧ _ =>
      destruct (getFilteredColumns_kept columns accessors) as [Hlength Hkept]
  end.
  split; [exact Hlength|].
  eapply (Hkept 3%nat); vm_compute; reflexivity.
Defined.

(** X24, at the fork filtered by the accessor of the second cell of [b]:
    columns 0 and 1 are dropped, and the number 2 in column 3 becomes
    0. *)
Lemma getFilteredColumns_reference_witness :
  ∃ model profile' columns accessor col target,
    @buildModel plainPaths 10 forkProfile = Some (model, profile') ∧
    buildColumns 10 model = Some columns ∧
    newLocationAccessor columns 2 0 = Some accessor ∧
    columns !! 3%nat = Some col ∧
    columns !! 2%nat = Some target ∧
    let d := droppedBefore (keptColumns columns [accessor]) 2 in
    rowAt (getFilteredColumns columns [accessor]) (3 - d) 0
      = Some (Merged (Z.of_nat (2 - d))) ∧
    getFilteredColumns columns [accessor] !! (2 - d)%nat
      = Some (shiftColumn (Z.of_nat d) target).
Proof.
  eexists _, _, _, _, _, _. split; [vm_compute; reflexivity|].
  split; [vm_compute; reflexivity|]. split; [vm_compute; reflexivity|].
  split; [vm_compute; reflexivity|]. split; [vm_compute; reflexivity|].
  eapply (getFilteredColumns_reference _ _ 3 0 2).
  - vm_compute. reflexivity.
  - vm_compute. reflexivity.
  - lia.
  - vm_compute. reflexivity.
  - intros i Hi. destruct (decide (i = 2%nat)) as [->|Hne]; [vm_compute; reflexivity|].
    replace i with 3%nat by lia. vm_compute. reflexivity.
Defined.
